(** * Conversation orchestration core of the Gemini client

    A shallow embedding of [packages/core/src/core/client.ts]:
    [findCompressSplitPoint], [getIdeContextParts], [tryCompressChat]
    and [sendMessageStream], followed by the properties the design
    document states about them.  The later parts add further properties
    of the client, the configuration loader of the command-line
    interface ([loadCliConfig] and its helpers), and the slash commands
    [/memory], [/directory] and [/extensions].

    Conventions of the embedding.
    - A JavaScript number that holds a count, an index or a token total
      is a [nat] or a [Z]; a fractional number is the rational [Q] that
      is the exact value of the double, and the arithmetic of
      [findCompressSplitPoint] and [tryCompressChat] on such numbers is
      rounded to the nearest double by [roundToDouble].  The product
      with 0.95 of the context-window check is compared exactly.
    - An optional property ([role?], [parts?], [cursor?], ...) is an
      [option]; a property that is present holds a value.
    - [JSON.stringify] is the serializer of [Module JSON]; strings are
      sequences of code units from 0 to 255.
    - Collaborators that live in other files (router, loop detector,
      turn, next-speaker check, configuration, telemetry counter) are the
      fields of the record [Env]; each is a function of the client state,
      which carries the log of every collaborator call made so far, so a
      field can stand for any deterministic stateful collaborator.
    - The client is initialised ([this.chat] holds a chat) and the
      collaborators return normally: the only exception modelled is the one
      [findCompressSplitPoint] throws.
    - [sendMessageStream] is an asynchronous generator that calls itself in
      tail position; [sendMessageStreamInvocation] is its body up to that
      call, and [sendMessageStream] chains the invocations, with a bound
      [fuel] on their number. *)

From Stdlib Require Import List String Ascii Bool Arith ZArith QArith Lia.
From Stdlib Require Import Qround Qpower Lqa DecimalString.
Import ListNotations.

Local Open Scope string_scope.
Local Open Scope list_scope.
Local Open Scope Z_scope.

(** ** Results of code that may throw *)

Inductive result (A : Type) : Type :=
| Ok (a : A)
| Throw (message : string).
Arguments Ok {A} a.
Arguments Throw {A} message.

(** ** Strings *)

(** [l.join(sep)] *)
Fixpoint join (sep : string) (l : list string) : string :=
  match l with
  | [] => EmptyString
  | [x] => x
  | x :: rest => (x ++ sep ++ join sep rest)%string
  end.

Definition newline : string := String (ascii_of_nat 10) EmptyString.

(** White space and line terminators among the code units up to 255:
    tab, line feed, vertical tab, form feed, carriage return, space and
    the no-break space U+00A0. *)
Definition isWhitespace (c : ascii) : bool :=
  let n := nat_of_ascii c in
  Nat.eqb n 32 || (Nat.leb 9 n && Nat.leb n 13) || Nat.eqb n 160.

Fixpoint trimStart (s : string) : string :=
  match s with
  | EmptyString => EmptyString
  | String c rest => if isWhitespace c then trimStart rest else s
  end.

Definition reverse (s : string) : string :=
  string_of_list_ascii (rev (list_ascii_of_string s)).

(** [s.trim()] *)
Definition trim (s : string) : string :=
  reverse (trimStart (reverse (trimStart s))).

(** ** JSON values and [JSON.stringify] *)

Module JSON.

#[local] Set Warnings "-register-all".
Local Open Scope nat_scope.
Local Open Scope string_scope.

Inductive value : Type :=
| Null
| Bool (b : bool)
| Number (n : Z)
| Str (s : string)
| Array (items : list value)
| Object (members : list (string * value)).

Definition hexDigit (n : nat) : ascii :=
  nth n (list_ascii_of_string "0123456789abcdef") "0"%char.

(** The escape of one code unit inside a quoted string: the quote, the
    backslash and the control characters are escaped. *)
Definition escapeChar (c : ascii) : string :=
  let n := nat_of_ascii c in
  if Nat.eqb n 34 then "\" ++ String c EmptyString
  else if Nat.eqb n 92 then "\\"
  else if Nat.eqb n 8 then "\b"
  else if Nat.eqb n 9 then "\t"
  else if Nat.eqb n 10 then "\n"
  else if Nat.eqb n 12 then "\f"
  else if Nat.eqb n 13 then "\r"
  else if Nat.ltb n 32 then
    "\u00" ++ String (hexDigit (n / 16))
                (String (hexDigit (n mod 16)) EmptyString)
  else String c EmptyString.

Fixpoint escape (s : string) : string :=
  match s with
  | EmptyString => EmptyString
  | String c rest => escapeChar c ++ escape rest
  end.

Definition quote (s : string) : string :=
  String (ascii_of_nat 34)
    (escape s ++ String (ascii_of_nat 34) EmptyString).

(** [String(n)] for an integer that a number holds exactly (below 2^53
    in absolute value), which JavaScript writes with its decimal digits:
    the numbers serialized here are line and character positions. *)
Definition numberToString (n : Z) : string :=
  NilZero.string_of_int (Z.to_int n).

(** [JSON.stringify(v)] *)
Fixpoint stringify (v : value) : string :=
  match v with
  | Null => "null"
  | Bool true => "true"
  | Bool false => "false"
  | Number n => numberToString n
  | Str s => quote s
  | Array items => "[" ++ join "," (map stringify items) ++ "]"
  | Object members =>
      "{" ++ join "," (map (fun m => quote (fst m) ++ ":" ++ stringify (snd m))
                         members) ++ "}"
  end.

Fixpoint spaces (n : nat) : string :=
  match n with
  | O => EmptyString
  | S k => " " ++ spaces k
  end.

(** [JSON.stringify(v, null, 2)], at indentation [indent]. *)
Fixpoint stringifyIndented (indent : nat) (v : value) : string :=
  match v with
  | Array [] => "[]"
  | Array items =>
      "[" ++ newline ++
      join ("," ++ newline)
        (map (fun item => spaces (indent + 2) ++ stringifyIndented (indent + 2) item)
           items) ++
      newline ++ spaces indent ++ "]"
  | Object [] => "{}"
  | Object members =>
      "{" ++ newline ++
      join ("," ++ newline)
        (map (fun m => spaces (indent + 2) ++ quote (fst m) ++ ": " ++
                       stringifyIndented (indent + 2) (snd m))
           members) ++
      newline ++ spaces indent ++ "}"
  | other => stringify other
  end.

Definition stringifyPretty (v : value) : string := stringifyIndented 0 v.

(** An object literal whose members may be [undefined]: such members are
    left out by the serializer. *)
Fixpoint defined (members : list (string * option value))
  : list (string * value) :=
  match members with
  | [] => []
  | (k, Some v) :: rest => (k, v) :: defined rest
  | (_, None) :: rest => defined rest
  end.

Definition object (members : list (string * option value)) : value :=
  Object (defined members).

End JSON.


(** ** Conversation contents ([Content], [Part] of the API types) *)

Record FunctionCall : Type := mkFunctionCall {
  fcName : option string;
  fcArgs : option JSON.value
}.

Record FunctionResponse : Type := mkFunctionResponse {
  frName : option string;
  frResponse : option JSON.value
}.

Record Part : Type := mkPart {
  text : option string;
  functionCall : option FunctionCall;
  functionResponse : option FunctionResponse
}.

Record Content : Type := mkContent {
  role : option string;
  parts : option (list Part)
}.

Definition textPart (s : string) : Part := mkPart (Some s) None None.
Definition functionCallPart (name : string) (args : JSON.value) : Part :=
  mkPart None (Some (mkFunctionCall (Some name) (Some args))) None.
Definition functionResponsePart (name : string) (response : JSON.value) : Part :=
  mkPart None None (Some (mkFunctionResponse (Some name) (Some response))).

Definition userContent (ps : list Part) : Content := mkContent (Some "user") (Some ps).
Definition modelContent (ps : list Part) : Content := mkContent (Some "model") (Some ps).

Definition functionCallToJson (fc : FunctionCall) : JSON.value :=
  JSON.object [("name", option_map JSON.Str (fcName fc)); ("args", fcArgs fc)].

Definition functionResponseToJson (fr : FunctionResponse) : JSON.value :=
  JSON.object [("name", option_map JSON.Str (frName fr)); ("response", frResponse fr)].

Definition partToJson (p : Part) : JSON.value :=
  JSON.object
    [("text", option_map JSON.Str (text p));
     ("functionCall", option_map functionCallToJson (functionCall p));
     ("functionResponse", option_map functionResponseToJson (functionResponse p))].

Definition contentToJson (c : Content) : JSON.value :=
  JSON.object
    [("role", option_map JSON.Str (role c));
     ("parts", option_map (fun ps => JSON.Array (map partToJson ps)) (parts c))].

(** [JSON.stringify(content).length] *)
Definition jsonLength (c : Content) : nat :=
  String.length (JSON.stringify (contentToJson c)).
Arguments jsonLength : simpl never.

(** ** JavaScript idioms used by the client *)

(** [x?.some(pred)]: [undefined] when [x] is. *)
Definition optSome {A : Type} (l : option (list A)) (pred : A -> bool) : option bool :=
  option_map (existsb pred) l.

(** Truthiness of a [boolean | undefined]. *)
Definition truthy (b : option bool) : bool :=
  match b with
  | Some v => v
  | None => false
  end.

(** Truthiness of an optional object. *)
Definition present {A : Type} (o : option A) : bool :=
  match o with
  | Some _ => true
  | None => false
  end.

(** [o?.role === r] *)
Definition roleIs (c : Content) (r : string) : bool :=
  match role c with
  | Some s => String.eqb s r
  | None => false
  end.

(** ** Doubles

    [roundToDouble q] is the double nearest to the rational [q], ties
    going to the even significand: the value of an arithmetic operation
    whose exact result is [q].  A double has a significand of 53 bits
    and an exponent from -1074 up; results beyond the largest double do
    not occur here and are not modelled. *)

(** The integer nearest to [q], ties to the even one. *)
Definition roundHalfEven (q : Q) : Z :=
  let f := Qfloor q in
  match (q - inject_Z f ?= 1 # 2)%Q with
  | Lt => f
  | Gt => f + 1
  | Eq => if Z.even f then f else f + 1
  end.

(** The exponent [e] with [2 ^ e <= q < 2 ^ (e + 1)], for a positive [q]. *)
Definition binade (q : Q) : Z :=
  let e := Z.log2 (Qnum q) - Z.log2 (Zpos (Qden q)) in
  if Qle_bool (2 ^ e) q then e else e - 1.

(** The distance between the doubles around a positive [q]. *)
Definition ulp (q : Q) : Q := (2 ^ Z.max (binade q - 52) (-1074))%Q.

Definition roundToDouble (q : Q) : Q :=
  match (q ?= 0)%Q with
  | Eq => 0%Q
  | Gt => (inject_Z (roundHalfEven (q / ulp q)) * ulp q)%Q
  | Lt => (- (inject_Z (roundHalfEven (- q / ulp (- q))) * ulp (- q)))%Q
  end.

(** ** [findCompressSplitPoint] *)

(** The test of the loop body: [content.role === 'user' &&
    !content.parts?.some((part) => !!part.functionResponse)]. *)
Definition isSplitCandidate (content : Content) : bool :=
  roleIs content "user" &&
  negb (truthy (optSome (parts content) (fun part => present (functionResponse part)))).

Inductive ScanOutcome : Type :=
| Returned (i : nat)
| Completed (lastSplitPoint : nat).

(** The [for] loop over [contents], entered at index [i] with [rest] the
    entries from [i] on. *)
Fixpoint splitScan (charCounts : list nat) (targetCharCount : Q)
    (rest : list Content) (i lastSplitPoint cumulativeCharCount : nat)
  : ScanOutcome :=
  match rest with
  | [] => Completed lastSplitPoint
  | content :: rest' =>
      if isSplitCandidate content then
        if Qle_bool targetCharCount (inject_Z (Z.of_nat cumulativeCharCount))
        then Returned i
        else splitScan charCounts targetCharCount rest' (S i) i
               (cumulativeCharCount + nth i charCounts 0)%nat
      else splitScan charCounts targetCharCount rest' (S i) lastSplitPoint
             (cumulativeCharCount + nth i charCounts 0)%nat
  end.

(** [lastContent?.role === 'model' &&
    !lastContent?.parts?.some((part) => part.functionCall)] *)
Definition safeToCompressAll (lastContent : option Content) : bool :=
  match lastContent with
  | Some c =>
      roleIs c "model" &&
      negb (truthy (optSome (parts c) (fun part => present (functionCall part))))
  | None => false
  end.

Definition findCompressSplitPoint (contents : list Content) (fraction : Q)
  : result nat :=
  if Qle_bool fraction 0 || Qle_bool 1 fraction then
    Throw "Fraction must be between 0 and 1"
  else
    let charCounts := map jsonLength contents in
    let totalCharCount := fold_left Nat.add charCounts 0%nat in
    let targetCharCount :=
      roundToDouble (inject_Z (Z.of_nat totalCharCount) * fraction) in
    match splitScan charCounts targetCharCount contents 0 0 0 with
    | Returned i => Ok i
    | Completed lastSplitPoint =>
        let lastContent := nth_error contents (List.length contents - 1) in
        if safeToCompressAll lastContent then Ok (List.length contents)
        else Ok lastSplitPoint
    end.

Definition MAX_TURNS : Z := 100.

(** The literals [0.7] and [0.3]: the doubles nearest to 7/10 and 3/10. *)
Definition COMPRESSION_TOKEN_THRESHOLD : Q := roundToDouble (7 # 10).
Definition COMPRESSION_PRESERVE_THRESHOLD : Q := roundToDouble (3 # 10).


(** ** Editor context *)

(** Modelled from the spec: the snapshot types of ide/types.ts, which is
    not among the sources, with the properties [getIdeContextParts]
    reads. *)

Record Cursor : Type := mkCursor {
  line : Z;
  character : Z
}.

Record File : Type := mkFile {
  path : string;
  timestamp : Z;
  isActive : option bool;
  cursor : option Cursor;
  selectedText : option string
}.

Record WorkspaceState : Type := mkWorkspaceState {
  openFiles : option (list File);
  isTrusted : option bool
}.

Record IdeContext : Type := mkIdeContext {
  workspaceState : option WorkspaceState
}.

(** [ctx.workspaceState?.openFiles || []] *)
Definition openFilesOf (ctx : IdeContext) : list File :=
  match workspaceState ctx with
  | Some ws =>
      match openFiles ws with
      | Some files => files
      | None => []
      end
  | None => []
  end.

(** [s || undefined] and [s || ''] for an optional string: the empty
    string is falsy. *)
Definition nonEmpty (s : option string) : option string :=
  match s with
  | Some EmptyString => None
  | other => other
  end.

Definition orEmpty (s : option string) : string :=
  match s with
  | Some v => v
  | None => EmptyString
  end.

Definition cursorToJson (c : Cursor) : JSON.value :=
  JSON.Object [("line", JSON.Number (line c)); ("character", JSON.Number (character c))].

(** The object literal [{ path, cursor, selectedText }] built for the
    active file. *)
Definition activeFileToJson (f : File) : JSON.value :=
  JSON.object
    [("path", Some (JSON.Str (path f)));
     ("cursor", option_map cursorToJson (cursor f));
     ("selectedText", option_map JSON.Str (nonEmpty (selectedText f)))].

(** The keys of [new Map(files.map((f) => [f.path, f]))] in iteration
    order: each path once, at the place of its first occurrence. *)
Fixpoint mapKeys (seen : list string) (files : list File) : list string :=
  match files with
  | [] => []
  | f :: rest =>
      if existsb (String.eqb (path f)) seen then mapKeys seen rest
      else path f :: mapKeys (path f :: seen) rest
  end.

(** [map.has(p)] for the map built from [files]. *)
Definition mapHas (files : list File) (p : string) : bool :=
  existsb (fun f => String.eqb (path f) p) files.

Definition activeFileOf (files : list File) : option File :=
  find (fun f => truthy (isActive f)) files.

Definition cursorDiffers (lastCursor : option Cursor) (currentCursor : Cursor) : bool :=
  match lastCursor with
  | None => true
  | Some lc =>
      negb (Z.eqb (line lc) (line currentCursor)) ||
      negb (Z.eqb (character lc) (character currentCursor))
  end.

(** The members of [contextData] in the full-context branch of
    [getIdeContextParts]. *)
Definition ideContextData (currentIdeContext : IdeContext)
  : list (string * JSON.value) :=
  let files := openFilesOf currentIdeContext in
  let activeFile := activeFileOf files in
  let otherOpenFiles :=
    map path (filter (fun f => negb (truthy (isActive f))) files) in
  (match activeFile with
   | Some f => [("activeFile", activeFileToJson f)]
   | None => []
   end) ++
  (if (0 <? List.length otherOpenFiles)%nat
   then [("otherOpenFiles", JSON.Array (map JSON.Str otherOpenFiles))]
   else []).

(** The members of [changes] in the delta branch of
    [getIdeContextParts]. *)
Definition ideContextChanges (lastSentIdeContext currentIdeContext : IdeContext)
  : list (string * JSON.value) :=
  let lastFiles := openFilesOf lastSentIdeContext in
  let currentFiles := openFilesOf currentIdeContext in
  let openedFiles :=
    filter (fun p => negb (mapHas lastFiles p)) (mapKeys [] currentFiles) in
  let closedFiles :=
    filter (fun p => negb (mapHas currentFiles p)) (mapKeys [] lastFiles) in
  let lastActiveFile := activeFileOf lastFiles in
  let currentActiveFile := activeFileOf currentFiles in
  (if (0 <? List.length openedFiles)%nat
   then [("filesOpened", JSON.Array (map JSON.Str openedFiles))] else []) ++
  (if (0 <? List.length closedFiles)%nat
   then [("filesClosed", JSON.Array (map JSON.Str closedFiles))] else []) ++
  match currentActiveFile with
  | Some cur =>
      match lastActiveFile with
      | None => [("activeFileChanged", activeFileToJson cur)]
      | Some lst =>
          if negb (String.eqb (path lst) (path cur)) then
            [("activeFileChanged", activeFileToJson cur)]
          else
            let lastCursor := cursor lst in
            let lastSelectedText := orEmpty (selectedText lst) in
            let currentSelectedText := orEmpty (selectedText cur) in
            (match cursor cur with
             | Some currentCursor =>
                 if cursorDiffers lastCursor currentCursor
                 then [("cursorMoved",
                        JSON.Object [("path", JSON.Str (path cur));
                                     ("cursor", cursorToJson currentCursor)])]
                 else []
             | None => []
             end) ++
            (if negb (String.eqb lastSelectedText currentSelectedText)
             then [("selectionChanged",
                    JSON.Object [("path", JSON.Str (path cur));
                                 ("selectedText", JSON.Str currentSelectedText)])]
             else [])
      end
  | None =>
      match lastActiveFile with
      | Some lst =>
          [("activeFileChanged",
            JSON.Object [("path", JSON.Null); ("previousPath", JSON.Str (path lst))])]
      | None => []
      end
  end.

Definition jsonFence : string := "```json".
Definition closingFence : string := "```".

Definition fullContextHeader : string :=
  "Here is the user's editor context as a JSON object. This is for your information only.".

Definition deltaContextHeader : string :=
  "Here is a summary of changes in the user's editor context, in JSON format. This is for your information only.".

Record IdeContextParts : Type := mkIdeContextParts {
  contextParts : list string;
  newIdeContext : option IdeContext
}.

(** [getIdeContextParts(forceFullContext)], given what
    [ideContextStore.get()] returns and [this.lastSentIdeContext].  The
    full branch is taken when [forceFullContext || !this.lastSentIdeContext].
    The debug-mode [console.log] is left out. *)
Definition getIdeContextParts
    (currentIdeContext lastSentIdeContext : option IdeContext)
    (forceFullContext : bool) : IdeContextParts :=
  match currentIdeContext with
  | None => mkIdeContextParts [] None
  | Some current =>
      match (if forceFullContext then None else lastSentIdeContext) with
      | None =>
          let contextData := ideContextData current in
          if (List.length contextData =? 0)%nat then
            mkIdeContextParts [] (Some current)
          else
            let jsonString := JSON.stringifyPretty (JSON.Object contextData) in
            mkIdeContextParts
              [fullContextHeader; jsonFence; jsonString; closingFence]
              (Some current)
      | Some lastSent =>
          let changes := ideContextChanges lastSent current in
          if (List.length changes =? 0)%nat then
            mkIdeContextParts [] (Some current)
          else
            let delta := JSON.Object [("changes", JSON.Object changes)] in
            let jsonString := JSON.stringifyPretty delta in
            mkIdeContextParts
              [deltaContextHeader; jsonFence; jsonString; closingFence]
              (Some current)
      end
  end.

(** ** Requests ([PartListUnion]) *)

Inductive PartUnion : Type :=
| PartString (s : string)
| PartObject (p : Part).

Inductive PartListUnion : Type :=
| RequestString (s : string)
| RequestPart (p : Part)
| RequestList (l : list PartUnion).

Definition partUnionToJson (p : PartUnion) : JSON.value :=
  match p with
  | PartString s => JSON.Str s
  | PartObject o => partToJson o
  end.

Definition requestToJson (request : PartListUnion) : JSON.value :=
  match request with
  | RequestString s => JSON.Str s
  | RequestPart p => partToJson p
  | RequestList l => JSON.Array (map partUnionToJson l)
  end.

(** ** Events, compression results, turns *)

(** Modelled from the spec: [CompressionStatus] and [ChatCompressionInfo]
    of core/turn.ts, which is not among the sources; the three statuses
    [tryCompressChat] returns. *)
Inductive CompressionStatus : Type :=
| COMPRESSED
| COMPRESSION_FAILED_INFLATED_TOKEN_COUNT
| NOOP.

Record ChatCompressionInfo : Type := mkChatCompressionInfo {
  originalTokenCount : Z;
  newTokenCount : Z;
  compressionStatus : CompressionStatus
}.

(** Modelled from the spec: the events of core/turn.ts, which is not
    among the sources.  A turn produces [TurnEvent]s; only [InvalidStream]
    and [Error] are inspected by the client, every other kind (content,
    tool-call request, finish reason, ...) is forwarded as it is. *)
Inductive TurnEvent : Type :=
| InvalidStream
| Error (message : string)
| Forwarded (kind : string) (value : JSON.value).

(** The events [sendMessageStream] yields: the four kinds it emits
    itself, and the events of the turn. *)
Inductive ServerGeminiStreamEvent : Type :=
| MaxSessionTurns
| ContextWindowWillOverflow (estimatedRequestTokenCount remainingTokenCount : Z)
| ChatCompressed (value : ChatCompressionInfo)
| LoopDetected
| FromTurn (event : TurnEvent).

Record Turn : Type := mkTurn {
  pendingToolCalls : nat;
  finishReason : option string
}.

(** Modelled from the spec: what the client reads of a [Turn] of
    core/turn.ts, the number of pending tool calls and the finish reason;
    [newTurn] is [new Turn(chat, prompt_id)] before it has run. *)
Definition newTurn : Turn := mkTurn 0 None.

(** Modelled from the spec: [GeminiChat] of core/geminiChat.ts, which is
    not among the sources; the ordered history of content entries and the
    system instruction. *)
Record GeminiChat : Type := mkGeminiChat {
  chatHistory : list Content;
  systemInstruction : string
}.

(** ** The client and the log of its collaborator calls *)

Inductive Action : Type :=
| LoopDetectorReset (prompt_id : string)
| LoopDetectorTurnStarted
| LoopDetectorAddAndCheck (event : TurnEvent)
| RouterRoute (request : PartListUnion) (decision : string)
| TurnRun (model : string) (request : PartListUnion)
| ControllerAbort
| LogContentRetryFailure (attempts : Z) (errorType : string) (model : string)
| CheckNextSpeaker (prompt_id : string)
| LogNextSpeakerCheck (prompt_id : string) (finishReason nextSpeaker : string)
| GenerateContent (model : string) (contents : list Content) (prompt_id : string)
| LogChatCompression (tokensBefore tokensAfter : Z)
| ChatAddHistory (content : Content)
| ChatSetSystemInstruction (instruction : string).

(** The fields of [GeminiClient], the prompt token count kept by
    [uiTelemetryService], and the log (latest call first). *)
Record Client : Type := mkClient {
  chat : GeminiChat;
  sessionTurnCount : Z;
  lastPromptId : string;
  currentSequenceModel : option string;
  lastSentIdeContext : option IdeContext;
  forceFullIdeContext : bool;
  lastKnownChatUserMemory : option string;
  hasFailedCompressionAttempt : bool;
  lastPromptTokenCount : Z;
  trace : list Action
}.

Definition setChat (v : GeminiChat) (c : Client) : Client :=
  mkClient v (sessionTurnCount c) (lastPromptId c) (currentSequenceModel c)
    (lastSentIdeContext c) (forceFullIdeContext c) (lastKnownChatUserMemory c)
    (hasFailedCompressionAttempt c) (lastPromptTokenCount c) (trace c).

Definition setSessionTurnCount (v : Z) (c : Client) : Client :=
  mkClient (chat c) v (lastPromptId c) (currentSequenceModel c)
    (lastSentIdeContext c) (forceFullIdeContext c) (lastKnownChatUserMemory c)
    (hasFailedCompressionAttempt c) (lastPromptTokenCount c) (trace c).

Definition setLastPromptId (v : string) (c : Client) : Client :=
  mkClient (chat c) (sessionTurnCount c) v (currentSequenceModel c)
    (lastSentIdeContext c) (forceFullIdeContext c) (lastKnownChatUserMemory c)
    (hasFailedCompressionAttempt c) (lastPromptTokenCount c) (trace c).

Definition setCurrentSequenceModel (v : option string) (c : Client) : Client :=
  mkClient (chat c) (sessionTurnCount c) (lastPromptId c) v
    (lastSentIdeContext c) (forceFullIdeContext c) (lastKnownChatUserMemory c)
    (hasFailedCompressionAttempt c) (lastPromptTokenCount c) (trace c).

Definition setLastSentIdeContext (v : option IdeContext) (c : Client) : Client :=
  mkClient (chat c) (sessionTurnCount c) (lastPromptId c) (currentSequenceModel c)
    v (forceFullIdeContext c) (lastKnownChatUserMemory c)
    (hasFailedCompressionAttempt c) (lastPromptTokenCount c) (trace c).

Definition setForceFullIdeContext (v : bool) (c : Client) : Client :=
  mkClient (chat c) (sessionTurnCount c) (lastPromptId c) (currentSequenceModel c)
    (lastSentIdeContext c) v (lastKnownChatUserMemory c)
    (hasFailedCompressionAttempt c) (lastPromptTokenCount c) (trace c).

Definition setLastKnownChatUserMemory (v : option string) (c : Client) : Client :=
  mkClient (chat c) (sessionTurnCount c) (lastPromptId c) (currentSequenceModel c)
    (lastSentIdeContext c) (forceFullIdeContext c) v
    (hasFailedCompressionAttempt c) (lastPromptTokenCount c) (trace c).

Definition setHasFailedCompressionAttempt (v : bool) (c : Client) : Client :=
  mkClient (chat c) (sessionTurnCount c) (lastPromptId c) (currentSequenceModel c)
    (lastSentIdeContext c) (forceFullIdeContext c) (lastKnownChatUserMemory c)
    v (lastPromptTokenCount c) (trace c).

Definition setLastPromptTokenCount (v : Z) (c : Client) : Client :=
  mkClient (chat c) (sessionTurnCount c) (lastPromptId c) (currentSequenceModel c)
    (lastSentIdeContext c) (forceFullIdeContext c) (lastKnownChatUserMemory c)
    (hasFailedCompressionAttempt c) v (trace c).

(** Records one collaborator call. *)
Definition log (a : Action) (c : Client) : Client :=
  mkClient (chat c) (sessionTurnCount c) (lastPromptId c) (currentSequenceModel c)
    (lastSentIdeContext c) (forceFullIdeContext c) (lastKnownChatUserMemory c)
    (hasFailedCompressionAttempt c) (lastPromptTokenCount c) (a :: trace c).

(** What [turn.run(model, request, signal)] does, as the client sees it:
    the events of the stream in order, and the chat, the prompt token
    count and the turn after the stream was advanced [k] times (advancing
    it once more than it has events completes it). *)
Record TurnScript : Type := mkTurnScript {
  events : list TurnEvent;
  chatAfter : nat -> GeminiChat;
  promptTokenCountAfter : nat -> Z;
  turnAfter : nat -> Turn
}.

(** [signal.aborted], read when the client asks. *)
Definition AbortSignal : Type := Client -> bool.

(** The collaborators of the client. *)
Record Env : Type := mkEnv {
  (* config *)
  getMaxSessionTurns : Z;
  getModel : Client -> string;
  isInFallbackMode : Client -> bool;
  getUserMemory : Client -> string;
  getIdeMode : bool;
  getContinueOnFailedApiCall : bool;
  getQuotaErrorOccurred : Client -> bool;
  getSkipNextSpeakerCheck : bool;
  contextPercentageThreshold : option Q;
  (* config/models, core/tokenLimits, core/prompts, utils/environmentContext *)
  DEFAULT_GEMINI_MODEL_AUTO : string;
  DEFAULT_GEMINI_MODEL : string;
  getEffectiveModel : bool -> string -> string;
  tokenLimit : string -> Z;
  getCoreSystemPrompt : string -> string;
  getEnvironmentContext : Client -> list Part;
  (* GeminiChat.getHistory(true) *)
  curated : list Content -> list Content;
  (* ideContextStore.get() *)
  ideContextStoreGet : Client -> option IdeContext;
  (* loopDetector.turnStarted, loopDetector.addAndCheck *)
  turnStarted : Client -> bool;
  addAndCheck : Client -> TurnEvent -> bool;
  (* router.route(routingContext).model *)
  route : Client -> list Content -> PartListUnion -> string;
  (* turn.run *)
  turnRun : Client -> string -> PartListUnion -> TurnScript;
  (* checkNextSpeaker(...)?.next_speaker *)
  checkNextSpeaker : Client -> string -> option string;
  (* getResponseText(await contentGenerator.generateContent(...)) *)
  generateSummary : Client -> string -> list Content -> string -> option string
}.

(** ** [startChat], [tryCompressChat] *)

Section ClientOperations.

Variable env : Env.

(** [_getEffectiveModelForCurrentTurn()].  The test
    [if (this.currentSequenceModel)] on a [string | null] fails for
    [null] and for the empty string. *)
Definition getEffectiveModelForCurrentTurn (st : Client) : string :=
  match nonEmpty (currentSequenceModel st) with
  | Some sequenceModel => sequenceModel
  | None =>
      let configModel := getModel env st in
      let model :=
        if String.eqb configModel (DEFAULT_GEMINI_MODEL_AUTO env)
        then DEFAULT_GEMINI_MODEL env
        else configModel in
      getEffectiveModel env (isInFallbackMode env st) model
  end.

Definition setupReminder : string :=
  "Reminder: Do not return an empty response when a tool call is required.".

Definition setupComplete : string :=
  "My setup is complete. I will provide my first command in the next turn.".

(** [startChat(extraHistory)]: the fields it assigns, and the chat it
    returns (the caller decides whether the chat goes live). *)
Definition startChat (st : Client) (extraHistory : list Content)
  : Client * GeminiChat :=
  let st := setForceFullIdeContext true st in
  let st := setHasFailedCompressionAttempt false st in
  let envParts := getEnvironmentContext env st in
  let envContextString :=
    join (newline ++ newline) (map (fun part => orEmpty (text part)) envParts) in
  let allSetupText :=
    trim (newline ++ envContextString ++ newline ++ newline ++
          setupReminder ++ newline ++ newline ++
          setupComplete ++ newline ++ "    ")%string in
  let history := userContent [textPart allSetupText] :: extraHistory in
  let userMemory := getUserMemory env st in
  let st := setLastKnownChatUserMemory (Some userMemory) st in
  let systemInstruction := getCoreSystemPrompt env userMemory in
  (st, mkGeminiChat history systemInstruction).

Definition Qlt_bool (a b : Q) : bool := negb (Qle_bool b a).

Definition summaryRequest : Content :=
  userContent
    [textPart "First, reason in your scratchpad. Then, generate the <state_snapshot>."].

Definition summaryAcknowledgement : Content :=
  modelContent [textPart "Got it. Thanks for the additional context!"].

(** [Math.floor(history.reduce((total, content) =>
      total + JSON.stringify(content).length, 0) / 4)] *)
Definition estimateTokenCount (history : list Content) : Z :=
  Z.of_nat (fold_left (fun total content => (total + jsonLength content)%nat)
              history 0%nat) / 4.

(** [tryCompressChat(prompt_id, force)] *)
Definition tryCompressChat (st : Client) (prompt_id : string) (force : bool)
  : result (Client * ChatCompressionInfo) :=
  let model := getEffectiveModelForCurrentTurn st in
  let curatedHistory := curated env (chatHistory (chat st)) in
  if (List.length curatedHistory =? 0)%nat ||
     (hasFailedCompressionAttempt st && negb force)
  then Ok (st, mkChatCompressionInfo 0 0 NOOP)
  else
    let originalTokenCount := lastPromptTokenCount st in
    let threshold :=
      match contextPercentageThreshold env with
      | Some t => t
      | None => COMPRESSION_TOKEN_THRESHOLD
      end in
    if negb force &&
       Qlt_bool (inject_Z originalTokenCount)
         (roundToDouble (threshold * inject_Z (tokenLimit env model)))
    then Ok (st, mkChatCompressionInfo originalTokenCount originalTokenCount NOOP)
    else
      match findCompressSplitPoint curatedHistory
              (roundToDouble (1 - COMPRESSION_PRESERVE_THRESHOLD)) with
      | Throw message => Throw message
      | Ok splitPoint =>
          let historyToCompress := firstn splitPoint curatedHistory in
          let historyToKeep := skipn splitPoint curatedHistory in
          if (List.length historyToCompress =? 0)%nat then
            Ok (st, mkChatCompressionInfo originalTokenCount originalTokenCount NOOP)
          else
            let contents := historyToCompress ++ [summaryRequest] in
            let summaryResponse := generateSummary env st model contents prompt_id in
            let st := log (GenerateContent model contents prompt_id) st in
            let summary := orEmpty summaryResponse in
            let '(st, newChat) :=
              startChat st
                (userContent [textPart summary] :: summaryAcknowledgement ::
                 historyToKeep) in
            let st := setForceFullIdeContext true st in
            let newTokenCount := estimateTokenCount (chatHistory newChat) in
            let st := log (LogChatCompression originalTokenCount newTokenCount) st in
            if newTokenCount >? originalTokenCount then
              let st := setHasFailedCompressionAttempt (negb force && true) st in
              Ok (st, mkChatCompressionInfo originalTokenCount newTokenCount
                        COMPRESSION_FAILED_INFLATED_TOKEN_COUNT)
            else
              let st := setChat newChat st in
              let st := setLastPromptTokenCount newTokenCount st in
              Ok (st, mkChatCompressionInfo originalTokenCount newTokenCount
                        COMPRESSED)
      end.

(** ** [sendMessageStream] *)

(** How one invocation ends: it returns its turn, or it first delegates
    to a recursive invocation ([yield* this.sendMessageStream(...)])
    and then returns its turn, or an exception escapes. *)
Inductive Outcome : Type :=
| Return (turn : Turn)
| Delegate (nextRequest : PartListUnion) (turns : Z)
    (isInvalidStreamRetry : bool) (turn : Turn)
| Thrown (message : string).

(** One invocation up to its recursive call: the events it yields
    itself, the client it leaves, and how it ends. *)
Record Invocation : Type := mkInvocation {
  yielded : list ServerGeminiStreamEvent;
  after : Client;
  outcome : Outcome
}.

(** Lines 496-501: a new prompt id resets the loop detector and the
    sticky model; the session turn counter is incremented. *)
Definition beginInvocation (st : Client) (prompt_id : string) : Client :=
  let st :=
    if negb (String.eqb (lastPromptId st) prompt_id) then
      let st := log (LoopDetectorReset prompt_id) st in
      let st := setLastPromptId prompt_id st in
      setCurrentSequenceModel None st
    else st in
  setSessionTurnCount (sessionTurnCount st + 1) st.

Definition sessionTurnsExceeded (st : Client) : bool :=
  (getMaxSessionTurns env >? 0) && (sessionTurnCount st >? getMaxSessionTurns env).

(** [Math.floor(JSON.stringify(request).length / 4)] *)
Definition estimateRequestTokenCount (request : PartListUnion) : Z :=
  Z.of_nat (String.length (JSON.stringify (requestToJson request))) / 4.

Definition remainingTokens (st : Client) : Z :=
  tokenLimit env (getEffectiveModelForCurrentTurn st) - lastPromptTokenCount st.

(** [estimatedRequestTokenCount > remainingTokenCount * 0.95] *)
Definition contextWindowWillOverflow
    (estimatedRequestTokenCount remainingTokenCount : Z) : bool :=
  Qlt_bool (inject_Z remainingTokenCount * (95 # 100))
    (inject_Z estimatedRequestTokenCount).

(** Lines 551-556. *)
Definition refreshSystemInstruction (st : Client) : Client :=
  let userMemory := getUserMemory env st in
  if negb (match lastKnownChatUserMemory st with
           | Some known => String.eqb userMemory known
           | None => false
           end)
  then
    let st := setLastKnownChatUserMemory (Some userMemory) st in
    let instruction := getCoreSystemPrompt env userMemory in
    let st := log (ChatSetSystemInstruction instruction) st in
    setChat (mkGeminiChat (chatHistory (chat st)) instruction) st
  else st.

(** [hasPendingToolCall] of lines 558-564. *)
Definition hasPendingToolCall (history : list Content) : bool :=
  let lastMessage :=
    if (0 <? List.length history)%nat
    then nth_error history (List.length history - 1)
    else None in
  match lastMessage with
  | Some message =>
      roleIs message "model" &&
      match optSome (parts message) (fun p => present (functionCall p)) with
      | Some found => found
      | None => false
      end
  | None => false
  end.

(** Modelled from the spec: [chat.addHistory(content)] of
    core/geminiChat.ts appends the entry to the history. *)
Definition addHistory (content : Content) (st : Client) : Client :=
  let st := log (ChatAddHistory content) st in
  setChat (mkGeminiChat (chatHistory (chat st) ++ [content])
             (systemInstruction (chat st))) st.

(** Lines 558-578: the editor context is appended as a user entry
    unless a tool call is waiting for its response. *)
Definition injectIdeContext (st : Client) : Client :=
  let history := chatHistory (chat st) in
  if getIdeMode env && negb (hasPendingToolCall history) then
    let result :=
      getIdeContextParts (ideContextStoreGet env st) (lastSentIdeContext st)
        (forceFullIdeContext st || (List.length history =? 0)%nat) in
    let st :=
      if (0 <? List.length (contextParts result))%nat then
        addHistory (userContent [textPart (join newline (contextParts result))]) st
      else st in
    let st := setLastSentIdeContext (newIdeContext result) st in
    setForceFullIdeContext false st
  else st.

(** Lines 597-608: the sticky model, or a routing decision that becomes
    the sticky model. *)
Definition selectModel (st : Client) (request : PartListUnion) : Client * string :=
  match nonEmpty (currentSequenceModel st) with
  | Some sequenceModel => (st, sequenceModel)
  | None =>
      let history := curated env (chatHistory (chat st)) in
      let decision := route env st history request in
      let st := log (RouterRoute request decision) st in
      (setCurrentSequenceModel (Some decision) st, decision)
  end.

(** The state of the client once the stream of the turn was advanced
    [k] times. *)
Definition advance (script : TurnScript) (k : nat) (st : Client) : Client :=
  setLastPromptTokenCount (promptTokenCountAfter script k)
    (setChat (chatAfter script k) st).

Inductive StreamEnd : Type :=
| LoopFound
| RetryExhausted
| Retry
| Errored
| Exhausted.

Record StreamResult : Type := mkStreamResult {
  streamed : list ServerGeminiStreamEvent;
  streamClient : Client;
  streamEnd : StreamEnd;
  streamTurn : Turn
}.

(** Lines 611-646: the [for await] loop over the events of the turn,
    with [pending] the events not yet produced and [pulled] the number
    of events produced so far. *)
Fixpoint consumeStream (script : TurnScript) (modelToUse : string)
    (isInvalidStreamRetry : bool) (pending : list TurnEvent) (pulled : nat)
    (st : Client) : StreamResult :=
  match pending with
  | [] =>
      mkStreamResult [] (advance script (S pulled) st) Exhausted
        (turnAfter script (S pulled))
  | event :: rest =>
      let st := advance script (S pulled) st in
      let turn := turnAfter script (S pulled) in
      let loopDetected := addAndCheck env st event in
      let st := log (LoopDetectorAddAndCheck event) st in
      if loopDetected then
        mkStreamResult [LoopDetected] (log ControllerAbort st) LoopFound turn
      else
        let continue :=
          let r := consumeStream script modelToUse isInvalidStreamRetry rest
                     (S pulled) st in
          mkStreamResult (FromTurn event :: streamed r) (streamClient r)
            (streamEnd r) (streamTurn r) in
        match event with
        | InvalidStream =>
            if getContinueOnFailedApiCall env then
              if isInvalidStreamRetry then
                let st :=
                  log (LogContentRetryFailure 4 "FAILED_AFTER_PROMPT_INJECTION"
                         modelToUse) st in
                mkStreamResult [FromTurn event] st RetryExhausted turn
              else
                mkStreamResult [FromTurn event] st Retry turn
            else continue
        | Error _ => mkStreamResult [FromTurn event] st Errored turn
        | Forwarded _ _ => continue
        end
  end.

Definition retryRequest : PartListUnion :=
  RequestList [PartObject (textPart "System: Please continue.")].

Definition continueRequest : PartListUnion :=
  RequestList [PartObject (textPart "Please continue.")].

(** Lines 647-684: after the stream has ended, the next-speaker check
    decides whether the model continues. *)
Definition afterStream (st : Client) (signal : AbortSignal) (prompt_id : string)
    (boundedTurns : Z) (turn : Turn) : Client * Outcome :=
  if (pendingToolCalls turn =? 0)%nat && negb (signal st) then
    if getQuotaErrorOccurred env st then (st, Return turn)
    else if getSkipNextSpeakerCheck env then (st, Return turn)
    else
      let nextSpeakerCheck := checkNextSpeaker env st prompt_id in
      let st := log (CheckNextSpeaker prompt_id) st in
      let st :=
        log (LogNextSpeakerCheck prompt_id (orEmpty (finishReason turn))
               (orEmpty nextSpeakerCheck)) st in
      if match nextSpeakerCheck with
         | Some speaker => String.eqb speaker "model"
         | None => false
         end
      then (st, Delegate continueRequest (boundedTurns - 1) false turn)
      else (st, Return turn)
  else (st, Return turn).

(** Lines 580-646: the loop detector is asked, the model is selected,
    the turn is run and its stream consumed. *)
Definition runTurn (st : Client) (request : PartListUnion) (signal : AbortSignal)
    (prompt_id : string) (boundedTurns : Z) (isInvalidStreamRetry : bool)
    (before : list ServerGeminiStreamEvent) : Invocation :=
  let loopDetected := turnStarted env st in
  let st := log LoopDetectorTurnStarted st in
  if loopDetected then
    mkInvocation (before ++ [LoopDetected]) st (Return newTurn)
  else
    let '(st, modelToUse) := selectModel st request in
    let script := turnRun env st modelToUse request in
    let st := log (TurnRun modelToUse request) st in
    let r := consumeStream script modelToUse isInvalidStreamRetry
               (events script) 0 st in
    let st := streamClient r in
    let turn := streamTurn r in
    match streamEnd r with
    | LoopFound | RetryExhausted | Errored =>
        mkInvocation (before ++ streamed r) st (Return turn)
    | Retry =>
        mkInvocation (before ++ streamed r) st
          (Delegate retryRequest (boundedTurns - 1) true turn)
    | Exhausted =>
        let '(st, result) := afterStream st signal prompt_id boundedTurns turn in
        mkInvocation (before ++ streamed r) st result
    end.

(** The body of [sendMessageStream], up to its recursive call. *)
Definition sendMessageStreamInvocation (st : Client) (request : PartListUnion)
    (signal : AbortSignal) (prompt_id : string) (turns : Z)
    (isInvalidStreamRetry : bool) : Invocation :=
  let st := beginInvocation st prompt_id in
  if sessionTurnsExceeded st then
    mkInvocation [MaxSessionTurns] st (Return newTurn)
  else
    let boundedTurns := Z.min turns MAX_TURNS in
    if boundedTurns =? 0 then mkInvocation [] st (Return newTurn)
    else
      let estimatedRequestTokenCount := estimateRequestTokenCount request in
      let remainingTokenCount := remainingTokens st in
      if contextWindowWillOverflow estimatedRequestTokenCount remainingTokenCount
      then
        mkInvocation
          [ContextWindowWillOverflow estimatedRequestTokenCount remainingTokenCount]
          st (Return newTurn)
      else
        match tryCompressChat st prompt_id false with
        | Throw message => mkInvocation [] st (Thrown message)
        | Ok (st, compressed) =>
            let before :=
              match compressionStatus compressed with
              | COMPRESSED => [ChatCompressed compressed]
              | _ => []
              end in
            let st := refreshSystemInstruction st in
            let st := injectIdeContext st in
            runTurn st request signal prompt_id boundedTurns
              isInvalidStreamRetry before
        end.

(** How a whole call ends. *)
Inductive Completion : Type :=
| Done (turn : Turn)
| Failed (message : string)
| OutOfFuel.

Record Run : Type := mkRun {
  emitted : list ServerGeminiStreamEvent;
  final : Client;
  completion : Completion
}.

(** [sendMessageStream(request, signal, prompt_id, turns,
    isInvalidStreamRetry)]: the invocation and, through [Delegate], the
    recursive invocations, at most [fuel] of them.  The events are the
    events of the invocations in order; the turn returned is the turn of
    the first invocation. *)
Fixpoint sendMessageStream (fuel : nat) (st : Client) (request : PartListUnion)
    (signal : AbortSignal) (prompt_id : string) (turns : Z)
    (isInvalidStreamRetry : bool) : Run :=
  match fuel with
  | O => mkRun [] st OutOfFuel
  | S fuel' =>
      let inv := sendMessageStreamInvocation st request signal prompt_id turns
                   isInvalidStreamRetry in
      match outcome inv with
      | Return turn => mkRun (yielded inv) (after inv) (Done turn)
      | Thrown message => mkRun (yielded inv) (after inv) (Failed message)
      | Delegate nextRequest turns' retry turn =>
          let rest := sendMessageStream fuel' (after inv) nextRequest signal
                        prompt_id turns' retry in
          mkRun (yielded inv ++ emitted rest) (final rest)
            match completion rest with
            | Done _ => Done turn
            | other => other
            end
      end
  end.

End ClientOperations.
(** * Rounding to the nearest double *)

Section Doubles.

Local Open Scope Q_scope.

Lemma roundHalfEven_floor (q : Q) :
  (roundHalfEven q = Qfloor q /\ q - inject_Z (Qfloor q) <= 1 # 2) \/
  (roundHalfEven q = (Qfloor q + 1)%Z /\ 1 # 2 <= q - inject_Z (Qfloor q)).
Proof.
  unfold roundHalfEven. cbv zeta.
  destruct (q - inject_Z (Qfloor q) ?= 1 # 2) eqn:E.
  - apply Qeq_alt in E. destruct (Z.even (Qfloor q)); [left|right];
      (split; [reflexivity|rewrite E; apply Qle_refl]).
  - apply Qlt_alt in E. left. split; [reflexivity|apply Qlt_le_weak; exact E].
  - apply Qgt_alt in E. right. split; [reflexivity|apply Qlt_le_weak; exact E].
Qed.

Lemma roundHalfEven_ge (k : Z) (q : Q) :
  inject_Z k <= q -> (k <= roundHalfEven q)%Z.
Proof.
  intros H. apply Qfloor_resp_le in H. rewrite Qfloor_Z in H.
  destruct (roundHalfEven_floor q) as [[-> _]|[-> _]]; lia.
Qed.

Lemma roundHalfEven_le (k : Z) (q : Q) :
  q <= inject_Z k -> (roundHalfEven q <= k)%Z.
Proof.
  intros H. pose proof (Qfloor_resp_le _ _ H) as Hf. rewrite Qfloor_Z in Hf.
  destruct (roundHalfEven_floor q) as [[-> _]|[-> Hhalf]]; [exact Hf|].
  destruct (Z.eq_dec (Qfloor q) k) as [E|E]; [|lia].
  rewrite E in Hhalf. lra.
Qed.

Lemma roundHalfEven_monotone (x y : Q) :
  x <= y -> (roundHalfEven x <= roundHalfEven y)%Z.
Proof.
  intros H. pose proof (Qfloor_resp_le _ _ H) as Hf.
  destruct (Z.eq_dec (Qfloor x) (Qfloor y)) as [E|E].
  - unfold roundHalfEven. cbv zeta. rewrite <- E.
    destruct (Qcompare_spec (x - inject_Z (Qfloor x)) (1 # 2));
      destruct (Qcompare_spec (y - inject_Z (Qfloor x)) (1 # 2));
      try (destruct (Z.even (Qfloor x))); try lia; lra.
  - destruct (roundHalfEven_floor x) as [[-> _]|[-> _]];
      destruct (roundHalfEven_floor y) as [[-> _]|[-> _]]; lia.
Qed.

Lemma roundHalfEven_comp (x y : Q) : x == y -> roundHalfEven x = roundHalfEven y.
Proof.
  intros H. apply Z.le_antisymm; apply roundHalfEven_monotone; rewrite H; apply Qle_refl.
Qed.

Lemma two_power_pos (e : Z) : 0 < 2 ^ e.
Proof. apply Qpower_0_lt. reflexivity. Qed.

Lemma two_power_succ (e : Z) : 2 ^ (e + 1) == 2 * 2 ^ e.
Proof. rewrite Qpower_plus by discriminate. change (2 ^ 1) with 2. ring. Qed.

Lemma two_power_monotone (a b : Z) : (a <= b)%Z -> 2 ^ a <= 2 ^ b.
Proof. intros H. apply Qpower_le_compat_l; [exact H|discriminate]. Qed.

Lemma two_power_Z (a : Z) : (0 <= a)%Z -> 2 ^ a == inject_Z (2 ^ a).
Proof. intros H. rewrite Zpower_Qpower by exact H. reflexivity. Qed.

(** [binade q] is the exponent of the power of two at or below [q]. *)
Lemma binade_spec (q : Q) :
  0 < q -> 2 ^ binade q <= q /\ q < 2 ^ (binade q + 1).
Proof.
  intros Hq.
  assert (Hn : (0 < Qnum q)%Z).
  { destruct q as [n d]. unfold Qlt in Hq. cbn in Hq |- *. lia. }
  set (a := Z.log2 (Qnum q)). set (b := Z.log2 (Zpos (Qden q))).
  assert (Ha : (0 <= a)%Z) by apply Z.log2_nonneg.
  assert (Hb : (0 <= b)%Z) by apply Z.log2_nonneg.
  destruct (Z.log2_spec (Qnum q) Hn) as [Ha1 Ha2]. fold a in Ha1, Ha2.
  destruct (Z.log2_spec (Zpos (Qden q)) eq_refl) as [Hb1 Hb2]. fold b in Hb1, Hb2.
  assert (Hlow : 2 ^ (a - b - 1) <= q /\ q < 2 ^ (a - b + 1)).
  { assert (E1 : 2 ^ (a - b - 1) == inject_Z (2 ^ a) / inject_Z (2 ^ (Z.succ b))).
    { replace (a - b - 1)%Z with (a - Z.succ b)%Z by lia.
      rewrite Qpower_minus by discriminate.
      rewrite !two_power_Z by lia. reflexivity. }
    assert (E2 : 2 ^ (a - b + 1) == inject_Z (2 ^ Z.succ a) / inject_Z (2 ^ b)).
    { replace (a - b + 1)%Z with (Z.succ a - b)%Z by lia.
      rewrite Qpower_minus by discriminate.
      rewrite !two_power_Z by lia. reflexivity. }
    assert (Hq' : q == inject_Z (Qnum q) / inject_Z (Zpos (Qden q)))
      by (destruct q; apply Qmake_Qdiv).
    assert (P1 : (0 < 2 ^ Z.succ b)%Z) by (apply Z.pow_pos_nonneg; lia).
    assert (P2 : (0 < 2 ^ b)%Z) by (apply Z.pow_pos_nonneg; lia).
    assert (P3 : (0 < 2 ^ a)%Z) by (apply Z.pow_pos_nonneg; lia).
    rewrite E1, E2. split.
    - apply Qle_trans with (inject_Z (Qnum q) / inject_Z (Zpos (Qden q)));
        [|rewrite <- Hq'; apply Qle_refl].
      apply Qle_shift_div_l; [rewrite <- (Zlt_Qlt 0); lia|].
      unfold Qdiv. rewrite <- Qmult_assoc, (Qmult_comm (/ _)), Qmult_assoc.
      apply Qle_shift_div_r; [rewrite <- (Zlt_Qlt 0); exact P1|].
      rewrite <- !inject_Z_mult, <- Zle_Qle. nia.
    - apply Qle_lt_trans with (inject_Z (Qnum q) / inject_Z (Zpos (Qden q)));
        [rewrite <- Hq'; apply Qle_refl|].
      apply Qlt_shift_div_r; [rewrite <- (Zlt_Qlt 0); lia|].
      unfold Qdiv. rewrite <- Qmult_assoc, (Qmult_comm (/ _)), Qmult_assoc.
      apply Qlt_shift_div_l; [rewrite <- (Zlt_Qlt 0); exact P2|].
      rewrite <- !inject_Z_mult, <- Zlt_Qlt. nia. }
  unfold binade. cbv zeta. fold a b.
  destruct (Qle_bool (2 ^ (a - b)) q) eqn:E.
  - apply Qle_bool_iff in E. tauto.
  - split; [tauto|]. replace (a - b - 1 + 1)%Z with (a - b)%Z by lia.
    apply Qnot_le_lt. intros H. apply Qle_bool_iff in H. congruence.
Qed.

Lemma binade_monotone (x y : Q) : 0 < x -> x <= y -> (binade x <= binade y)%Z.
Proof.
  intros Hx Hxy.
  destruct (binade_spec x Hx) as [Hx1 _].
  destruct (binade_spec y) as [_ Hy2]; [lra|].
  apply Z.lt_succ_r. apply Qpower_lt_compat_l_inv with (q := 2); [|reflexivity].
  unfold Z.succ. lra.
Qed.

(** The multiples of a power of two are multiples of the smaller powers. *)
Lemma multiple_of_smaller (p p' : Z) (k : Z) :
  (p <= p')%Z -> exists k', inject_Z k * 2 ^ p' == inject_Z k' * 2 ^ p.
Proof.
  intros H. exists (k * 2 ^ (p' - p))%Z.
  replace p' with ((p' - p) + p)%Z at 1 by lia.
  rewrite Qpower_plus by discriminate.
  rewrite inject_Z_mult, two_power_Z by lia. ring.
Qed.

(** Rounding to the multiples of [2 ^ p]. *)
Definition roundAt (p : Z) (q : Q) : Q := inject_Z (roundHalfEven (q / 2 ^ p)) * 2 ^ p.

Lemma roundAt_monotone (p : Z) (x y : Q) : x <= y -> roundAt p x <= roundAt p y.
Proof.
  intros H. unfold roundAt.
  apply Qmult_le_compat_r; [|apply Qlt_le_weak, two_power_pos].
  rewrite <- Zle_Qle. apply roundHalfEven_monotone.
  apply Qmult_le_compat_r; [exact H|].
  apply Qlt_le_weak, Qinv_lt_0_compat, two_power_pos.
Qed.

Lemma roundAt_le_multiple (p : Z) (k : Z) (x : Q) :
  x <= inject_Z k * 2 ^ p -> roundAt p x <= inject_Z k * 2 ^ p.
Proof.
  intros H. unfold roundAt.
  apply Qmult_le_compat_r; [|apply Qlt_le_weak, two_power_pos].
  rewrite <- Zle_Qle. apply roundHalfEven_le.
  apply Qle_shift_div_r; [apply two_power_pos|exact H].
Qed.

Lemma roundAt_ge_multiple (p : Z) (k : Z) (x : Q) :
  inject_Z k * 2 ^ p <= x -> inject_Z k * 2 ^ p <= roundAt p x.
Proof.
  intros H. unfold roundAt.
  apply Qmult_le_compat_r; [|apply Qlt_le_weak, two_power_pos].
  rewrite <- Zle_Qle. apply roundHalfEven_ge.
  apply Qle_shift_div_l; [apply two_power_pos|exact H].
Qed.

Lemma roundToDouble_positive (q : Q) :
  0 < q -> roundToDouble q = roundAt (Z.max (binade q - 52) (-1074)) q.
Proof.
  intros H. unfold roundToDouble.
  apply Qgt_alt in H. rewrite H. reflexivity.
Qed.

Lemma roundToDouble_zero (q : Q) : q == 0 -> roundToDouble q = 0.
Proof.
  intros H. unfold roundToDouble. apply Qeq_alt in H. rewrite H. reflexivity.
Qed.

Lemma roundToDouble_nonneg (q : Q) : 0 <= q -> 0 <= roundToDouble q.
Proof.
  intros H. destruct (Qeq_dec q 0) as [E|E].
  - rewrite roundToDouble_zero by exact E. apply Qle_refl.
  - assert (Hpos : 0 < q) by (apply Qle_lteq in H; destruct H as [H|H]; [exact H|symmetry in H; contradiction]).
    rewrite roundToDouble_positive by exact Hpos.
    pose proof (roundAt_ge_multiple (Z.max (binade q - 52) (-1074)) 0 q) as G.
    rewrite Qmult_0_l in G. apply G. exact H.
Qed.

(** Rounding to the nearest double is monotone. *)
Lemma roundToDouble_monotone (x y : Q) :
  0 <= x -> x <= y -> roundToDouble x <= roundToDouble y.
Proof.
  intros Hx Hxy. destruct (Qeq_dec x 0) as [E|E].
  - rewrite (roundToDouble_zero x) by exact E.
    apply roundToDouble_nonneg. lra.
  - assert (Hpos : 0 < x) by (apply Qle_lteq in Hx; destruct Hx as [H|H]; [exact H|symmetry in H; contradiction]).
    assert (Hposy : 0 < y) by lra.
    rewrite !roundToDouble_positive by assumption.
    pose proof (binade_monotone x y Hpos Hxy) as He.
    set (px := Z.max (binade x - 52) (-1074)).
    set (py := Z.max (binade y - 52) (-1074)).
    destruct (Z.eq_dec px py) as [Ep|Ep].
    + rewrite <- Ep. apply roundAt_monotone. exact Hxy.
    + assert (Hlt : (binade x < binade y)%Z) by lia.
      assert (Hpy : py = (binade y - 52)%Z) by lia.
      assert (Hpxy : (px <= py)%Z) by lia.
      destruct (binade_spec x Hpos) as [_ Hx2].
      destruct (binade_spec y Hposy) as [Hy1 _].
      assert (Hg : 2 ^ binade y == inject_Z (2 ^ 52) * 2 ^ py).
      { rewrite Hpy. rewrite <- two_power_Z by lia.
        rewrite <- Qpower_plus by discriminate. 
        replace (52 + (binade y - 52))%Z with (binade y) by lia. reflexivity. }
      destruct (multiple_of_smaller px py (2 ^ 52) Hpxy) as (k' & Hk').
      apply Qle_trans with (2 ^ binade y).
      * rewrite Hg, Hk'. apply roundAt_le_multiple. rewrite <- Hk', <- Hg.
        apply Qle_trans with (2 ^ (binade x + 1)); [lra|].
        apply two_power_monotone. lia.
      * rewrite Hg. apply roundAt_ge_multiple. rewrite <- Hg. exact Hy1.
Qed.

End Doubles.


(** * Properties of [findCompressSplitPoint] *)

Section SplitPoint.

Local Open Scope nat_scope.

(** The entry has role "user" and none of its parts is a function
    response. *)
Definition UserWithoutResponse (c : Content) : Prop :=
  role c = Some "user" /\
  forall ps p, parts c = Some ps -> In p ps -> functionResponse p = None.

Lemma existsb_present_false {A B : Type} (f : A -> option B) (l : list A) :
  existsb (fun x => present (f x)) l = false <-> forall x, In x l -> f x = None.
Proof.
  induction l as [|a l IH]; simpl.
  - split; [intros _ x []|reflexivity].
  - rewrite orb_false_iff, IH. split.
    + intros [Ha Hl] x [<-|Hx]; [|auto].
      destruct (f a); [discriminate|reflexivity].
    + intros H. split.
      * rewrite (H a); auto.
      * intros x Hx. apply H. auto.
Qed.

Lemma roleIs_iff (c : Content) (r : string) :
  roleIs c r = true <-> role c = Some r.
Proof.
  unfold roleIs. destruct (role c) as [s|].
  - rewrite String.eqb_eq. split; congruence.
  - split; discriminate.
Qed.

Lemma isSplitCandidate_iff (c : Content) :
  isSplitCandidate c = true <-> UserWithoutResponse c.
Proof.
  unfold isSplitCandidate, UserWithoutResponse.
  rewrite andb_true_iff, negb_true_iff, roleIs_iff.
  destruct (parts c) as [ps|]; simpl.
  - rewrite existsb_present_false. split.
    + intros [Hr Hp]. split; [exact Hr|].
      intros ps' p [= <-]. apply Hp.
    + intros [Hr Hp]. split; [exact Hr|]. intros p. apply (Hp ps); reflexivity.
  - split.
    + intros [Hr _]. split; [exact Hr|]. discriminate.
    + intros [Hr _]. auto.
Qed.

(** The summed weight of the entries before index [i]. *)
Definition weightBefore (contents : list Content) (i : nat) : nat :=
  list_sum (map jsonLength (firstn i contents)).

Definition totalWeight (contents : list Content) : nat :=
  list_sum (map jsonLength contents).

(** Entry [k] is a user entry without function response and the weight
    before it has reached [target]. *)
Definition Qualifies (contents : list Content) (target : Q) (k : nat) : Prop :=
  exists c, nth_error contents k = Some c /\
            UserWithoutResponse c /\
            (target <= inject_Z (Z.of_nat (weightBefore contents k)))%Q.

Definition CandidateAt (contents : list Content) (k : nat) : Prop :=
  exists c, nth_error contents k = Some c /\ UserWithoutResponse c.

(** [k] is the last user entry without function response from index
    [from] on, or [default] when there is none. *)
Definition LastCandidateFrom (contents : list Content) (from default k : nat)
  : Prop :=
  (k = default /\ forall j, from <= j -> ~ CandidateAt contents j) \/
  (from <= k /\ CandidateAt contents k /\
   forall j, k < j -> ~ CandidateAt contents j).

Lemma fold_left_add_list_sum (l : list nat) (a : nat) :
  fold_left Nat.add l a = a + list_sum l.
Proof.
  revert a; induction l as [|x l IH]; intros a; simpl.
  - lia.
  - rewrite IH. lia.
Qed.

Lemma firstn_prefix (pre rest : list Content) :
  firstn (List.length pre) (pre ++ rest) = pre.
Proof.
  induction pre as [|x pre IH]; simpl.
  - reflexivity.
  - rewrite IH. reflexivity.
Qed.

Lemma firstn_prefix_next (pre : list Content) (c : Content) (rest : list Content) :
  firstn (S (List.length pre)) (pre ++ c :: rest) = pre ++ [c].
Proof.
  induction pre as [|x pre IH].
  - reflexivity.
  - cbn [List.length app]. rewrite firstn_cons, IH. reflexivity.
Qed.

Lemma weightBefore_snoc (pre : list Content) (c : Content) (rest : list Content) :
  weightBefore (pre ++ c :: rest) (S (List.length pre)) =
  weightBefore (pre ++ c :: rest) (List.length pre) + jsonLength c.
Proof.
  unfold weightBefore.
  rewrite firstn_prefix_next, firstn_prefix, map_app, list_sum_app.
  cbn [map list_sum fold_right]. lia.
Qed.

Lemma nth_charCounts (pre : list Content) (c : Content) (rest : list Content) :
  nth (List.length pre) (map jsonLength (pre ++ c :: rest)) 0 = jsonLength c.
Proof.
  rewrite map_app, app_nth2; rewrite length_map; [|lia].
  rewrite Nat.sub_diag. reflexivity.
Qed.

Lemma nth_error_in_range {A : Type} (l : list A) (n : nat) (x : A) :
  nth_error l n = Some x -> n < List.length l.
Proof.
  intros H. apply nth_error_Some. congruence.
Qed.

Lemma nth_error_middle (pre : list Content) (c : Content) (rest : list Content) :
  nth_error (pre ++ c :: rest) (List.length pre) = Some c.
Proof.
  rewrite nth_error_app2 by lia. rewrite Nat.sub_diag. reflexivity.
Qed.

(** What the loop computes, entered at any index with the weight of the
    entries before it. *)
Lemma splitScan_spec (target : Q) (rest : list Content) :
  forall (pre : list Content) (last : nat),
    let contents := pre ++ rest in
    match splitScan (map jsonLength contents) target rest
            (List.length pre) last (weightBefore contents (List.length pre)) with
    | Returned k =>
        List.length pre <= k /\ Qualifies contents target k /\
        forall j, List.length pre <= j -> j < k -> ~ Qualifies contents target j
    | Completed l =>
        (forall j, List.length pre <= j -> ~ Qualifies contents target j) /\
        LastCandidateFrom contents (List.length pre) last l
    end.
Proof.
  induction rest as [|c rest IH]; intros pre last contents; simpl.
  - split.
    + intros j Hj (c & Hc & _).
      apply nth_error_in_range in Hc. unfold contents in Hc.
      rewrite app_nil_r in Hc. lia.
    + left. split; [reflexivity|].
      intros j Hj (c & Hc & _).
      apply nth_error_in_range in Hc. unfold contents in Hc.
      rewrite app_nil_r in Hc. lia.
  - subst contents.
    assert (Hstep : pre ++ c :: rest = (pre ++ [c]) ++ rest)
      by (rewrite <- app_assoc; reflexivity).
    assert (Hlen : List.length (pre ++ [c]) = S (List.length pre))
      by (rewrite length_app; simpl; lia).
    rewrite nth_charCounts, <- weightBefore_snoc.
    destruct (isSplitCandidate c) eqn:Hcand.
    + destruct (Qle_bool target _) eqn:Hle.
      * split; [lia|]. split; [|intros; lia].
        exists c. rewrite nth_error_middle.
        apply Qle_bool_iff in Hle. apply isSplitCandidate_iff in Hcand. auto.
      * specialize (IH (pre ++ [c]) (List.length pre)).
        rewrite Hlen, <- Hstep in IH. cbv zeta in IH.
        destruct (splitScan _ _ _ _ _ _) as [k|l].
        -- destruct IH as (Hk & Hq & Hmin).
           split; [lia|]. split; [exact Hq|].
           intros j Hj1 Hj2 Hqj.
           destruct (Nat.eq_dec j (List.length pre)) as [->|Hne].
           ++ destruct Hqj as (c' & Hc' & _ & Hw).
              apply Qle_bool_iff in Hw. congruence.
           ++ apply (Hmin j); [lia|lia|exact Hqj].
        -- destruct IH as (Hnone & Hlast).
           split.
           ++ intros j Hj Hqj.
              destruct (Nat.eq_dec j (List.length pre)) as [->|Hne].
              ** destruct Hqj as (c' & Hc' & _ & Hw).
                 apply Qle_bool_iff in Hw. congruence.
              ** apply (Hnone j); [lia|exact Hqj].
           ++ right. destruct Hlast as [[-> Hno]|(Hl & Hc & Hafter)].
              ** split; [lia|]. split.
                 --- exists c. rewrite nth_error_middle.
                     apply isSplitCandidate_iff in Hcand. auto.
                 --- intros j Hj. apply Hno. lia.
              ** split; [lia|]. auto.
    + specialize (IH (pre ++ [c]) last).
      rewrite Hlen, <- Hstep in IH. cbv zeta in IH.
      destruct (splitScan _ _ _ _ _ _) as [k|l].
      * destruct IH as (Hk & Hq & Hmin).
        split; [lia|]. split; [exact Hq|].
        intros j Hj1 Hj2 Hqj.
        destruct (Nat.eq_dec j (List.length pre)) as [->|Hne].
        -- destruct Hqj as (c' & Hc' & Hcand' & _).
           rewrite nth_error_middle in Hc'. injection Hc' as <-.
           apply isSplitCandidate_iff in Hcand'. congruence.
        -- apply (Hmin j); [lia|lia|exact Hqj].
      * destruct IH as (Hnone & Hlast).
        split.
        -- intros j Hj Hqj.
           destruct (Nat.eq_dec j (List.length pre)) as [->|Hne].
           ++ destruct Hqj as (c' & Hc' & Hcand' & _).
              rewrite nth_error_middle in Hc'. injection Hc' as <-.
              apply isSplitCandidate_iff in Hcand'. congruence.
           ++ apply (Hnone j); [lia|exact Hqj].
        -- destruct Hlast as [[-> Hno]|(Hl & Hc & Hafter)].
           ++ left. split; [reflexivity|].
              intros j Hj Hcj.
              destruct (Nat.eq_dec j (List.length pre)) as [->|Hne].
              ** destruct Hcj as (c' & Hc' & Hcand').
                 rewrite nth_error_middle in Hc'. injection Hc' as <-.
                 apply isSplitCandidate_iff in Hcand'. congruence.
              ** apply (Hno j); [lia|exact Hcj].
           ++ right. split; [lia|]. auto.
Qed.

Lemma findCompressSplitPoint_guard (fraction : Q) :
  Qle_bool fraction 0 || Qle_bool 1 fraction = true <->
  (fraction <= 0 \/ 1 <= fraction)%Q.
Proof.
  rewrite orb_true_iff, !Qle_bool_iff. reflexivity.
Qed.

Lemma findCompressSplitPoint_guard_false (fraction : Q) :
  (0 < fraction)%Q -> (fraction < 1)%Q ->
  Qle_bool fraction 0 || Qle_bool 1 fraction = false.
Proof.
  intros H0 H1.
  destruct (Qle_bool fraction 0 || Qle_bool 1 fraction) eqn:E; [|reflexivity].
  apply findCompressSplitPoint_guard in E.
  destruct E as [E|E]; [apply Qle_not_lt in E|apply Qle_not_lt in E]; contradiction.
Qed.

Lemma totalCharCount_totalWeight (contents : list Content) :
  fold_left Nat.add (map jsonLength contents) 0 = totalWeight contents.
Proof.
  rewrite fold_left_add_list_sum. reflexivity.
Qed.

(** The final entry is model-authored and none of its parts is a
    function call. *)
Definition FinalEntryIsPlainModel (contents : list Content) : Prop :=
  exists c, nth_error contents (List.length contents - 1) = Some c /\
            role c = Some "model" /\
            forall ps p, parts c = Some ps -> In p ps -> functionCall p = None.

Lemma safeToCompressAll_iff (contents : list Content) :
  safeToCompressAll (nth_error contents (List.length contents - 1)) = true <->
  FinalEntryIsPlainModel contents.
Proof.
  unfold safeToCompressAll, FinalEntryIsPlainModel.
  destruct (nth_error contents (List.length contents - 1)) as [c|].
  - rewrite andb_true_iff, negb_true_iff, roleIs_iff. split.
    + intros [Hr Hp]. exists c. split; [reflexivity|]. split; [exact Hr|].
      destruct (parts c) as [ps|]; simpl in Hp.
      * intros ps' p [= <-]. apply existsb_present_false. exact Hp.
      * discriminate.
    + intros (c' & [= <-] & Hr & Hp). split; [exact Hr|].
      destruct (parts c) as [ps|]; simpl; [|reflexivity].
      apply existsb_present_false. intros p. apply (Hp ps). reflexivity.
  - split; [discriminate|]. intros (c & Hc & _). discriminate.
Qed.

(** The three ways [findCompressSplitPoint] returns. *)
Lemma findCompressSplitPoint_cases (contents : list Content) (fraction : Q) :
  (0 < fraction)%Q -> (fraction < 1)%Q ->
  let target :=
    roundToDouble (inject_Z (Z.of_nat (totalWeight contents)) * fraction) in
  exists k, findCompressSplitPoint contents fraction = Ok k /\
    ((Qualifies contents target k /\
      forall j, j < k -> ~ Qualifies contents target j) \/
     ((forall j, ~ Qualifies contents target j) /\
      ((FinalEntryIsPlainModel contents /\ k = List.length contents) \/
       (~ FinalEntryIsPlainModel contents /\ LastCandidateFrom contents 0 0 k)))).
Proof.
  intros H0 H1 target. unfold findCompressSplitPoint.
  rewrite findCompressSplitPoint_guard_false by assumption.
  rewrite totalCharCount_totalWeight. fold target.
  pose proof (splitScan_spec target contents [] 0) as Hscan.
  cbn [app List.length] in Hscan. cbv zeta in Hscan.
  change (weightBefore contents 0) with 0 in Hscan.
  destruct (splitScan _ _ _ _ _ _) as [k|l].
  - destruct Hscan as (_ & Hq & Hmin).
    exists k. split; [reflexivity|]. left. split; [exact Hq|].
    intros j Hj. apply Hmin; lia.
  - destruct Hscan as (Hnone & Hlast).
    assert (Hnone' : forall j, ~ Qualifies contents target j)
      by (intros j; apply Hnone; lia).
    destruct (safeToCompressAll _) eqn:Hsafe.
    + exists (List.length contents). split; [reflexivity|]. right.
      split; [exact Hnone'|]. left. split; [|reflexivity].
      apply safeToCompressAll_iff. exact Hsafe.
    + exists l. split; [reflexivity|]. right.
      split; [exact Hnone'|]. right. split; [|exact Hlast].
      intros Hfinal. apply safeToCompressAll_iff in Hfinal. congruence.
Qed.

(** The index returned is 0, the length of the list, or the index of a
    user entry without function response. *)
Lemma findCompressSplitPoint_result (contents : list Content) (fraction : Q) (k : nat) :
  findCompressSplitPoint contents fraction = Ok k ->
  k = 0 \/ k = List.length contents \/ CandidateAt contents k.
Proof.
  intros Hk.
  destruct (Qle_bool fraction 0 || Qle_bool 1 fraction) eqn:Hguard.
  - unfold findCompressSplitPoint in Hk. rewrite Hguard in Hk. discriminate.
  - assert (H0 : (0 < fraction)%Q).
    { apply Qnot_le_lt. intros H.
      assert (Qle_bool fraction 0 || Qle_bool 1 fraction = true)
        by (apply findCompressSplitPoint_guard; auto).
      congruence. }
    assert (H1 : (fraction < 1)%Q).
    { apply Qnot_le_lt. intros H.
      assert (Qle_bool fraction 0 || Qle_bool 1 fraction = true)
        by (apply findCompressSplitPoint_guard; auto).
      congruence. }
    destruct (findCompressSplitPoint_cases contents fraction H0 H1)
      as (k' & Hk' & Hcases).
    rewrite Hk in Hk'. injection Hk' as <-.
    destruct Hcases as [[(c & Hc & Hcand & _) _]|[_ [[_ ->]|[_ Hlast]]]].
    + right; right. exists c. auto.
    + right; left. reflexivity.
    + destruct Hlast as [[-> _]|(_ & Hc & _)]; auto.
Qed.

(** C2: for a fraction strictly between 0 and 1, [findCompressSplitPoint]
    returns the first index whose entry is a user entry without function
    response and whose preceding weight is at least the fraction times
    the total weight; when no index qualifies it returns the length of
    the list if the final entry is model-authored without function call,
    and otherwise the last user entry without function response (0 when
    there is none).  The weight of an entry is the length of its
    JSON-serialized form, and the product is the double the program
    computes: the product of the total weight and the fraction, rounded
    to the nearest double. *)
Theorem findCompressSplitPoint_first_qualifying
    (contents : list Content) (fraction : Q) :
  (0 < fraction)%Q -> (fraction < 1)%Q ->
  let weight := fun c : Content =>
    String.length (JSON.stringify (contentToJson c)) in
  let preceding := fun i : nat => list_sum (map weight (firstn i contents)) in
  let target :=
    roundToDouble
      (inject_Z (Z.of_nat (list_sum (map weight contents))) * fraction) in
  let qualifies := fun i : nat =>
    exists c, nth_error contents i = Some c /\
              UserWithoutResponse c /\
              (target <= inject_Z (Z.of_nat (preceding i)))%Q in
  exists k, findCompressSplitPoint contents fraction = Ok k /\
    ((qualifies k /\ forall j, j < k -> ~ qualifies j) \/
     ((forall j, ~ qualifies j) /\
      ((FinalEntryIsPlainModel contents /\ k = List.length contents) \/
       (~ FinalEntryIsPlainModel contents /\ LastCandidateFrom contents 0 0 k)))).
Proof.
  exact (findCompressSplitPoint_cases contents fraction).
Qed.

(** C10: [findCompressSplitPoint] throws exactly when the fraction is at
    most 0 or at least 1; for a fraction strictly between 0 and 1 it
    returns an index between 0 and the length of the list. *)
Theorem findCompressSplitPoint_throws_iff (contents : list Content) (fraction : Q) :
  ((exists message, findCompressSplitPoint contents fraction = Throw message) <->
   (fraction <= 0 \/ 1 <= fraction)%Q) /\
  ((exists k, findCompressSplitPoint contents fraction = Ok k /\
              k <= List.length contents) <->
   (0 < fraction /\ fraction < 1)%Q).
Proof.
  split; split.
  - intros [message Hthrow].
    apply findCompressSplitPoint_guard.
    unfold findCompressSplitPoint in Hthrow.
    destruct (Qle_bool fraction 0 || Qle_bool 1 fraction); [reflexivity|].
    destruct (splitScan _ _ _ _ _ _); [discriminate|].
    destruct (safeToCompressAll _); discriminate.
  - intros Hout. apply findCompressSplitPoint_guard in Hout.
    unfold findCompressSplitPoint. rewrite Hout. eexists. reflexivity.
  - intros (k & Hk & _).
    destruct (Qle_bool fraction 0 || Qle_bool 1 fraction) eqn:Hguard.
    + unfold findCompressSplitPoint in Hk. rewrite Hguard in Hk. discriminate.
    + split; apply Qnot_le_lt; intros H;
        assert (Qle_bool fraction 0 || Qle_bool 1 fraction = true)
          by (apply findCompressSplitPoint_guard; auto);
        congruence.
  - intros [H0 H1].
    destruct (findCompressSplitPoint_cases contents fraction H0 H1)
      as (k & Hk & _).
    exists k. split; [exact Hk|].
    destruct (findCompressSplitPoint_result contents fraction k Hk)
      as [->|[->|(c & Hc & _)]].
    + lia.
    + lia.
    + apply nth_error_in_range in Hc. lia.
Qed.

End SplitPoint.

(** * Properties of [getIdeContextParts] *)

Section IdeContextDelta.

Lemma cursorDiffers_iff (lastCursor : option Cursor) (currentCursor : Cursor) :
  cursorDiffers lastCursor currentCursor = true <-> lastCursor <> Some currentCursor.
Proof.
  unfold cursorDiffers. destruct lastCursor as [[l c]|].
  - destruct currentCursor as [l' c']. cbn [line character].
    rewrite orb_true_iff, !negb_true_iff, !Z.eqb_neq. split.
    + intros [H|H] [= -> ->]; contradiction.
    + intros H. destruct (Z.eq_dec l l') as [->|Hl]; [|auto].
      destruct (Z.eq_dec c c') as [->|Hc]; [|auto].
      exfalso. apply H. reflexivity.
  - split; [discriminate|reflexivity].
Qed.

Lemma mapKeys_has (files : list File) :
  forall seen p, In p (mapKeys seen files) -> mapHas files p = true.
Proof.
  unfold mapHas.
  induction files as [|f rest IH]; intros seen p; cbn [mapKeys existsb].
  - intros [].
  - destruct (existsb (String.eqb (path f)) seen).
    + intros Hin. rewrite (IH _ _ Hin). apply orb_true_r.
    + intros [<-|Hin].
      * rewrite String.eqb_refl. reflexivity.
      * rewrite (IH _ _ Hin). apply orb_true_r.
Qed.

(** The paths of the map [b] that the map [a] lacks: none when [a] has
    every path [b] has. *)
Lemma no_new_keys (a b : list File) :
  (forall p, mapHas b p = true -> mapHas a p = true) ->
  filter (fun p => negb (mapHas a p)) (mapKeys [] b) = [].
Proof.
  intros Hsub.
  assert (H : forall l, (forall p, In p l -> mapHas a p = true) ->
                        filter (fun p => negb (mapHas a p)) l = []).
  { induction l as [|x l IHl]; intros Hl; cbn; [reflexivity|].
    rewrite (Hl x) by (left; reflexivity). cbn. apply IHl.
    intros p Hp. apply Hl. right. exact Hp. }
  apply H. intros p Hp. apply Hsub. eapply mapKeys_has. exact Hp.
Qed.

Definition cursorMovedChange (cur : File) (c : Cursor) : string * JSON.value :=
  ("cursorMoved",
   JSON.Object [("path", JSON.Str (path cur)); ("cursor", cursorToJson c)]).

Definition selectionChangedChange (cur : File) : string * JSON.value :=
  ("selectionChanged",
   JSON.Object [("path", JSON.Str (path cur));
                ("selectedText", JSON.Str (orEmpty (selectedText cur)))]).

(** The four strings of a delta payload. *)
Definition deltaParts (changes : list (string * JSON.value)) : list string :=
  [deltaContextHeader; jsonFence;
   JSON.stringifyPretty (JSON.Object [("changes", JSON.Object changes)]);
   closingFence].

Lemma getIdeContextParts_delta (lastSent current : IdeContext) :
  let changes := ideContextChanges lastSent current in
  getIdeContextParts (Some current) (Some lastSent) false =
  mkIdeContextParts (match changes with [] => [] | _ => deltaParts changes end)
    (Some current).
Proof.
  cbn [getIdeContextParts].
  destruct (ideContextChanges lastSent current); reflexivity.
Qed.

(** C9 (amended): in delta mode, with the path of the active file
    unchanged, the payload holds a cursor-moved change whenever the
    current snapshot has a cursor and the last one had none or another
    one, and a selection-changed change whenever the selected text (an
    absent selection counting as the empty text) differs; when the open
    paths, the cursor and the selected text are the same, nothing is
    emitted. *)
Theorem getIdeContextParts_delta_changes
    (lastSent current : IdeContext) (lst cur : File) :
  activeFileOf (openFilesOf lastSent) = Some lst ->
  activeFileOf (openFilesOf current) = Some cur ->
  path lst = path cur ->
  let result := getIdeContextParts (Some current) (Some lastSent) false in
  let changes := ideContextChanges lastSent current in
  (forall c, cursor cur = Some c -> cursor lst <> Some c ->
             In (cursorMovedChange cur c) changes /\
             contextParts result = deltaParts changes) /\
  (orEmpty (selectedText lst) <> orEmpty (selectedText cur) ->
   In (selectionChangedChange cur) changes /\
   contextParts result = deltaParts changes) /\
  ((forall p, mapHas (openFilesOf lastSent) p = mapHas (openFilesOf current) p) ->
   cursor lst = cursor cur ->
   orEmpty (selectedText lst) = orEmpty (selectedText cur) ->
   changes = [] /\ contextParts result = []).
Proof.
  intros Hlast Hcur Hpath result changes.
  assert (Hparts : forall x, In x changes -> contextParts result = deltaParts changes).
  { intros x Hx. unfold result. rewrite getIdeContextParts_delta. fold changes.
    destruct changes; [destruct Hx|reflexivity]. }
  assert (Hshape : exists opened closed,
    changes = opened ++ closed ++
      (match cursor cur with
       | Some c => if cursorDiffers (cursor lst) c
                   then [cursorMovedChange cur c] else []
       | None => []
       end) ++
      (if negb (String.eqb (orEmpty (selectedText lst)) (orEmpty (selectedText cur)))
       then [selectionChangedChange cur] else []) /\
    ((forall p, mapHas (openFilesOf lastSent) p = mapHas (openFilesOf current) p) ->
     opened = [] /\ closed = [])).
  { unfold changes, ideContextChanges. rewrite Hlast, Hcur.
    assert (Heq : String.eqb (path lst) (path cur) = true)
      by (apply String.eqb_eq; exact Hpath).
    rewrite Heq. cbn [negb].
    eexists. eexists. split; [reflexivity|].
    intros Hsame.
    rewrite (no_new_keys (openFilesOf lastSent) (openFilesOf current))
      by (intros p Hp; rewrite Hsame; exact Hp).
    rewrite (no_new_keys (openFilesOf current) (openFilesOf lastSent))
      by (intros p Hp; rewrite <- Hsame; exact Hp).
    split; reflexivity. }
  destruct Hshape as (opened & closed & Hchanges & Hsame).
  split; [|split].
  - intros c Hc Hdiff.
    assert (Hin : In (cursorMovedChange cur c) changes).
    { rewrite Hchanges, Hc.
      apply cursorDiffers_iff in Hdiff. rewrite Hdiff.
      apply in_or_app. right. apply in_or_app. right.
      apply in_or_app. left. left. reflexivity. }
    split; [exact Hin|]. eapply Hparts. exact Hin.
  - intros Hdiff.
    assert (Hin : In (selectionChangedChange cur) changes).
    { rewrite Hchanges.
      apply String.eqb_neq in Hdiff. rewrite Hdiff. cbn [negb].
      apply in_or_app. right. apply in_or_app. right.
      apply in_or_app. right. left. reflexivity. }
    split; [exact Hin|]. eapply Hparts. exact Hin.
  - intros Hopen Hcursor Hsel.
    destruct (Hsame Hopen) as [-> ->].
    assert (Hnil : changes = []).
    { rewrite Hchanges. rewrite Hsel, String.eqb_refl. cbn [negb app].
      destruct (cursor cur) as [c|] eqn:Hc; [|reflexivity].
      destruct (cursorDiffers (cursor lst) c) eqn:Hd; [|reflexivity].
      apply cursorDiffers_iff in Hd. congruence. }
    split; [exact Hnil|].
    unfold result. rewrite getIdeContextParts_delta. fold changes.
    rewrite Hnil. reflexivity.
Qed.

End IdeContextDelta.

(** * Properties of the client *)

(** ** What the log of collaborator calls contains *)

(** The routing decisions, the models of the turns run, the entries
    appended through [addHistory] and the retry failures logged, latest
    first. *)
Definition routed (tr : list Action) : list string :=
  flat_map (fun a => match a with RouterRoute _ d => [d] | _ => [] end) tr.

Definition modelsRun (tr : list Action) : list string :=
  flat_map (fun a => match a with TurnRun m _ => [m] | _ => [] end) tr.

Definition historyAdded (tr : list Action) : list Content :=
  flat_map (fun a => match a with ChatAddHistory c => [c] | _ => [] end) tr.

Definition retryFailures (tr : list Action) : list (Z * string * string) :=
  flat_map (fun a => match a with
                     | LogContentRetryFailure n e m => [(n, e, m)]
                     | _ => []
                     end) tr.

(** The number of router invocations and of model calls a client has
    made. *)
Definition routerCalls (st : Client) : nat := List.length (routed (trace st)).
Definition modelCalls (st : Client) : nat := List.length (modelsRun (trace st)).

(** Two clients that made the same router calls, model calls, history
    appends and retry-failure logs, and agree on the sequence fields. *)
Record SameCalls (st st' : Client) : Prop := mkSameCalls {
  same_routed : routed (trace st') = routed (trace st);
  same_modelsRun : modelsRun (trace st') = modelsRun (trace st);
  same_historyAdded : historyAdded (trace st') = historyAdded (trace st);
  same_retryFailures : retryFailures (trace st') = retryFailures (trace st);
  same_lastPromptId : lastPromptId st' = lastPromptId st;
  same_sequenceModel : currentSequenceModel st' = currentSequenceModel st;
  same_sessionTurnCount : sessionTurnCount st' = sessionTurnCount st
}.

Ltac same_calls := constructor; reflexivity.

(** Destructs the condition of the first conditional found in the goal. *)
Ltac case_cond :=
  match goal with
  | |- context [if ?c then _ else _] => destruct c eqn:?
  | |- context [match ?c with _ => _ end] => destruct c eqn:?
  end.

Section ClientFacts.

Variable env : Env.

Lemma preserve_fraction_in_range :
  Qle_bool (roundToDouble (1 - COMPRESSION_PRESERVE_THRESHOLD)) 0 ||
  Qle_bool 1 (roundToDouble (1 - COMPRESSION_PRESERVE_THRESHOLD)) = false.
Proof. vm_compute. reflexivity. Qed.

(** [tryCompressChat] never throws: the fraction it passes is 0.7. *)
Lemma tryCompressChat_returns (st : Client) (prompt_id : string) (force : bool) :
  exists st' info, tryCompressChat env st prompt_id force = Ok (st', info).
Proof.
  unfold tryCompressChat.
  destruct (_ || _); [eauto|].
  destruct (_ && _); [eauto|].
  unfold findCompressSplitPoint. rewrite preserve_fraction_in_range.
  cbv beta iota zeta delta [startChat].
  destruct (splitScan _ _ _ _ _ _).
  - destruct (_ =? _)%nat; [eauto|].
    destruct (_ >? _)%Z; eauto.
  - destruct (safeToCompressAll _).
    + destruct (_ =? _)%nat; [eauto|]. destruct (_ >? _)%Z; eauto.
    + destruct (_ =? _)%nat; [eauto|]. destruct (_ >? _)%Z; eauto.
Qed.

Lemma tryCompressChat_SameCalls (st : Client) (prompt_id : string) (force : bool)
    (st' : Client) (info : ChatCompressionInfo) :
  tryCompressChat env st prompt_id force = Ok (st', info) ->
  SameCalls st st'.
Proof.
  unfold tryCompressChat.
  destruct (_ || _); [intros [= <- <-]; same_calls|].
  destruct (_ && _); [intros [= <- <-]; same_calls|].
  destruct (findCompressSplitPoint _ _) as [splitPoint|]; [|discriminate].
  cbv beta iota zeta delta [startChat].
  destruct (_ =? _)%nat; [intros [= <- <-]; same_calls|].
  destruct (_ >? _)%Z; intros [= <- <-]; same_calls.
Qed.

Lemma tryCompressChat_NOOP_unchanged (st : Client) (prompt_id : string)
    (force : bool) (st' : Client) (info : ChatCompressionInfo) :
  tryCompressChat env st prompt_id force = Ok (st', info) ->
  compressionStatus info = NOOP -> st' = st.
Proof.
  unfold tryCompressChat.
  destruct (_ || _); [intros [= <- <-]; reflexivity|].
  destruct (_ && _); [intros [= <- <-]; reflexivity|].
  destruct (findCompressSplitPoint _ _) as [splitPoint|]; [|discriminate].
  cbv beta iota zeta delta [startChat].
  destruct (_ =? _)%nat; [intros [= <- <-]; reflexivity|].
  destruct (_ >? _)%Z; intros [= <- <-]; discriminate.
Qed.

Lemma beginInvocation_calls (st : Client) (prompt_id : string) :
  let st1 := beginInvocation st prompt_id in
  routed (trace st1) = routed (trace st) /\
  modelsRun (trace st1) = modelsRun (trace st) /\
  historyAdded (trace st1) = historyAdded (trace st) /\
  retryFailures (trace st1) = retryFailures (trace st) /\
  lastPromptId st1 = prompt_id /\
  chat st1 = chat st /\
  currentSequenceModel st1 =
    (if String.eqb (lastPromptId st) prompt_id then currentSequenceModel st
     else None).
Proof.
  unfold beginInvocation.
  destruct (String.eqb (lastPromptId st) prompt_id) eqn:E; simpl.
  - apply String.eqb_eq in E. repeat split; auto.
  - repeat split.
Qed.

Lemma refreshSystemInstruction_SameCalls (st : Client) :
  SameCalls st (refreshSystemInstruction env st).
Proof.
  unfold refreshSystemInstruction. case_cond; same_calls.
Qed.



Lemma injectIdeContext_calls (st : Client) :
  let st' := injectIdeContext env st in
  routed (trace st') = routed (trace st) /\
  modelsRun (trace st') = modelsRun (trace st) /\
  retryFailures (trace st') = retryFailures (trace st) /\
  lastPromptId st' = lastPromptId st /\
  currentSequenceModel st' = currentSequenceModel st /\
  sessionTurnCount st' = sessionTurnCount st.
Proof.
  unfold injectIdeContext.
  destruct (_ && _); [|repeat split].
  destruct (_ <? _)%nat; repeat split.
Qed.

(** An event yielded while the stream of the turn is consumed is
    [LoopDetected] or an event of the turn. *)
Definition StreamedEvent (e : ServerGeminiStreamEvent) : Prop :=
  e = LoopDetected \/ exists t, e = FromTurn t.

Definition retryFailure (model : string) : Action :=
  LogContentRetryFailure 4 "FAILED_AFTER_PROMPT_INJECTION" model.

(** What the loop over the stream leaves, given where it started. *)
Definition StreamSpec (model : string) (retry : bool) (st : Client)
    (r : StreamResult) : Prop :=
  routed (trace (streamClient r)) = routed (trace st) /\
  modelsRun (trace (streamClient r)) = modelsRun (trace st) /\
  historyAdded (trace (streamClient r)) = historyAdded (trace st) /\
  lastPromptId (streamClient r) = lastPromptId st /\
  currentSequenceModel (streamClient r) = currentSequenceModel st /\
  Forall StreamedEvent (streamed r) /\
  match streamEnd r with
  | RetryExhausted =>
      retry = true /\ getContinueOnFailedApiCall env = true /\
      (exists tr, trace (streamClient r) = retryFailure model :: tr /\
                  retryFailures tr = retryFailures (trace st)) /\
      exists pre, streamed r = pre ++ [FromTurn InvalidStream]
  | Retry =>
      retry = false /\ getContinueOnFailedApiCall env = true /\
      retryFailures (trace (streamClient r)) = retryFailures (trace st) /\
      exists pre, streamed r = pre ++ [FromTurn InvalidStream]
  | LoopFound | Errored | Exhausted =>
      retryFailures (trace (streamClient r)) = retryFailures (trace st) /\
      (getContinueOnFailedApiCall env = true ->
       ~ In (FromTurn InvalidStream) (streamed r))
  end.

Lemma StreamSpec_forward (model : string) (retry : bool) (st st1 : Client)
    (event : TurnEvent) (r : StreamResult) :
  SameCalls st st1 ->
  event <> InvalidStream \/ getContinueOnFailedApiCall env = false ->
  StreamSpec model retry st1 r ->
  StreamSpec model retry st
    (mkStreamResult (FromTurn event :: streamed r) (streamClient r)
       (streamEnd r) (streamTurn r)).
Proof.
  intros [] Hev (H1 & H2 & H3 & H4 & H5 & H6 & H7).
  unfold StreamSpec. cbn [streamed streamClient streamEnd].
  assert (Hnot : getContinueOnFailedApiCall env = true ->
                 ~ In (FromTurn InvalidStream) (streamed r) ->
                 ~ In (FromTurn InvalidStream) (FromTurn event :: streamed r)).
  { intros Hc Hnin [Heq|Hin]; [|exact (Hnin Hin)].
    destruct Hev as [Hev|Hev]; [|congruence].
    apply Hev. congruence. }
  repeat split; try congruence.
  - constructor; [right; eexists; reflexivity|exact H6].
  - destruct (streamEnd r).
    + destruct H7 as [H7 H8]. split; [congruence|]. auto.
    + destruct H7 as (Hr & Hc & (tr & Htr & Hfail) & pre & Hpre).
      repeat split; auto.
      * exists tr. split; congruence.
      * exists (FromTurn event :: pre). rewrite Hpre. reflexivity.
    + destruct H7 as (Hr & Hc & Ht & pre & Hpre).
      repeat split; auto; [congruence|].
      exists (FromTurn event :: pre). rewrite Hpre. reflexivity.
    + destruct H7 as [H7 H8]. split; [congruence|]. auto.
    + destruct H7 as [H7 H8]. split; [congruence|]. auto.
Qed.

Lemma consumeStream_spec (script : TurnScript) (model : string) (retry : bool)
    (pending : list TurnEvent) :
  forall (pulled : nat) (st : Client),
    StreamSpec model retry st
      (consumeStream env script model retry pending pulled st).
Proof.
  induction pending as [|event rest IH]; intros pulled st; cbn [consumeStream].
  - unfold StreamSpec. cbn. repeat split; auto.
  - destruct (addAndCheck env _ event) eqn:Hloop.
    + unfold StreamSpec. cbn. repeat split; auto.
      * constructor; [left; reflexivity|constructor].
      * intros _ [H|[]]. discriminate.
    + set (st1 := log (LoopDetectorAddAndCheck event) (advance script (S pulled) st)).
      assert (Hsame : SameCalls st st1) by same_calls.
      specialize (IH (S pulled) st1).
      destruct event as [|message|kind value].
      * destruct (getContinueOnFailedApiCall env) eqn:Hc.
        -- destruct retry; unfold StreamSpec; cbn.
           ++ rewrite Hc. repeat split; auto.
              ** constructor; [right; eexists; reflexivity|constructor].
              ** eexists. split; reflexivity.
              ** exists []. reflexivity.
           ++ rewrite Hc. repeat split; auto.
              ** constructor; [right; eexists; reflexivity|constructor].
              ** exists []. reflexivity.
        -- apply (StreamSpec_forward model retry st st1); auto.
      * unfold StreamSpec. cbn. repeat split; auto.
        -- constructor; [right; eexists; reflexivity|constructor].
        -- intros _ [H|[]]. discriminate.
      * apply (StreamSpec_forward model retry st st1); auto.
        left. discriminate.
Qed.

(** How routing calls and model calls relate to the sticky model
    [before] an activity and [after] it: with a sticky model there is no
    routing and every model call uses it; without one, either nothing
    was routed or run, or one decision was routed, every model call uses
    it and it is the sticky model afterwards. *)
Definition Sticky (before : option string) (rs ms : list string)
    (after : option string) : Prop :=
  match nonEmpty before with
  | Some m => rs = [] /\ Forall (eq m) ms /\ after = before
  | None =>
      (rs = [] /\ ms = [] /\ nonEmpty after = None) \/
      (exists d, rs = [d] /\ Forall (eq d) ms /\ after = Some d)
  end.

Lemma selectModel_spec (st : Client) (request : PartListUnion) :
  let st' := fst (selectModel env st request) in
  let model := snd (selectModel env st request) in
  modelsRun (trace st') = modelsRun (trace st) /\
  historyAdded (trace st') = historyAdded (trace st) /\
  retryFailures (trace st') = retryFailures (trace st) /\
  lastPromptId st' = lastPromptId st /\
  match nonEmpty (currentSequenceModel st) with
  | Some m => st' = st /\ model = m
  | None =>
      routed (trace st') = model :: routed (trace st) /\
      currentSequenceModel st' = Some model
  end.
Proof.
  unfold selectModel.
  destruct (nonEmpty (currentSequenceModel st)); cbn; repeat split.
Qed.

Lemma afterStream_spec (st : Client) (signal : AbortSignal) (prompt_id : string)
    (boundedTurns : Z) (turn : Turn) :
  let r := afterStream env st signal prompt_id boundedTurns turn in
  SameCalls st (fst r) /\
  (snd r = Return turn \/
   snd r = Delegate continueRequest (boundedTurns - 1) false turn).
Proof.
  unfold afterStream.
  repeat case_cond; cbn; split; auto; same_calls.
Qed.

(** The routing and model calls of [runTurn], and the shape of its
    outcome. *)
Lemma runTurn_routing (st : Client) (request : PartListUnion)
    (signal : AbortSignal) (prompt_id : string) (boundedTurns : Z)
    (retry : bool) (before : list ServerGeminiStreamEvent) :
  let inv := runTurn env st request signal prompt_id boundedTurns retry before in
  lastPromptId (after inv) = lastPromptId st /\
  historyAdded (trace (after inv)) = historyAdded (trace st) /\
  (exists rs ms,
      routed (trace (after inv)) = rs ++ routed (trace st) /\
      modelsRun (trace (after inv)) = ms ++ modelsRun (trace st) /\
      (List.length ms <= 1)%nat /\
      Sticky (currentSequenceModel st) rs ms (currentSequenceModel (after inv)) /\
      (forall d, rs = [d] -> exists h, d = route env (log LoopDetectorTurnStarted st) h request)) /\
  ((exists turn, outcome inv = Return turn) \/
   (exists nextRequest retry' turn,
       outcome inv = Delegate nextRequest (boundedTurns - 1) retry' turn)).
Proof.
  unfold runTurn.
  set (st0 := log LoopDetectorTurnStarted st).
  destruct (turnStarted env st).
  { cbn. repeat split; auto.
    - exists [], []. repeat split; auto.
      + unfold Sticky. destruct (nonEmpty (currentSequenceModel st)) eqn:E; auto.
      + intros d [=].
    - left. eauto. }
  pose proof (selectModel_spec st0 request) as Hsel. cbv zeta in Hsel.
  destruct (selectModel env st0 request) as [st1 model] eqn:Esel.
  cbn [fst snd] in Hsel.
  destruct Hsel as (Hm & Hh & Hf & Hp & Hsticky).
  set (script := turnRun env st1 model request).
  set (st2 := log (TurnRun model request) st1).
  pose proof (consumeStream_spec script model retry (events script) 0 st2)
    as (C1 & C2 & C3 & C4 & C5 & C6 & C7).
  set (r := consumeStream env script model retry (events script) 0 st2) in *.
  assert (P0 : lastPromptId st0 = lastPromptId st) by reflexivity.
  assert (H0 : historyAdded (trace st0) = historyAdded (trace st)) by reflexivity.
  assert (R0 : routed (trace st0) = routed (trace st)) by reflexivity.
  assert (M0 : modelsRun (trace st0) = modelsRun (trace st)) by reflexivity.
  assert (P2 : lastPromptId st2 = lastPromptId st1) by reflexivity.
  assert (H2 : historyAdded (trace st2) = historyAdded (trace st1)) by reflexivity.
  assert (R2 : routed (trace st2) = routed (trace st1)) by reflexivity.
  assert (M2 : modelsRun (trace st2) = model :: modelsRun (trace st1))
    by reflexivity.
  assert (S2 : currentSequenceModel st2 = currentSequenceModel st1)
    by reflexivity.
  assert (Hbase :
    lastPromptId (streamClient r) = lastPromptId st /\
    historyAdded (trace (streamClient r)) = historyAdded (trace st) /\
    exists rs ms,
      routed (trace (streamClient r)) = rs ++ routed (trace st) /\
      modelsRun (trace (streamClient r)) = ms ++ modelsRun (trace st) /\
      (List.length ms <= 1)%nat /\
      Sticky (currentSequenceModel st) rs ms
        (currentSequenceModel (streamClient r)) /\
      (forall d, rs = [d] -> exists h, d = route env st0 h request)).
  { split; [congruence|]. split; [congruence|].
    change (currentSequenceModel st) with (currentSequenceModel st0).
    unfold Sticky.
    destruct (nonEmpty (currentSequenceModel st0)) as [m|] eqn:E.
    - destruct Hsticky as [-> ->].
      exists [], [m]. rewrite C1, C2, C5, R2, M2, S2, R0, M0. cbn.
      repeat split; auto.
      intros d [=].
    - destruct Hsticky as [Hr Hs].
      exists [model], [model]. rewrite C1, C2, C5, R2, M2, S2, Hr, Hm, R0, M0. cbn.
      repeat split; auto.
      + right. exists model. repeat split; auto.
      + intros d [= <-]. unfold selectModel in Esel.
        change (currentSequenceModel st0) with (currentSequenceModel st) in E.
        cbn in Esel. rewrite E in Esel. injection Esel as _ <-. eauto. }
  destruct (streamEnd r) eqn:Eend; cbn [after outcome].
  - destruct Hbase as (B1 & B2 & B3). repeat split; auto. left; eauto.
  - destruct Hbase as (B1 & B2 & B3). repeat split; auto. left; eauto.
  - destruct Hbase as (B1 & B2 & B3). repeat split; auto. right; eauto.
  - destruct Hbase as (B1 & B2 & B3). repeat split; auto. left; eauto.
  - pose proof (afterStream_spec (streamClient r) signal prompt_id boundedTurns
                  (streamTurn r)) as [Hs Ho].
    cbv zeta in Hs, Ho.
    destruct (afterStream env (streamClient r) signal prompt_id boundedTurns
                (streamTurn r)) as [st3 result].
    cbn [fst snd after outcome] in *.
    destruct Hs as [Sr Sm Sh Sf Sp Sseq Sc].
    destruct Hbase as (B1 & B2 & rs & ms & B3 & B4 & B5 & B6 & B7).
    split; [congruence|]. split; [congruence|]. split.
    + exists rs, ms.
      split; [congruence|]. split; [congruence|]. split; [exact B5|].
      split; [|exact B7]. rewrite Sseq. exact B6.
    + destruct Ho as [->| ->]; [left|right]; eauto.
Qed.

Lemma Sticky_nil (m : option string) : Sticky m [] [] m.
Proof.
  unfold Sticky. destruct (nonEmpty m) eqn:E; auto.
Qed.

(** The routing and model calls of one invocation that started in [st]
    and passed [beginInvocation], and the shape of its outcome: it never
    throws, and a recursive invocation is asked for with one turn less
    than the bounded turns. *)
Definition InvocationSpec (st : Client) (request : PartListUnion)
    (prompt_id : string) (boundedTurns : Z) (inv : Invocation) : Prop :=
  lastPromptId (after inv) = prompt_id /\
  (exists rs ms,
      routed (trace (after inv)) = rs ++ routed (trace st) /\
      modelsRun (trace (after inv)) = ms ++ modelsRun (trace st) /\
      (List.length ms <= 1)%nat /\
      Sticky (currentSequenceModel (beginInvocation st prompt_id)) rs ms
        (currentSequenceModel (after inv)) /\
      (forall d, rs = [d] -> exists st' h, d = route env st' h request) /\
      (boundedTurns = 0 -> ms = [])) /\
  ((exists turn, outcome inv = Return turn) \/
   (boundedTurns <> 0 /\
    exists nextRequest retry' turn,
      outcome inv = Delegate nextRequest (boundedTurns - 1) retry' turn)).

Lemma InvocationSpec_exit (st : Client) (request : PartListUnion)
    (prompt_id : string) (boundedTurns : Z)
    (evs : list ServerGeminiStreamEvent) (turn : Turn) :
  InvocationSpec st request prompt_id boundedTurns
    (mkInvocation evs (beginInvocation st prompt_id) (Return turn)).
Proof.
  pose proof (beginInvocation_calls st prompt_id) as (B1 & B2 & B3 & B4 & B5 & B6 & B7).
  unfold InvocationSpec. cbn [after outcome].
  split; [exact B5|]. split.
  - exists [], []. cbn. repeat split; auto using Sticky_nil.
    intros d [=].
  - left. eauto.
Qed.

Lemma invocation_routing (st : Client) (request : PartListUnion)
    (signal : AbortSignal) (prompt_id : string) (turns : Z) (retry : bool) :
  InvocationSpec st request prompt_id (Z.min turns MAX_TURNS)
    (sendMessageStreamInvocation env st request signal prompt_id turns retry).
Proof.
  unfold sendMessageStreamInvocation.
  set (st1 := beginInvocation st prompt_id).
  set (boundedTurns := Z.min turns MAX_TURNS).
  destruct (sessionTurnsExceeded env st1); [apply InvocationSpec_exit|].
  destruct (boundedTurns =? 0) eqn:Hzero; [apply InvocationSpec_exit|].
  apply Z.eqb_neq in Hzero.
  destruct (contextWindowWillOverflow _ _); [apply InvocationSpec_exit|].
  destruct (tryCompressChat_returns st1 prompt_id false) as (st2 & info & Hc).
  rewrite Hc.
  pose proof (tryCompressChat_SameCalls _ _ _ _ _ Hc) as [Cr Cm Ch Cf Cp Cs Cc].
  set (before := match compressionStatus info with
                 | COMPRESSED => [ChatCompressed info]
                 | _ => []
                 end).
  set (st3 := refreshSystemInstruction env st2).
  pose proof (refreshSystemInstruction_SameCalls st2) as [Rr Rm Rh Rf Rp Rs Rc].
  fold st3 in Rr, Rm, Rh, Rf, Rp, Rs, Rc.
  pose proof (injectIdeContext_calls st3) as (Ir & Im & If & Ip & Is & Ic).
  set (st4 := injectIdeContext env st3) in *.
  pose proof (beginInvocation_calls st prompt_id) as (B1 & B2 & B3 & B4 & B5 & B6 & B7).
  fold st1 in B1, B2, B3, B4, B5, B6, B7.
  pose proof (runTurn_routing st4 request signal prompt_id boundedTurns retry before)
    as (T1 & T2 & (rs & ms & T3 & T4 & T5 & T6 & T7) & T8).
  unfold InvocationSpec. fold st1.
  split; [congruence|]. split.
  - exists rs, ms.
    split; [congruence|]. split; [congruence|]. split; [exact T5|].
    split; [|split].
    + replace (currentSequenceModel st1) with (currentSequenceModel st4)
        by congruence.
      exact T6.
    + intros d Hd. destruct (T7 d Hd) as [h Hh]. eauto.
    + intros Hb. contradiction.
  - destruct T8 as [T8|T8]; [left; exact T8|right; split; assumption].
Qed.

(** ** Bounded turns *)

(** From a non-negative number of turns, a call makes at most
    [min(turns, MAX_TURNS)] model calls, and that many invocations plus
    one complete it. *)
Lemma sendMessageStream_bounded (signal : AbortSignal) (prompt_id : string) :
  forall (fuel : nat) (st : Client) (request : PartListUnion) (turns : Z)
         (retry : bool),
    0 <= turns ->
    let r := sendMessageStream env fuel st request signal prompt_id turns retry in
    exists ms,
      modelsRun (trace (final r)) = ms ++ modelsRun (trace st) /\
      Z.of_nat (List.length ms) <= Z.min turns MAX_TURNS /\
      (Z.min turns MAX_TURNS < Z.of_nat fuel -> completion r <> OutOfFuel).
Proof.
  induction fuel as [|fuel IH]; intros st request turns retry Hturns.
  - exists []. split; [reflexivity|]. unfold MAX_TURNS. split.
    + change (Z.of_nat (List.length (@nil string))) with 0. lia.
    + intros H. exfalso. change (Z.of_nat 0) with 0 in H. lia.
  - cbn [sendMessageStream].
    pose proof (invocation_routing st request signal prompt_id turns retry)
      as (_ & (rs & ms & _ & Hms & Hlen & _ & _ & Hzero) & Hout).
    set (inv := sendMessageStreamInvocation env st request signal prompt_id
                  turns retry) in *.
    assert (Hb : 0 <= Z.min turns MAX_TURNS <= 100) by (unfold MAX_TURNS; lia).
    assert (Hone : Z.of_nat (List.length ms) <= Z.min turns MAX_TURNS).
    { destruct (Z.eq_dec (Z.min turns MAX_TURNS) 0) as [E|E].
      - rewrite (Hzero E). cbn. lia.
      - lia. }
    destruct Hout as [[turn Hret]|(Hnz & nextRequest & retry' & turn & Hdel)].
    + rewrite Hret. cbn. exists ms. repeat split; auto. discriminate.
    + rewrite Hdel. cbn [emitted final completion].
      destruct (IH (after inv) nextRequest (Z.min turns MAX_TURNS - 1) retry')
        as (ms' & Hms' & Hlen' & Hfuel'); [lia|].
      exists (ms' ++ ms). rewrite Hms', Hms, app_assoc.
      split; [reflexivity|].
      rewrite length_app.
      assert (Hmin : Z.min (Z.min turns MAX_TURNS - 1) MAX_TURNS =
                     Z.min turns MAX_TURNS - 1) by (unfold MAX_TURNS in *; lia).
      rewrite Hmin in Hlen', Hfuel'.
      split; [lia|].
      intros Hf.
      destruct (completion (sendMessageStream env fuel (after inv) nextRequest
                              signal prompt_id (Z.min turns MAX_TURNS - 1) retry'))
        eqn:Ecomp; try discriminate.
      exfalso. apply Hfuel'; [lia|reflexivity].
Qed.

(** ** The sticky model of a sequence *)

(** The client is in the sequence of [prompt_id] with effective sticky
    model [m], or it is about to enter it ([m] is then [None]). *)
Definition InSequence (st : Client) (prompt_id : string) (m : option string)
  : Prop :=
  (lastPromptId st = prompt_id /\ nonEmpty (currentSequenceModel st) = m) \/
  (lastPromptId st <> prompt_id /\ m = None).

(** The routing decisions [rs] and the models of the model calls [ms]
    made between a point where the effective sticky model is [m0] and a
    point where it is [m1]. *)
Definition Pinned (m0 : option string) (rs ms : list string)
    (m1 : option string) : Prop :=
  match m0 with
  | Some m => rs = [] /\ Forall (eq m) ms /\ m1 = Some m
  | None =>
      (rs = [] /\ ms = [] /\ m1 = None) \/
      (exists d, rs = [d] /\ Forall (eq d) ms /\ m1 = Some d)
  end.

Lemma Pinned_refl (m : option string) : Pinned m [] [] m.
Proof. destruct m; cbn; auto. Qed.

Lemma Pinned_trans (m0 m1 m2 : option string) (rs1 ms1 rs2 ms2 : list string) :
  Pinned m0 rs1 ms1 m1 -> Pinned m1 rs2 ms2 m2 ->
  Pinned m0 (rs2 ++ rs1) (ms2 ++ ms1) m2.
Proof.
  unfold Pinned. intros H1 H2.
  destruct m0 as [m|].
  - destruct H1 as (-> & F1 & ->). destruct H2 as (-> & F2 & ->).
    repeat split; auto. apply Forall_app; auto.
  - destruct H1 as [(-> & -> & ->)|(d & -> & F1 & ->)].
    + rewrite !app_nil_r. exact H2.
    + destruct H2 as (-> & F2 & ->). right. exists d.
      repeat split; auto. apply Forall_app; auto.
Qed.

Lemma Pinned_routed_once (m0 m1 : option string) (rs ms : list string) :
  Pinned m0 rs ms m1 ->
  (List.length rs <= 1)%nat /\
  (forall a b, In a ms -> In b ms -> a = b) /\
  (forall m, m0 = Some m -> rs = [] /\ Forall (eq m) ms) /\
  (forall d, In d rs -> Forall (eq d) ms).
Proof.
  unfold Pinned. intros H. destruct m0 as [m|].
  - destruct H as (-> & F & ->).
    split; [cbn; lia|]. split; [|split].
    + intros a b Ha Hb. rewrite Forall_forall in F.
      rewrite <- (F a Ha), <- (F b Hb). reflexivity.
    + intros m' [= <-]. auto.
    + intros d [].
  - destruct H as [(-> & -> & ->)|(d & -> & F & ->)].
    + split; [cbn; lia|]. split; [intros ? ? []|].
      split; [discriminate|intros d []].
    + split; [cbn; lia|]. split; [|split].
      * intros a b Ha Hb. rewrite Forall_forall in F.
        rewrite <- (F a Ha), <- (F b Hb). reflexivity.
      * discriminate.
      * intros d' [<-|[]]. exact F.
Qed.

Section NamedModels.

(** The router answers with a model identifier, which is not the
    empty string. *)
Hypothesis routeNamesModel :
  forall st h request, route env st h request <> EmptyString.

Lemma nonEmpty_routed (st : Client) (h : list Content) (request : PartListUnion) :
  nonEmpty (Some (route env st h request)) = Some (route env st h request).
Proof.
  pose proof (routeNamesModel st h request) as H.
  destruct (route env st h request); [contradiction|reflexivity].
Qed.

Lemma invocation_pinned (st : Client) (request : PartListUnion)
    (signal : AbortSignal) (prompt_id : string) (turns : Z) (retry : bool)
    (m0 : option string) :
  InSequence st prompt_id m0 ->
  let inv := sendMessageStreamInvocation env st request signal prompt_id turns
               retry in
  exists rs ms m1,
    routed (trace (after inv)) = rs ++ routed (trace st) /\
    modelsRun (trace (after inv)) = ms ++ modelsRun (trace st) /\
    Pinned m0 rs ms m1 /\
    lastPromptId (after inv) = prompt_id /\
    nonEmpty (currentSequenceModel (after inv)) = m1.
Proof.
  intros Hseq inv.
  pose proof (invocation_routing st request signal prompt_id turns retry)
    as (Hp & (rs & ms & Hr & Hm & Hlen & Hsticky & Horigin & _) & _).
  fold inv in Hp, Hr, Hm, Hsticky.
  pose proof (beginInvocation_calls st prompt_id) as (_ & _ & _ & _ & _ & _ & B7).
  assert (Hm0 : nonEmpty (currentSequenceModel (beginInvocation st prompt_id)) = m0).
  { rewrite B7. destruct Hseq as [[Hid Hs]|[Hid ->]].
    - apply String.eqb_eq in Hid. rewrite Hid. exact Hs.
    - apply String.eqb_neq in Hid. rewrite Hid. reflexivity. }
  exists rs, ms, (nonEmpty (currentSequenceModel (after inv))).
  split; [exact Hr|]. split; [exact Hm|]. split; [|split; [exact Hp|reflexivity]].
  unfold Sticky in Hsticky. rewrite Hm0 in Hsticky. unfold Pinned.
  destruct m0 as [m|].
  - destruct Hsticky as (-> & F & ->). rewrite Hm0. auto.
  - destruct Hsticky as [(-> & -> & ->)|(d & -> & F & ->)]; [auto|].
    right. exists d. repeat split; auto.
    destruct (Horigin d eq_refl) as (st' & h & ->).
    apply nonEmpty_routed.
Qed.

(** The routing and model calls of a whole call, recursive invocations
    included. *)
Lemma sendMessageStream_pinned (signal : AbortSignal) (prompt_id : string) :
  forall (fuel : nat) (st : Client) (request : PartListUnion) (turns : Z)
         (retry : bool) (m0 : option string),
    InSequence st prompt_id m0 ->
    let r := sendMessageStream env fuel st request signal prompt_id turns retry in
    exists rs ms m1,
      routed (trace (final r)) = rs ++ routed (trace st) /\
      modelsRun (trace (final r)) = ms ++ modelsRun (trace st) /\
      Pinned m0 rs ms m1 /\
      InSequence (final r) prompt_id m1.
Proof.
  induction fuel as [|fuel IH]; intros st request turns retry m0 Hseq.
  - cbn. exists [], [], m0. repeat split; auto using Pinned_refl.
  - cbn [sendMessageStream].
    destruct (invocation_pinned st request signal prompt_id turns retry m0 Hseq)
      as (rs & ms & m1 & Hr & Hm & Hpin & Hid & Hs).
    set (inv := sendMessageStreamInvocation env st request signal prompt_id
                  turns retry) in *.
    assert (Hseq1 : InSequence (after inv) prompt_id m1) by (left; auto).
    destruct (outcome inv) as [turn|nextRequest turns' retry' turn|message].
    + cbn. exists rs, ms, m1. auto.
    + cbn [final].
      destruct (IH (after inv) nextRequest turns' retry' m1 Hseq1)
        as (rs' & ms' & m2 & Hr' & Hm' & Hpin' & Hseq2).
      exists (rs' ++ rs), (ms' ++ ms), m2.
      rewrite Hr', Hm', Hr, Hm, !app_assoc.
      repeat split; auto. eapply Pinned_trans; eauto.
    + cbn. exists rs, ms, m1. auto.
Qed.

End NamedModels.

End ClientFacts.

(** ** What one invocation yields *)

Section InvocationFacts.

Variable env : Env.

Lemma StreamedEvent_not_overflow (evs : list ServerGeminiStreamEvent) :
  Forall StreamedEvent evs ->
  forall e r, ~ In (ContextWindowWillOverflow e r) evs.
Proof.
  intros H e r Hin. rewrite Forall_forall in H.
  destruct (H _ Hin) as [Heq|[t Heq]]; discriminate.
Qed.

Lemma runTurn_yielded (st : Client) (request : PartListUnion)
    (signal : AbortSignal) (prompt_id : string) (boundedTurns : Z)
    (retry : bool) (before : list ServerGeminiStreamEvent) :
  exists evs,
    yielded (runTurn env st request signal prompt_id boundedTurns retry before) =
    before ++ evs /\
    Forall StreamedEvent evs.
Proof.
  unfold runTurn.
  destruct (turnStarted env st).
  { exists [LoopDetected]. split; [reflexivity|].
    constructor; [left; reflexivity|constructor]. }
  destruct (selectModel env _ request) as [st1 model].
  set (script := turnRun env st1 model request).
  set (st2 := log (TurnRun model request) st1).
  pose proof (consumeStream_spec env script model retry (events script) 0 st2)
    as (_ & _ & _ & _ & _ & C6 & _).
  set (r := consumeStream env script model retry (events script) 0 st2) in *.
  exists (streamed r). split; [|exact C6].
  destruct (streamEnd r); try reflexivity.
  destruct (afterStream env _ _ _ _ _). reflexivity.
Qed.

(** What [runTurn] does when it has forwarded an invalid stream and the
    host continues past failed calls. *)
Definition InvalidStreamSpec (st : Client) (boundedTurns : Z) (retry : bool)
    (inv : Invocation) : Prop :=
  (exists pre, yielded inv = pre ++ [FromTurn InvalidStream]) /\
  (exists model, modelsRun (trace (after inv)) = model :: modelsRun (trace st) /\
     if retry then
       (exists turn, outcome inv = Return turn) /\
       exists tr, trace (after inv) = retryFailure model :: tr /\
                  retryFailures tr = retryFailures (trace st)
     else
       (exists turn,
           outcome inv = Delegate retryRequest (boundedTurns - 1) true turn) /\
       retryFailures (trace (after inv)) = retryFailures (trace st)).

Lemma runTurn_invalid_stream (st : Client) (request : PartListUnion)
    (signal : AbortSignal) (prompt_id : string) (boundedTurns : Z)
    (retry : bool) (before : list ServerGeminiStreamEvent) :
  getContinueOnFailedApiCall env = true ->
  ~ In (FromTurn InvalidStream) before ->
  let inv := runTurn env st request signal prompt_id boundedTurns retry before in
  In (FromTurn InvalidStream) (yielded inv) ->
  InvalidStreamSpec st boundedTurns retry inv.
Proof.
  intros Hcont Hbefore. unfold runTurn.
  destruct (turnStarted env st).
  { cbn. intros Hin. apply in_app_or in Hin.
    destruct Hin as [Hin|[Hin|[]]]; [contradiction|discriminate]. }
  pose proof (selectModel_spec env (log LoopDetectorTurnStarted st) request)
    as Hsel. cbv zeta in Hsel.
  destruct (selectModel env _ request) as [st1 model].
  cbn [fst snd] in Hsel. destruct Hsel as (Hm & _ & Hf & _ & _).
  set (script := turnRun env st1 model request).
  set (st2 := log (TurnRun model request) st1).
  assert (M2 : modelsRun (trace st2) = model :: modelsRun (trace st)).
  { change (modelsRun (trace st2)) with (model :: modelsRun (trace st1)).
    rewrite Hm. reflexivity. }
  assert (F2 : retryFailures (trace st2) = retryFailures (trace st)).
  { change (retryFailures (trace st2)) with (retryFailures (trace st1)).
    rewrite Hf. reflexivity. }
  pose proof (consumeStream_spec env script model retry (events script) 0 st2)
    as (_ & C2 & _ & _ & _ & _ & C7).
  set (r := consumeStream env script model retry (events script) 0 st2) in *.
  assert (Hno : ~ In (FromTurn InvalidStream) (streamed r) ->
                ~ In (FromTurn InvalidStream) (before ++ streamed r)).
  { intros Hn Hin. apply in_app_or in Hin. destruct Hin; contradiction. }
  unfold InvalidStreamSpec.
  destruct (streamEnd r); cbn [yielded after outcome].
  - destruct C7 as [_ C7]. cbn. intros Hin. exfalso. exact (Hno (C7 Hcont) Hin).
  - destruct C7 as (-> & _ & (tr & Htr & Hfail) & pre & Hpre).
    cbn. intros _. split.
    + exists (before ++ pre). rewrite Hpre, app_assoc. reflexivity.
    + exists model. split; [congruence|]. split; [eauto|].
      exists tr. split; [exact Htr|congruence].
  - destruct C7 as (-> & _ & Hfail & pre & Hpre).
    cbn. intros _. split.
    + exists (before ++ pre). rewrite Hpre, app_assoc. reflexivity.
    + exists model. split; [congruence|]. split; [eauto|congruence].
  - destruct C7 as [_ C7]. cbn. intros Hin. exfalso. exact (Hno (C7 Hcont) Hin).
  - destruct C7 as [_ C7].
    destruct (afterStream env _ _ _ _ _). cbn [yielded after outcome].
    intros Hin. exfalso. exact (Hno (C7 Hcont) Hin).
Qed.

(** The invocation reaches the context-window check: the session turn
    limit is not exceeded and the bounded turns are not zero. *)
Definition ReachesWindowCheck (st : Client) (prompt_id : string) (turns : Z)
  : Prop :=
  sessionTurnsExceeded env (beginInvocation st prompt_id) = false /\
  Z.min turns MAX_TURNS <> 0.

(** The client and the events yielded just before the turn is run, for
    an invocation that passes the context-window check. *)
Lemma invocation_reaches_turn (st : Client) (request : PartListUnion)
    (signal : AbortSignal) (prompt_id : string) (turns : Z) (retry : bool) :
  let st1 := beginInvocation st prompt_id in
  ReachesWindowCheck st prompt_id turns ->
  contextWindowWillOverflow (estimateRequestTokenCount request)
    (remainingTokens env st1) = false ->
  exists st2 info,
    tryCompressChat env st1 prompt_id false = Ok (st2, info) /\
    sendMessageStreamInvocation env st request signal prompt_id turns retry =
    runTurn env (injectIdeContext env (refreshSystemInstruction env st2))
      request signal prompt_id (Z.min turns MAX_TURNS) retry
      match compressionStatus info with
      | COMPRESSED => [ChatCompressed info]
      | _ => []
      end.
Proof.
  intros st1 [Hsession Hturns] Hfits. subst st1.
  destruct (tryCompressChat_returns env (beginInvocation st prompt_id) prompt_id
              false) as (st2 & info & Hc).
  exists st2, info. split; [exact Hc|].
  unfold sendMessageStreamInvocation.
  rewrite Hsession.
  apply Z.eqb_neq in Hturns. rewrite Hturns.
  rewrite Hfits, Hc. reflexivity.
Qed.

(** An invocation that yields an invalid stream has run a turn. *)
Lemma invocation_invalid_stream (st : Client) (request : PartListUnion)
    (signal : AbortSignal) (prompt_id : string) (turns : Z) (retry : bool) :
  getContinueOnFailedApiCall env = true ->
  let inv := sendMessageStreamInvocation env st request signal prompt_id turns
               retry in
  In (FromTurn InvalidStream) (yielded inv) ->
  InvalidStreamSpec st (Z.min turns MAX_TURNS) retry inv.
Proof.
  intros Hcont. unfold sendMessageStreamInvocation.
  set (st1 := beginInvocation st prompt_id).
  destruct (sessionTurnsExceeded env st1);
    [cbn; intros [H|[]]; discriminate|].
  destruct (Z.min turns MAX_TURNS =? 0); [cbn; intros []|].
  destruct (contextWindowWillOverflow _ _);
    [cbn; intros [H|[]]; discriminate|].
  destruct (tryCompressChat_returns env st1 prompt_id false) as (st2 & info & Hc).
  rewrite Hc.
  pose proof (tryCompressChat_SameCalls _ _ _ _ _ _ Hc) as [_ Cm _ Cf _ _ _].
  pose proof (refreshSystemInstruction_SameCalls env st2) as [_ Rm _ Rf _ _ _].
  pose proof (injectIdeContext_calls env (refreshSystemInstruction env st2))
    as (_ & Im & If & _).
  pose proof (beginInvocation_calls st prompt_id) as (_ & B2 & _ & B4 & _).
  fold st1 in B2, B4.
  set (st4 := injectIdeContext env (refreshSystemInstruction env st2)) in *.
  set (before := match compressionStatus info with
                 | COMPRESSED => [ChatCompressed info]
                 | _ => []
                 end).
  assert (Hbefore : ~ In (FromTurn InvalidStream) before).
  { unfold before. destruct (compressionStatus info); cbn; intuition discriminate. }
  cbv zeta. intros Hin.
  destruct (runTurn_invalid_stream st4 request signal prompt_id
              (Z.min turns MAX_TURNS) retry before Hcont Hbefore Hin)
    as (Hpre & model & Hmodels & Hrest).
  split; [exact Hpre|].
  exists model. split; [congruence|].
  destruct retry.
  - destruct Hrest as (Hret & tr & Htr & Hfail). split; [exact Hret|].
    exists tr. split; [exact Htr|congruence].
  - destruct Hrest as (Hdel & Hfail). split; [exact Hdel|congruence].
Qed.


End InvocationFacts.

(** ** The pending tool call across compression *)

Section PendingToolCall.

Local Open Scope nat_scope.

Variable env : Env.

(** The last entry of a history, if any. *)
Definition lastEntry (history : list Content) : option Content :=
  nth_error history (List.length history - 1).




Lemma hasPendingToolCall_lastEntry (history : list Content) :
  hasPendingToolCall history =
  match lastEntry history with
  | Some message =>
      roleIs message "model" &&
      truthy (optSome (parts message) (fun p => present (functionCall p)))
  | None => false
  end.
Proof.
  unfold hasPendingToolCall, lastEntry.
  destruct history as [|c rest]; [reflexivity|].
  cbn [List.length Nat.ltb Nat.leb]. reflexivity.
Qed.




Lemma lastEntry_app (l1 l2 : list Content) :
  l2 <> [] -> lastEntry (l1 ++ l2) = lastEntry l2.
Proof.
  intros Hne. unfold lastEntry.
  destruct l2 as [|x l2]; [contradiction|].
  rewrite length_app. cbn [List.length].
  rewrite nth_error_app2 by lia.
  f_equal. lia.
Qed.




End PendingToolCall.

(** ** Compression *)

Section CompressionTheorems.

Variable env : Env.


(** A non-forced attempt that fails records the failure. *)
Lemma tryCompressChat_failure_recorded (st : Client) (prompt_id : string)
    (st' : Client) (info : ChatCompressionInfo) :
  tryCompressChat env st prompt_id false = Ok (st', info) ->
  compressionStatus info = COMPRESSION_FAILED_INFLATED_TOKEN_COUNT ->
  hasFailedCompressionAttempt st' = true.
Proof.
  unfold tryCompressChat.
  destruct (_ || _); [intros [= <- <-]; discriminate|].
  destruct (_ && _); [intros [= <- <-]; discriminate|].
  destruct (findCompressSplitPoint _ _) as [splitPoint|]; [|discriminate].
  cbv beta iota zeta delta [startChat].
  destruct (_ =? _)%nat; [intros [= <- <-]; discriminate|].
  destruct (_ >? _)%Z; intros [= <- <-]; [reflexivity|discriminate].
Qed.


(** The history a compression attempt rebuilds: the setup entry of
    [startChat], the summary, the acknowledgement, and the entries kept. *)
Definition IsRebuild (st : Client) (rebuilt : GeminiChat) : Prop :=
  exists stm summary compressed kept,
    curated env (chatHistory (chat st)) = compressed ++ kept /\
    compressed <> [] /\
    rebuilt = snd (startChat env stm
                     (userContent [textPart summary] :: summaryAcknowledgement ::
                      kept)).

(** C3 (amended): an attempt that reaches the rebuild step (its status
    is not NOOP) reports the estimate of the rebuilt history as new
    count and the tracked counter as original count; when the new count
    is strictly greater than the original one the status is
    COMPRESSION_FAILED_INFLATED_TOKEN_COUNT, the live chat and the
    tracked counter are unchanged and the failure flag is set exactly
    when the attempt was not forced; otherwise the status is COMPRESSED
    and the rebuilt chat and the new count are adopted. *)
Theorem tryCompressChat_inflation_guard (st : Client) (prompt_id : string)
    (force : bool) (st' : Client) (info : ChatCompressionInfo) :
  tryCompressChat env st prompt_id force = Ok (st', info) ->
  compressionStatus info <> NOOP ->
  exists rebuilt,
    IsRebuild st rebuilt /\
    newTokenCount info = estimateTokenCount (chatHistory rebuilt) /\
    originalTokenCount info = lastPromptTokenCount st /\
    (newTokenCount info > originalTokenCount info ->
     compressionStatus info = COMPRESSION_FAILED_INFLATED_TOKEN_COUNT /\
     chat st' = chat st /\
     lastPromptTokenCount st' = lastPromptTokenCount st /\
     hasFailedCompressionAttempt st' = negb force) /\
    (newTokenCount info <= originalTokenCount info ->
     compressionStatus info = COMPRESSED /\
     chat st' = rebuilt /\
     lastPromptTokenCount st' = newTokenCount info).
Proof.
  unfold tryCompressChat.
  destruct (_ || _); [intros [= <- <-] H; contradiction|].
  destruct (_ && _); [intros [= <- <-] H; contradiction|].
  destruct (findCompressSplitPoint _ _) as [splitPoint|]; [|discriminate].
  set (curatedHistory := curated env (chatHistory (chat st))).
  destruct (List.length (firstn splitPoint curatedHistory) =? 0)%nat eqn:Hlen;
    [intros [= <- <-] H; contradiction|].
  set (contents := firstn splitPoint curatedHistory ++ [summaryRequest]).
  set (model := getEffectiveModelForCurrentTurn env st).
  set (summary := orEmpty (generateSummary env st model contents prompt_id)).
  set (stm := log (GenerateContent model contents prompt_id) st).
  set (extra := userContent [textPart summary] :: summaryAcknowledgement ::
                skipn splitPoint curatedHistory).
  assert (Hrebuild : IsRebuild st (snd (startChat env stm extra))).
  { exists stm, summary, (firstn splitPoint curatedHistory),
      (skipn splitPoint curatedHistory).
    split; [symmetry; apply firstn_skipn|]. split; [|reflexivity].
    intros Hnil. rewrite Hnil in Hlen. discriminate. }
  cbv beta iota zeta delta [startChat] in *.
  cbn [snd] in Hrebuild.
  match goal with
  | |- context [estimateTokenCount (chatHistory ?c)] =>
      remember c as rebuilt eqn:Hreb in *
  end.
  destruct (estimateTokenCount (chatHistory rebuilt) >? lastPromptTokenCount st)
    eqn:Hgt; intros [= <- <-] _; exists rebuilt;
    (split; [exact Hrebuild|]); (split; [reflexivity|]); (split; [reflexivity|]);
    cbn [newTokenCount originalTokenCount compressionStatus].
  - apply Z.gtb_lt in Hgt. split; [|intros Hle; exfalso; lia].
    intros _. split; [reflexivity|]. split; [reflexivity|].
    split; [reflexivity|]. destruct force; reflexivity.
  - rewrite Z.gtb_ltb in Hgt. apply Z.ltb_ge in Hgt.
    split; [intros Hgt'; exfalso; lia|].
    intros _. split; [reflexivity|]. split; reflexivity.
Qed.

End CompressionTheorems.

(** * Scenarios: a scripted environment *)

Module Scenario.

(** A turn that yields [evs] and leaves the chat, the token count and
    the pending tool calls as they were. *)
Definition script (st : Client) (evs : list TurnEvent) : TurnScript :=
  mkTurnScript evs (fun _ => chat st) (fun _ => lastPromptTokenCount st)
    (fun _ => newTurn).

(** An environment whose turns yield [turnEvents], whose next-speaker
    check answers [nextSpeaker], with token limit [limit] and editor
    context [ide]. *)
Definition scripted (turnEvents : Client -> list TurnEvent)
    (nextSpeaker : option string) (limit : Z) (ide : option IdeContext) : Env :=
  {| getMaxSessionTurns := 0;
     getModel := fun _ => "auto";
     isInFallbackMode := fun _ => false;
     getUserMemory := fun _ => "memory";
     getIdeMode := true;
     getContinueOnFailedApiCall := true;
     getQuotaErrorOccurred := fun _ => false;
     getSkipNextSpeakerCheck := false;
     contextPercentageThreshold := None;
     DEFAULT_GEMINI_MODEL_AUTO := "auto";
     DEFAULT_GEMINI_MODEL := "gemini-2.5-pro";
     getEffectiveModel :=
       fun fallback model => if fallback then "gemini-2.5-flash" else model;
     tokenLimit := fun _ => limit;
     getCoreSystemPrompt := fun memory => memory;
     getEnvironmentContext := fun _ => [textPart "cwd"];
     curated := fun history => history;
     ideContextStoreGet := fun _ => ide;
     turnStarted := fun _ => false;
     addAndCheck := fun _ _ => false;
     route := fun _ _ _ => "gemini-2.5-pro";
     turnRun := fun st _ _ => script st (turnEvents st);
     checkNextSpeaker := fun _ _ => nextSpeaker;
     generateSummary := fun _ _ _ _ => Some "summary" |}.

(** A client right after [initialize], with [history] as its chat. *)
Definition client (history : list Content) (promptTokens : Z) : Client :=
  mkClient (mkGeminiChat history "memory") 0 "session" None None true
    (Some "memory") false promptTokens [].

Definition neverAborted : AbortSignal := fun _ => false.

Definition hello : PartListUnion := RequestString "hello".

Definition greeting : list Content :=
  [userContent [textPart "hello"]; modelContent [textPart "hi"]].

(** A history that ends with a tool call waiting for its response. *)
Definition toolCallPending : list Content :=
  [userContent [textPart "do X"];
   modelContent [functionCallPart "A" (JSON.Object [])]].


End Scenario.

(** * The orchestrator *)

Section Orchestrator.

Variable env : Env.

(** C5: an invocation that reaches the context-window check (session
    turn limit not exceeded, bounded turns not zero) yields exactly one
    ContextWindowWillOverflow event, carrying the estimate and the
    remaining budget, returns and makes no model call when
    floor(length of the JSON-serialized request / 4) is greater than
    0.95 times (token limit - last prompt token count); otherwise it
    yields no overflow event.  Estimate 9500 against budget 10000 does
    not overflow, estimate 9501 does. *)
Theorem contextWindow_guard (st : Client) (request : PartListUnion)
    (signal : AbortSignal) (prompt_id : string) (turns : Z) (retry : bool) :
  ReachesWindowCheck env st prompt_id turns ->
  let st1 := beginInvocation st prompt_id in
  let estimate :=
    Z.of_nat (String.length (JSON.stringify (requestToJson request))) / 4 in
  let remaining :=
    tokenLimit env (getEffectiveModelForCurrentTurn env st1) -
    lastPromptTokenCount st1 in
  let inv := sendMessageStreamInvocation env st request signal prompt_id turns
               retry in
  ((inject_Z remaining * (95 # 100) < inject_Z estimate)%Q ->
   yielded inv = [ContextWindowWillOverflow estimate remaining] /\
   outcome inv = Return newTurn /\
   after inv = st1 /\
   modelCalls (after inv) = modelCalls st) /\
  (~ (inject_Z remaining * (95 # 100) < inject_Z estimate)%Q ->
   forall e r, ~ In (ContextWindowWillOverflow e r) (yielded inv)) /\
  contextWindowWillOverflow 9500 10000 = false /\
  contextWindowWillOverflow 9501 10000 = true.
Proof.
  intros Hreach st1 estimate remaining inv.
  assert (Hcheck :
    contextWindowWillOverflow estimate remaining = true <->
    (inject_Z remaining * (95 # 100) < inject_Z estimate)%Q).
  { unfold contextWindowWillOverflow, Qlt_bool.
    rewrite negb_true_iff. split.
    - intros H. apply Qnot_le_lt. intros Hle.
      apply Qle_bool_iff in Hle. congruence.
    - intros H. destruct (Qle_bool _ _) eqn:E; [|reflexivity].
      apply Qle_bool_iff in E. apply Qle_not_lt in E. contradiction. }
  split; [|split; [|split; reflexivity]].
  - intros Hover. apply Hcheck in Hover.
    destruct Hreach as [Hsession Hturns].
    unfold inv, sendMessageStreamInvocation. fold st1.
    unfold st1 in *. rewrite Hsession.
    apply Z.eqb_neq in Hturns. rewrite Hturns.
    change (estimateRequestTokenCount request) with estimate.
    change (remainingTokens env (beginInvocation st prompt_id)) with remaining.
    rewrite Hover. cbn [yielded outcome after].
    repeat split.
    unfold modelCalls.
    pose proof (beginInvocation_calls st prompt_id) as (_ & B2 & _).
    rewrite B2. reflexivity.
  - intros Hfits e r.
    assert (Hfalse : contextWindowWillOverflow estimate remaining = false).
    { destruct (contextWindowWillOverflow estimate remaining) eqn:E;
        [|reflexivity].
      exfalso. apply Hfits. apply Hcheck. reflexivity. }
    destruct (invocation_reaches_turn env st request signal prompt_id turns retry
                Hreach Hfalse) as (st2 & info & _ & Heq).
    unfold inv. rewrite Heq.
    destruct (runTurn_yielded env
                (injectIdeContext env (refreshSystemInstruction env st2))
                request signal prompt_id (Z.min turns MAX_TURNS) retry
                match compressionStatus info with
                | COMPRESSED => [ChatCompressed info]
                | _ => []
                end) as (evs & -> & Hevs).
    intros Hin. apply in_app_or in Hin. destruct Hin as [Hin|Hin].
    + destruct (compressionStatus info); cbn in Hin; intuition discriminate.
    + exact (StreamedEvent_not_overflow evs Hevs e r Hin).
Qed.

(** C8: with the host continuing past failed calls, an invocation that
    forwards an invalid stream ends on it; without the anomaly-retry
    marker it delegates to one recursive invocation that carries the
    request [[{ text: 'System: Please continue.' }]], one turn less and
    the marker set, and logs no failure; with the marker it returns
    without recursive invocation and logs a retry failure with attempt
    count 4.  Two invalid streams in a row within one call: the call
    makes exactly two model calls, yields the events of the two
    invocations, logs the failure last and is done. *)
Theorem invalid_stream_retried_once (st : Client) (request : PartListUnion)
    (signal : AbortSignal) (prompt_id : string) (turns : Z) :
  getContinueOnFailedApiCall env = true ->
  let boundedTurns := Z.min turns MAX_TURNS in
  let first := sendMessageStreamInvocation env st request signal prompt_id turns
                 false in
  let retry := RequestList [PartObject (textPart "System: Please continue.")] in
  let second := sendMessageStreamInvocation env (after first) retry signal
                  prompt_id (boundedTurns - 1) true in
  (In (FromTurn InvalidStream) (yielded first) ->
   (exists pre, yielded first = pre ++ [FromTurn InvalidStream]) /\
   (exists turn,
       outcome first = Delegate retry (boundedTurns - 1) true turn) /\
   retryFailures (trace (after first)) = retryFailures (trace st) /\
   modelCalls (after first) = S (modelCalls st)) /\
  (forall st' request' turns',
      let inv := sendMessageStreamInvocation env st' request' signal prompt_id
                   turns' true in
      In (FromTurn InvalidStream) (yielded inv) ->
      (exists pre, yielded inv = pre ++ [FromTurn InvalidStream]) /\
      (exists turn, outcome inv = Return turn) /\
      (exists model tr,
          trace (after inv) =
            LogContentRetryFailure 4 "FAILED_AFTER_PROMPT_INJECTION" model :: tr /\
          retryFailures tr = retryFailures (trace st')) /\
      modelCalls (after inv) = S (modelCalls st')) /\
  (In (FromTurn InvalidStream) (yielded first) ->
   In (FromTurn InvalidStream) (yielded second) ->
   forall fuel,
     let run := sendMessageStream env (S (S fuel)) st request signal prompt_id
                  turns false in
     emitted run = yielded first ++ yielded second /\
     final run = after second /\
     (exists turn, completion run = Done turn) /\
     modelCalls (final run) = S (S (modelCalls st)) /\
     exists model tr,
       trace (final run) =
         LogContentRetryFailure 4 "FAILED_AFTER_PROMPT_INJECTION" model :: tr /\
       retryFailures tr = retryFailures (trace st)).
Proof.
  intros Hcont boundedTurns first retry second.
  change retry with retryRequest in *. clear retry.
  assert (Hfirst :
    In (FromTurn InvalidStream) (yielded first) ->
    (exists pre, yielded first = pre ++ [FromTurn InvalidStream]) /\
    (exists turn,
        outcome first = Delegate retryRequest (boundedTurns - 1) true turn) /\
    retryFailures (trace (after first)) = retryFailures (trace st) /\
    modelCalls (after first) = S (modelCalls st)).
  { intros Hin.
    destruct (invocation_invalid_stream env st request signal prompt_id turns
                false Hcont Hin) as (Hpre & model & Hm & Hdel & Hfail).
    fold first in Hpre, Hm, Hdel, Hfail.
    repeat split; auto.
    unfold modelCalls. rewrite Hm. reflexivity. }
  assert (Hmarked : forall st' request' turns',
    let inv := sendMessageStreamInvocation env st' request' signal prompt_id
                 turns' true in
    In (FromTurn InvalidStream) (yielded inv) ->
    (exists pre, yielded inv = pre ++ [FromTurn InvalidStream]) /\
    (exists turn, outcome inv = Return turn) /\
    (exists model tr,
        trace (after inv) =
          LogContentRetryFailure 4 "FAILED_AFTER_PROMPT_INJECTION" model :: tr /\
        retryFailures tr = retryFailures (trace st')) /\
    modelCalls (after inv) = S (modelCalls st')).
  { intros st' request' turns' inv Hin.
    destruct (invocation_invalid_stream env st' request' signal prompt_id turns'
                true Hcont Hin) as (Hpre & model & Hm & Hret & tr & Htr & Hfail).
    fold inv in Hpre, Hm, Hret, Htr.
    repeat split; auto.
    - exists model, tr. split; assumption.
    - unfold modelCalls. rewrite Hm. reflexivity. }
  split; [exact Hfirst|]. split; [exact Hmarked|].
  intros Hin1 Hin2 fuel run.
  destruct (Hfirst Hin1) as (_ & (turn1 & Hdel) & Hfail1 & Hcalls1).
  destruct (Hmarked (after first) retryRequest (boundedTurns - 1) Hin2)
    as (_ & (turn2 & Hret) & (model & tr & Htr & Hfail2) & Hcalls2).
  fold second in Hret, Htr, Hcalls2.
  assert (Hrun : run = mkRun (yielded first ++ yielded second) (after second)
                         (Done turn1)).
  { unfold run. cbn [sendMessageStream]. fold first. rewrite Hdel.
    fold boundedTurns. fold second. rewrite Hret. reflexivity. }
  rewrite Hrun. cbn [emitted final completion].
  repeat split; eauto.
  - rewrite Hcalls2, Hcalls1. reflexivity.
  - exists model, tr. split; [exact Htr|congruence].
Qed.


(** ** Sequences of calls *)

(** One top-level call of a sequence. *)
Record Call : Type := mkCall {
  callRequest : PartListUnion;
  callSignal : AbortSignal;
  callTurns : Z;
  callRetry : bool
}.

(** The calls of a sequence, made one after the other with the same
    prompt id, each with [fuel] invocations at most. *)
Fixpoint sendMessages (fuel : nat) (st : Client) (prompt_id : string)
    (calls : list Call) : Client :=
  match calls with
  | [] => st
  | c :: rest =>
      sendMessages fuel
        (final (sendMessageStream env fuel st (callRequest c) (callSignal c)
                  prompt_id (callTurns c) (callRetry c)))
        prompt_id rest
  end.

Lemma sendMessages_pinned
    (routeNamesModel : forall st h request, route env st h request <> EmptyString)
    (fuel : nat) (prompt_id : string) (calls : list Call) :
  forall (st : Client) (m0 : option string),
    InSequence st prompt_id m0 ->
    exists rs ms m1,
      routed (trace (sendMessages fuel st prompt_id calls)) =
        rs ++ routed (trace st) /\
      modelsRun (trace (sendMessages fuel st prompt_id calls)) =
        ms ++ modelsRun (trace st) /\
      Pinned m0 rs ms m1 /\
      InSequence (sendMessages fuel st prompt_id calls) prompt_id m1.
Proof.
  induction calls as [|c rest IH]; intros st m0 Hseq; cbn [sendMessages].
  - exists [], [], m0. repeat split; auto using Pinned_refl.
  - destruct (sendMessageStream_pinned env routeNamesModel (callSignal c)
                prompt_id fuel st (callRequest c) (callTurns c) (callRetry c)
                m0 Hseq) as (rs & ms & m1 & Hr & Hm & Hpin & Hseq1).
    destruct (IH _ m1 Hseq1) as (rs' & ms' & m2 & Hr' & Hm' & Hpin' & Hseq2).
    exists (rs' ++ rs), (ms' ++ ms), m2.
    rewrite Hr', Hm', Hr, Hm, !app_assoc.
    repeat split; auto. eapply Pinned_trans; eauto.
Qed.

(** C6 (amended): when the router answers with non-empty model
    identifiers, the calls of one sequence (the same prompt id, recursive
    continuations and retries included) invoke the router at most once;
    a decision, once made, is the model of every model call of the
    sequence, and a sticky model already pinned for the prompt id is
    reused without any routing.  An invocation with another prompt id
    clears the sticky model, and when it goes on to call a model it has
    invoked the router before. *)
Theorem sticky_model_per_sequence :
  (forall st h request, route env st h request <> EmptyString) ->
  (forall fuel st prompt_id calls,
      exists rs ms,
        routed (trace (sendMessages fuel st prompt_id calls)) =
          rs ++ routed (trace st) /\
        modelsRun (trace (sendMessages fuel st prompt_id calls)) =
          ms ++ modelsRun (trace st) /\
        (List.length rs <= 1)%nat /\
        (forall a b, In a ms -> In b ms -> a = b) /\
        (forall d, In d rs -> Forall (eq d) ms) /\
        (forall m, lastPromptId st = prompt_id ->
                   currentSequenceModel st = Some m -> m <> EmptyString ->
                   rs = [] /\ Forall (eq m) ms)) /\
  (forall fuel st request signal prompt_id turns retry,
      lastPromptId st <> prompt_id ->
      currentSequenceModel (beginInvocation st prompt_id) = None /\
      let run := sendMessageStream env fuel st request signal prompt_id turns
                   retry in
      exists rs ms,
        routed (trace (final run)) = rs ++ routed (trace st) /\
        modelsRun (trace (final run)) = ms ++ modelsRun (trace st) /\
        (ms <> [] -> exists d, rs = [d] /\ Forall (eq d) ms)).
Proof.
  intros Hroute. split.
  - intros fuel st prompt_id calls.
    assert (Hseq : exists m0, InSequence st prompt_id m0).
    { destruct (string_dec (lastPromptId st) prompt_id) as [Heq|Hne].
      - eexists. left. split; [exact Heq|reflexivity].
      - exists None. right. auto. }
    destruct Hseq as [m0 Hseq].
    destruct (sendMessages_pinned Hroute fuel prompt_id calls st m0 Hseq)
      as (rs & ms & m1 & Hr & Hm & Hpin & _).
    destruct (Pinned_routed_once _ _ _ _ Hpin) as (P1 & P2 & P3 & P4).
    exists rs, ms.
    split; [exact Hr|]. split; [exact Hm|]. split; [exact P1|].
    split; [exact P2|]. split; [exact P4|].
    intros m Hid Hsticky Hnamed. apply (P3 m).
    destruct Hseq as [[_ Hs]|[Hne _]]; [|contradiction].
    rewrite <- Hs, Hsticky. destruct m; [contradiction|reflexivity].
  - intros fuel st request signal prompt_id turns retry Hne. split.
    + pose proof (beginInvocation_calls st prompt_id) as (_ & _ & _ & _ & _ & _ & B7).
      rewrite B7. apply String.eqb_neq in Hne. rewrite Hne. reflexivity.
    + assert (Hseq : InSequence st prompt_id None) by (right; auto).
      destruct (sendMessageStream_pinned env Hroute signal prompt_id fuel st
                  request turns retry None Hseq)
        as (rs & ms & m1 & Hr & Hm & Hpin & _).
      exists rs, ms. split; [exact Hr|]. split; [exact Hm|].
      intros Hms. cbn in Hpin.
      destruct Hpin as [(_ & -> & _)|(d & -> & F & _)]; [contradiction|eauto].
Qed.

End Orchestrator.

(** * The theorems at concrete inputs *)

Section Instances.

Import Scenario.

(** The history of the design document: a greeting, a request, a tool
    call with its response, and the final answer. *)
Definition toolConversation : list Content :=
  [userContent [textPart "hello"];
   modelContent [textPart "hi"];
   userContent [textPart "do X"];
   modelContent [functionCallPart "A" (JSON.Object [])];
   userContent [functionResponsePart "A" (JSON.Object [])];
   modelContent [textPart "done"]].

Example toolConversation_weights :
  map jsonLength toolConversation = [42; 40; 41; 66; 73; 42]%nat.
Proof. reflexivity. Qed.

Example toolConversation_split :
  findCompressSplitPoint toolConversation (7 # 10) = Ok 6%nat /\
  findCompressSplitPoint (firstn 5 toolConversation) (7 # 10) = Ok 2%nat /\
  findCompressSplitPoint toolConversation (1 # 10) = Ok 2%nat.
Proof. repeat split. Qed.

(** Three entries with the weights 32, 26 and 38. *)
Definition thirds : list Content :=
  [modelContent [mkPart None None None; mkPart None None None];
   userContent [];
   modelContent [textPart EmptyString]].

Example thirds_weights : map jsonLength thirds = [32; 26; 38]%nat.
Proof. reflexivity. Qed.

(** The rounding of the product decides: the weights add up to 96, and
    96 times the double next above 1/3 is more than 32 and is 32 after
    rounding, so the entry at index 1, with the weight 32 before it,
    qualifies. *)
Example thirds_split :
  (96 * (3002399751580331 # 9007199254740992) > 32)%Q /\
  (roundToDouble (96 * (3002399751580331 # 9007199254740992)) == 32)%Q /\
  findCompressSplitPoint thirds (3002399751580331 # 9007199254740992) =
    Ok 1%nat.
Proof. vm_compute. repeat split. Qed.

(** The history of the design document at the fraction 1/4: the weight
    304 gives the target 76, and the request at index 2, with the weight
    82 before it, is the first entry that qualifies.  The three entries
    above at the double next above 1/3: the target is 32 after rounding,
    and the entry at index 1 qualifies. *)
Lemma findCompressSplitPoint_first_qualifying_witness :
  ((0 < 1 # 4)%Q /\ (1 # 4 < 1)%Q /\
   exists k, findCompressSplitPoint toolConversation (1 # 4) = Ok k /\
             k = 2%nat /\
             list_sum (map jsonLength toolConversation) = 304%nat /\
             list_sum (map jsonLength (firstn k toolConversation)) = 82%nat /\
             (roundToDouble (inject_Z 304 * (1 # 4)) == 76)%Q) /\
  ((0 < 3002399751580331 # 9007199254740992)%Q /\
   (3002399751580331 # 9007199254740992 < 1)%Q /\
   exists k,
     findCompressSplitPoint thirds (3002399751580331 # 9007199254740992) =
       Ok k /\
     k = 1%nat /\
     list_sum (map jsonLength thirds) = 96%nat /\
     list_sum (map jsonLength (firstn k thirds)) = 32%nat /\
     (inject_Z 96 * (3002399751580331 # 9007199254740992) > 32)%Q /\
     (roundToDouble (inject_Z 96 * (3002399751580331 # 9007199254740992))
      == 32)%Q).
Proof.
  split.
  - split; [reflexivity|]. split; [reflexivity|].
    destruct (findCompressSplitPoint_first_qualifying toolConversation (1 # 4)
                eq_refl eq_refl) as (k & Hk & _).
    exists k. split; [exact Hk|].
    assert (Hk2 : k = 2%nat) by (vm_compute in Hk; congruence).
    split; [exact Hk2|]. subst k. repeat split.
  - split; [reflexivity|]. split; [reflexivity|].
    destruct (findCompressSplitPoint_first_qualifying thirds
                (3002399751580331 # 9007199254740992) eq_refl eq_refl)
      as (k & Hk & _).
    exists k. split; [exact Hk|].
    assert (Hk1 : k = 1%nat) by (vm_compute in Hk; congruence).
    split; [exact Hk1|]. subst k. vm_compute. repeat split.
Defined.





Definition quiet : Env := scripted (fun _ => []) (Some "user") 1048576 None.


(** The rebuilt greeting is estimated at 78 tokens. *)
Definition unchangedSize : result (Client * ChatCompressionInfo) :=
  tryCompressChat quiet (client greeting 78) "p" true.

(** C3, as stated, fails when the two counts are equal: the rebuild is
    adopted and the status is COMPRESSED. *)
Lemma equal_token_count_is_compressed :
  exists st' info,
    unchangedSize = Ok (st', info) /\
    newTokenCount info >= originalTokenCount info /\
    compressionStatus info = COMPRESSED /\
    chat st' <> chat (client greeting 78).
Proof.
  eexists. eexists. split; [vm_compute; reflexivity|].
  split; [discriminate|]. split; [reflexivity|]. discriminate.
Qed.

Definition forcedInflated : result (Client * ChatCompressionInfo) :=
  tryCompressChat quiet (client greeting 0) "p" true.

Lemma tryCompressChat_inflation_guard_witness :
  exists st' info,
    forcedInflated = Ok (st', info) /\
    compressionStatus info <> NOOP /\
    compressionStatus info = COMPRESSION_FAILED_INFLATED_TOKEN_COUNT /\
    chat st' = chat (client greeting 0) /\
    hasFailedCompressionAttempt st' = false.
Proof.
  destruct forcedInflated as [[st' info]|message] eqn:Hcall;
    [|vm_compute in Hcall; discriminate].
  exists st', info. split; [reflexivity|].
  assert (Hstatus : compressionStatus info <> NOOP).
  { vm_compute in Hcall. injection Hcall as <- <-. discriminate. }
  split; [exact Hstatus|].
  destruct (tryCompressChat_inflation_guard quiet (client greeting 0) "p" true
              st' info Hcall Hstatus)
    as (rebuilt & _ & _ & _ & Hfail & _).
  assert (Hgt : newTokenCount info > originalTokenCount info).
  { vm_compute in Hcall. injection Hcall as <- <-. reflexivity. }
  destruct (Hfail Hgt) as (Hs & Hchat & _ & Hflag).
  split; [exact Hs|]. split; [exact Hchat|exact Hflag].
Defined.

(** An environment in which the next-speaker check always answers
    "model". *)
Definition talkative : Env := scripted (fun _ => []) (Some "model") 1048576 None.

(** A client whose chat is the greeting, in any state of its sequence
    fields. *)
Definition conversing (n : Z) (lastId : string) (sticky : option string)
    (lastSent : option IdeContext) (forceFull : bool) (tr : list Action) : Client :=
  mkClient (mkGeminiChat greeting "memory") n lastId sticky lastSent forceFull
    (Some "memory") false 0 tr.

(** With a negative number of turns, an invocation of the talkative
    environment runs its turn and asks for a continuation with one turn
    less. *)
Lemma talkative_invocation_continues (n : Z) (lastId : string)
    (sticky : option string) (lastSent : option IdeContext) (forceFull : bool)
    (tr : list Action) (request : PartListUnion) (turns : Z) (retry : bool) :
  turns < 0 ->
  estimateRequestTokenCount request < 900000 ->
  let st := conversing n lastId sticky lastSent forceFull tr in
  let inv := sendMessageStreamInvocation talkative st request neverAborted "p"
               turns retry in
  outcome inv = Delegate continueRequest (turns - 1) false newTurn /\
  modelCalls (after inv) = S (modelCalls st) /\
  exists n' sticky' lastSent' forceFull' tr',
    after inv = conversing n' "p" sticky' lastSent' forceFull' tr'.
Proof.
  intros Hneg Hsmall st inv.
  assert (Hreach : ReachesWindowCheck talkative st "p" turns).
  { split; [reflexivity|]. unfold MAX_TURNS. lia. }
  assert (Hfits : contextWindowWillOverflow (estimateRequestTokenCount request)
                    (remainingTokens talkative (beginInvocation st "p")) = false).
  { unfold contextWindowWillOverflow, Qlt_bool.
    apply negb_false_iff. apply Qle_bool_iff.
    replace (remainingTokens talkative (beginInvocation st "p")) with 1048576.
    2:{ unfold st, conversing, beginInvocation. cbn [lastPromptId].
        destruct (lastId =? "p")%string; vm_compute; reflexivity. }
    unfold Qle. cbn. lia. }
  destruct (invocation_reaches_turn talkative st request neverAborted "p" turns
              retry Hreach Hfits) as (st2 & info & Hc & Heq).
  unfold inv. rewrite Heq. clear Heq.
  rewrite Z.min_l by (unfold MAX_TURNS; lia).
  assert (Hst2 : st2 = beginInvocation st "p" /\ compressionStatus info = NOOP).
  { assert (Hstatus : compressionStatus info = NOOP).
    { apply (f_equal (fun r => match r with
                               | Ok (_, i) => compressionStatus i
                               | Throw _ => NOOP
                               end)) in Hc.
      rewrite <- Hc. unfold st, conversing, beginInvocation. cbn [lastPromptId].
      destruct (lastId =? "p")%string; vm_compute; reflexivity. }
    split; [|exact Hstatus].
    eapply tryCompressChat_NOOP_unchanged; eassumption. }
  destruct Hst2 as [-> ->].
  unfold st, conversing, beginInvocation. cbn [lastPromptId].
  destruct (lastId =? "p")%string eqn:E.
  - apply String.eqb_eq in E. subst lastId.
    destruct sticky as [[|c s]|]; vm_compute; repeat split;
      do 5 eexists; reflexivity.
  - destruct sticky as [[|c s]|]; vm_compute; repeat split;
      do 5 eexists; reflexivity.
Qed.

Lemma talkative_never_ends (fuel : nat) :
  forall (n : Z) (lastId : string) (sticky : option string)
         (lastSent : option IdeContext) (forceFull : bool) (tr : list Action)
         (request : PartListUnion) (turns : Z) (retry : bool),
    turns < 0 ->
    estimateRequestTokenCount request < 900000 ->
    let st := conversing n lastId sticky lastSent forceFull tr in
    let run := sendMessageStream talkative fuel st request neverAborted "p" turns
                 retry in
    modelCalls (final run) = (fuel + modelCalls st)%nat /\
    completion run = OutOfFuel.
Proof.
  induction fuel as [|fuel IH];
    intros n lastId sticky lastSent forceFull tr request turns retry Hneg Hsmall
      st run.
  - split; reflexivity.
  - unfold run. cbn [sendMessageStream].
    destruct (talkative_invocation_continues n lastId sticky lastSent forceFull tr
                request turns retry Hneg Hsmall)
      as (Hout & Hcalls & n' & sticky' & lastSent' & forceFull' & tr' & Hafter).
    fold st in Hout, Hcalls, Hafter. rewrite Hout. cbn [final completion].
    rewrite Hafter.
    destruct (IH n' "p" sticky' lastSent' forceFull' tr' continueRequest
                (turns - 1) false) as [Hfinal Hcompletion];
      [lia|reflexivity|].
    rewrite Hfinal, Hcompletion, <- Hafter, Hcalls.
    split; [lia|reflexivity].
Qed.

(** C4 fails for a negative number of turns: the clamp leaves -1, which
    is not zero, every continuation moves further from zero, and any
    number of invocations make as many model calls without coming to an
    end. *)
Theorem negative_turns_never_reach_zero :
  forall fuel : nat,
    let run := sendMessageStream talkative fuel (client greeting 0) hello
                 neverAborted "p" (-1) false in
    modelCalls (final run) = fuel /\ completion run = OutOfFuel.
Proof.
  intros fuel.
  destruct (talkative_never_ends fuel 0 "session" None None true [] hello (-1)
              false) as [Hcalls Hcompletion]; [lia|reflexivity|].
  split; [|exact Hcompletion].
  change (client greeting 0) with (conversing 0 "session" None None true []).
  rewrite Hcalls. cbn. lia.
Qed.

Example after_150_invocations :
  let run := sendMessageStream talkative 150 (client greeting 0) hello
               neverAborted "p" (-1) false in
  modelCalls (final run) = 150%nat /\
  sessionTurnCount (final run) = 150 /\
  completion run = OutOfFuel.
Proof. vm_compute. repeat split. Qed.

Example three_turns_make_three_calls :
  let run := sendMessageStream talkative 150 (client greeting 0) hello
               neverAborted "p" 3 false in
  modelCalls (final run) = 3%nat /\ completion run = Done newTurn.
Proof. vm_compute. repeat split. Qed.

Example many_turns_make_100_calls :
  let run := sendMessageStream talkative 150 (client greeting 0) hello
               neverAborted "p" 1000 false in
  modelCalls (final run) = 100%nat /\ completion run = Done newTurn.
Proof. vm_compute. repeat split. Qed.

(** A request whose serialized form has 382 characters (estimate 95),
    and one with 386 (estimate 96), against a budget of 100 tokens. *)
Definition small : Env := scripted (fun _ => []) (Some "user") 100 None.

Definition request380 : PartListUnion :=
  RequestString (string_of_list_ascii (repeat "a"%char 380)).

Definition request384 : PartListUnion :=
  RequestString (string_of_list_ascii (repeat "a"%char 384)).

Lemma contextWindow_guard_witness :
  ReachesWindowCheck small (client greeting 0) "p" 100 /\
  (forall e r,
      ~ In (ContextWindowWillOverflow e r)
          (yielded (sendMessageStreamInvocation small (client greeting 0)
                      request380 neverAborted "p" 100 false))) /\
  yielded (sendMessageStreamInvocation small (client greeting 0) request384
             neverAborted "p" 100 false) =
  [ContextWindowWillOverflow 96 100].
Proof.
  assert (Hreach : ReachesWindowCheck small (client greeting 0) "p" 100)
    by (split; [reflexivity|discriminate]).
  split; [exact Hreach|]. split.
  - destruct (contextWindow_guard small (client greeting 0) request380
                neverAborted "p" 100 false Hreach) as (_ & Hfits & _).
    apply Hfits. vm_compute. discriminate.
  - destruct (contextWindow_guard small (client greeting 0) request384
                neverAborted "p" 100 false Hreach) as (Hover & _).
    destruct Hover as (Hyield & _); [reflexivity|].
    exact Hyield.
Defined.

(** An environment whose turns end in an invalid stream. *)
Definition broken : Env :=
  scripted (fun _ => [Forwarded "content" (JSON.Str "x"); InvalidStream])
    (Some "user") 1048576 None.

Lemma invalid_stream_retried_once_witness :
  getContinueOnFailedApiCall broken = true /\
  let run := sendMessageStream broken 5 (client greeting 0) hello neverAborted
               "p" 100 false in
  modelCalls (final run) = 2%nat /\
  retryFailures (trace (final run)) =
    [(4, "FAILED_AFTER_PROMPT_INJECTION", "gemini-2.5-pro")] /\
  completion run = Done newTurn /\
  (exists turn,
      outcome (sendMessageStreamInvocation broken (client greeting 0) hello
                 neverAborted "p" 100 false) =
      Delegate (RequestList [PartObject (textPart "System: Please continue.")])
        99 true turn) /\
  In (TurnRun "gemini-2.5-pro"
        (RequestList [PartObject (textPart "System: Please continue.")]))
     (trace (final run)).
Proof.
  split; [reflexivity|].
  assert (H1 : In (FromTurn InvalidStream)
                 (yielded (sendMessageStreamInvocation broken (client greeting 0)
                             hello neverAborted "p" 100 false)))
    by (vm_compute; right; left; reflexivity).
  assert (H2 : In (FromTurn InvalidStream)
                 (yielded
                    (sendMessageStreamInvocation broken
                       (after (sendMessageStreamInvocation broken
                                 (client greeting 0) hello neverAborted "p" 100
                                 false))
                       (RequestList
                          [PartObject (textPart "System: Please continue.")])
                       neverAborted "p" (Z.min 100 MAX_TURNS - 1)
                       true)))
    by (vm_compute; right; left; reflexivity).
  destruct (invalid_stream_retried_once broken (client greeting 0) hello
              neverAborted "p" 100 eq_refl) as (Hone & _ & Htwo).
  destruct (Hone H1) as (_ & Hdelegate & _).
  destruct (Htwo H1 H2 3%nat) as (_ & _ & _ & Hcalls & _).
  split; [exact Hcalls|]. split; [reflexivity|]. split; [reflexivity|].
  split; [exact Hdelegate|].
  vm_compute. repeat (first [left; reflexivity|right]).
Defined.

(** C6, as stated, fails when the invocation of a new prompt id stops
    before model selection: here the request does not fit the context
    window, and the router is not invoked. *)
Definition cramped : Env := scripted (fun _ => []) (Some "user") 1 None.

Lemma new_prompt_id_without_routing :
  let st := client greeting 0 in
  let run := sendMessageStream cramped 5 st hello neverAborted "p" 100 false in
  lastPromptId st <> "p" /\
  lastPromptId (final run) = "p" /\
  emitted run = [ContextWindowWillOverflow 1 1] /\
  routerCalls (final run) = 0%nat /\
  completion run = Done newTurn.
Proof.
  cbv zeta. split; [discriminate|]. vm_compute. repeat split.
Qed.

Definition twoCalls : list Call :=
  [mkCall hello neverAborted 100 false; mkCall hello neverAborted 100 false].

Lemma sticky_model_per_sequence_witness :
  (forall st h request, route talkative st h request <> EmptyString) /\
  routerCalls (sendMessages talkative 150 (client greeting 0) "p" twoCalls) = 1%nat /\
  modelCalls (sendMessages talkative 150 (client greeting 0) "p" twoCalls) = 200%nat /\
  exists rs ms,
    routed (trace (sendMessages talkative 150 (client greeting 0) "p" twoCalls)) =
      rs ++ routed (trace (client greeting 0)) /\
    modelsRun (trace (sendMessages talkative 150 (client greeting 0) "p" twoCalls)) =
      ms ++ modelsRun (trace (client greeting 0)) /\
    (List.length rs <= 1)%nat.
Proof.
  assert (Hroute : forall st h request, route talkative st h request <> EmptyString)
    by (intros st h request; discriminate).
  split; [exact Hroute|].
  split; [vm_compute; reflexivity|]. split; [vm_compute; reflexivity|].
  destruct (sticky_model_per_sequence talkative Hroute) as [Hseq _].
  destruct (Hseq 150%nat (client greeting 0) "p" twoCalls)
    as (rs & ms & Hr & Hm & Hlen & _).
  exists rs, ms. split; [exact Hr|]. split; [exact Hm|exact Hlen].
Defined.

(** Editor snapshots: the same active file, with and without cursor. *)
Definition withCursor : IdeContext :=
  mkIdeContext
    (Some (mkWorkspaceState
             (Some [mkFile "a.ts" 1 (Some true) (Some (mkCursor 1 1)) None]) None)).

Definition cursorAt (l c : Z) : IdeContext :=
  mkIdeContext
    (Some (mkWorkspaceState
             (Some [mkFile "a.ts" 2 (Some true) (Some (mkCursor l c)) None]) None)).

Definition withoutCursor : IdeContext :=
  mkIdeContext
    (Some (mkWorkspaceState
             (Some [mkFile "a.ts" 2 (Some true) None None]) None)).

(** C9, as stated, fails when the cursor disappears: the cursors of the
    two snapshots differ and no change is reported. *)
Lemma cursor_lost_is_not_reported :
  exists lst cur,
    activeFileOf (openFilesOf withCursor) = Some lst /\
    activeFileOf (openFilesOf withoutCursor) = Some cur /\
    path lst = path cur /\
    cursor lst <> cursor cur /\
    ideContextChanges withCursor withoutCursor = [] /\
    contextParts (getIdeContextParts (Some withoutCursor) (Some withCursor) false)
      = [].
Proof.
  eexists. eexists. split; [reflexivity|]. split; [reflexivity|].
  split; [reflexivity|]. split; [discriminate|]. split; reflexivity.
Qed.

Lemma getIdeContextParts_delta_changes_witness :
  activeFileOf (openFilesOf withCursor) =
    Some (mkFile "a.ts" 1 (Some true) (Some (mkCursor 1 1)) None) /\
  activeFileOf (openFilesOf (cursorAt 3 1)) =
    Some (mkFile "a.ts" 2 (Some true) (Some (mkCursor 3 1)) None) /\
  In (cursorMovedChange (mkFile "a.ts" 2 (Some true) (Some (mkCursor 3 1)) None)
        (mkCursor 3 1))
     (ideContextChanges withCursor (cursorAt 3 1)).
Proof.
  split; [reflexivity|]. split; [reflexivity|].
  destruct (getIdeContextParts_delta_changes withCursor (cursorAt 3 1)
              (mkFile "a.ts" 1 (Some true) (Some (mkCursor 1 1)) None)
              (mkFile "a.ts" 2 (Some true) (Some (mkCursor 3 1)) None)
              eq_refl eq_refl eq_refl) as (Hcursor & _).
  destruct (Hcursor (mkCursor 3 1) eq_refl) as [Hin _]; [discriminate|].
  exact Hin.
Defined.

(** The editor context is appended to a history that ends with a model
    text, and held back while a tool call waits for its response. *)
Definition editing : Env := scripted (fun _ => []) (Some "user") 1048576 (Some withCursor).

Example editor_context_is_appended :
  List.length
    (historyAdded
       (trace (after (sendMessageStreamInvocation editing (client greeting 0) hello
                        neverAborted "p" 100 false)))) = 1%nat.
Proof. reflexivity. Qed.

Example editor_context_waits_for_tool_response :
  historyAdded
    (trace (after (sendMessageStreamInvocation editing (client toolCallPending 0)
                     hello neverAborted "p" 100 false))) = [].
Proof. reflexivity. Qed.

(** A router that answers with the empty string is asked again by the
    next call of the sequence: the test of the sticky model takes the
    empty string for no model. *)
Definition unnamed : Env :=
  mkEnv 0 (fun _ => "auto") (fun _ => false) (fun _ => "memory") true true
    (fun _ => false) false None "auto" "gemini-2.5-pro" (fun _ model => model)
    (fun _ => 1048576) (fun memory => memory) (fun _ => [textPart "cwd"])
    (fun history => history) (fun _ => None) (fun _ => false) (fun _ _ => false)
    (fun _ _ _ => EmptyString) (fun st _ _ => script st []) (fun _ _ => Some "user")
    (fun _ _ _ _ => Some "summary").

Example empty_model_identifier_is_routed_again :
  routerCalls (sendMessages unnamed 5 (client greeting 0) "p" twoCalls) = 2%nat.
Proof. reflexivity. Qed.

End Instances.
(** * Further properties of the client *)

(** ** The session turn limit *)

Section SessionTurns.

Variable env : Env.

Lemma beginInvocation_sessionTurnCount (st : Client) (prompt_id : string) :
  sessionTurnCount (beginInvocation st prompt_id) = sessionTurnCount st + 1.
Proof.
  unfold beginInvocation. case_cond; reflexivity.
Qed.

Lemma consumeStream_sessionTurnCount (script : TurnScript) (model : string)
    (retry : bool) (pending : list TurnEvent) :
  forall (pulled : nat) (st : Client),
    sessionTurnCount
      (streamClient (consumeStream env script model retry pending pulled st)) =
    sessionTurnCount st.
Proof.
  induction pending as [|event rest IH]; intros pulled st; cbn [consumeStream].
  - reflexivity.
  - destruct (addAndCheck env _ event); [reflexivity|].
    destruct event as [|message|kind value].
    + destruct (getContinueOnFailedApiCall env).
      * destruct retry; reflexivity.
      * cbn [streamClient]. rewrite IH. reflexivity.
    + reflexivity.
    + cbn [streamClient]. rewrite IH. reflexivity.
Qed.

Lemma runTurn_sessionTurnCount (st : Client) (request : PartListUnion)
    (signal : AbortSignal) (prompt_id : string) (boundedTurns : Z)
    (retry : bool) (before : list ServerGeminiStreamEvent) :
  sessionTurnCount
    (after (runTurn env st request signal prompt_id boundedTurns retry before)) =
  sessionTurnCount st.
Proof.
  unfold runTurn.
  destruct (turnStarted env st); [reflexivity|].
  assert (Hsel : sessionTurnCount
                   (fst (selectModel env (log LoopDetectorTurnStarted st) request)) =
                 sessionTurnCount st).
  { unfold selectModel. case_cond; reflexivity. }
  destruct (selectModel env _ request) as [st1 model]. cbn [fst] in Hsel.
  set (script := turnRun env st1 model request).
  set (st2 := log (TurnRun model request) st1).
  pose proof (consumeStream_sessionTurnCount script model retry (events script)
                0%nat st2) as Hstream.
  set (r := consumeStream env script model retry (events script) 0 st2) in *.
  assert (Hr : sessionTurnCount (streamClient r) = sessionTurnCount st).
  { rewrite Hstream. exact Hsel. }
  destruct (streamEnd r); cbn [after]; try exact Hr.
  pose proof (afterStream_spec env (streamClient r) signal prompt_id boundedTurns
                (streamTurn r)) as [[] _].
  destruct (afterStream env (streamClient r) signal prompt_id boundedTurns
              (streamTurn r)) as [st3 result].
  cbn [fst after] in *. congruence.
Qed.

(** Every invocation, whatever it goes on to do, counts as one session
    turn. *)
Lemma invocation_sessionTurnCount (st : Client) (request : PartListUnion)
    (signal : AbortSignal) (prompt_id : string) (turns : Z) (retry : bool) :
  sessionTurnCount
    (after (sendMessageStreamInvocation env st request signal prompt_id turns
              retry)) =
  sessionTurnCount st + 1.
Proof.
  unfold sendMessageStreamInvocation.
  pose proof (beginInvocation_sessionTurnCount st prompt_id) as Hb.
  set (st1 := beginInvocation st prompt_id) in *.
  destruct (sessionTurnsExceeded env st1); [exact Hb|].
  destruct (_ =? 0); [exact Hb|].
  destruct (contextWindowWillOverflow _ _); [exact Hb|].
  destruct (tryCompressChat_returns env st1 prompt_id false) as (st2 & info & Hc).
  rewrite Hc.
  pose proof (tryCompressChat_SameCalls env _ _ _ _ _ Hc) as [_ _ _ _ _ _ Cc].
  pose proof (refreshSystemInstruction_SameCalls env st2) as [_ _ _ _ _ _ Rc].
  pose proof (injectIdeContext_calls env (refreshSystemInstruction env st2))
    as (_ & _ & _ & _ & _ & Ic).
  rewrite runTurn_sessionTurnCount. congruence.
Qed.

(** At the limit, an invocation yields [MaxSessionTurns] and nothing
    else, and leaves the chat, the router and the model alone. *)
Lemma invocation_at_session_limit (st : Client) (request : PartListUnion)
    (signal : AbortSignal) (prompt_id : string) (turns : Z) (retry : bool) :
  0 < getMaxSessionTurns env ->
  getMaxSessionTurns env <= sessionTurnCount st ->
  sendMessageStreamInvocation env st request signal prompt_id turns retry =
  mkInvocation [MaxSessionTurns] (beginInvocation st prompt_id) (Return newTurn).
Proof.
  intros Hpos Hreached.
  unfold sendMessageStreamInvocation, sessionTurnsExceeded.
  rewrite beginInvocation_sessionTurnCount.
  replace (getMaxSessionTurns env >? 0) with true
    by (symmetry; apply Z.gtb_lt; lia).
  replace (sessionTurnCount st + 1 >? getMaxSessionTurns env) with true
    by (symmetry; apply Z.gtb_lt; lia).
  reflexivity.
Qed.

(** The number of model calls a whole call may still make, and the
    number of invocations that is enough to complete it. *)
Definition sessionBudget (st : Client) : Z :=
  Z.max 0 (getMaxSessionTurns env - sessionTurnCount st).

(** X1: with a positive session turn limit, a call of
    [sendMessageStream], its recursive invocations included, makes at
    most as many model calls as session turns are left, every model call
    uses up a session turn, and the call completes, whatever the number
    of turns passed (a negative one included). *)
Theorem session_limit_bounds_model_calls (signal : AbortSignal)
    (prompt_id : string) :
  0 < getMaxSessionTurns env ->
  forall (fuel : nat) (st : Client) (request : PartListUnion) (turns : Z)
         (retry : bool),
    let r := sendMessageStream env fuel st request signal prompt_id turns retry in
    exists ms,
      modelsRun (trace (final r)) = ms ++ modelsRun (trace st) /\
      Z.of_nat (List.length ms) <= sessionBudget st /\
      Z.of_nat (List.length ms) <= sessionTurnCount (final r) - sessionTurnCount st /\
      (sessionBudget st < Z.of_nat fuel -> completion r <> OutOfFuel).
Proof.
  intros Hpos.
  induction fuel as [|fuel IH]; intros st request turns retry.
  - exists []. cbn. unfold sessionBudget. repeat split; lia.
  - cbn [sendMessageStream].
    pose proof (invocation_routing env st request signal prompt_id turns retry)
      as (_ & (rs & ms & _ & Hms & Hlen & _) & _).
    pose proof (invocation_sessionTurnCount st request signal prompt_id turns retry)
      as Hcount.
    destruct (Z_lt_le_dec (sessionTurnCount st) (getMaxSessionTurns env))
      as [Hleft|Hreached].
    + set (inv := sendMessageStreamInvocation env st request signal prompt_id
                    turns retry) in *.
      assert (Hbudget : sessionBudget (after inv) = sessionBudget st - 1).
      { unfold sessionBudget. rewrite Hcount. lia. }
      assert (Hpositive : 1 <= sessionBudget st) by (unfold sessionBudget; lia).
      destruct (outcome inv) as [turn|nextRequest turns' retry' turn|message].
      * cbn. exists ms. repeat split; auto; try lia. discriminate.
      * cbn [final completion].
        destruct (IH (after inv) nextRequest turns' retry')
          as (ms' & Hms' & Hlen' & Hcount' & Hfuel').
        exists (ms' ++ ms). rewrite Hms', Hms, app_assoc, length_app.
        split; [reflexivity|]. split; [lia|]. split; [lia|].
        intros Hf.
        destruct (completion (sendMessageStream env fuel (after inv) nextRequest
                                signal prompt_id turns' retry')) eqn:Ecomp;
          try discriminate.
        exfalso. apply Hfuel'; [lia|reflexivity].
      * cbn. exists ms. repeat split; auto; try lia. discriminate.
    + rewrite (invocation_at_session_limit st request signal prompt_id turns retry
                 Hpos Hreached) in *.
      cbn [outcome after yielded final completion] in *.
      exists []. unfold sessionBudget.
      rewrite beginInvocation_sessionTurnCount.
      pose proof (beginInvocation_calls st prompt_id) as (_ & B2 & _).
      cbn [app List.length]. repeat split; auto; try lia. discriminate.
Qed.

End SessionTurns.
(** ** The events of a call *)

Section CallEvents.

Variable env : Env.

(** X2: once the session turn counter has reached a positive limit, a
    call yields [MaxSessionTurns] and nothing else, makes no routing and
    no model call, leaves the chat as it is, and leaves the counter
    above the limit: every later call is answered the same way. *)
Theorem session_limit_is_final (st : Client) (request : PartListUnion)
    (signal : AbortSignal) (prompt_id : string) (turns : Z) (retry : bool)
    (fuel : nat) :
  0 < getMaxSessionTurns env ->
  getMaxSessionTurns env <= sessionTurnCount st ->
  let r := sendMessageStream env (S fuel) st request signal prompt_id turns
             retry in
  emitted r = [MaxSessionTurns] /\
  completion r = Done newTurn /\
  chat (final r) = chat st /\
  routerCalls (final r) = routerCalls st /\
  modelCalls (final r) = modelCalls st /\
  getMaxSessionTurns env <= sessionTurnCount (final r).
Proof.
  intros Hpos Hreached. cbn [sendMessageStream].
  rewrite (invocation_at_session_limit env st request signal prompt_id turns
             retry Hpos Hreached).
  cbn [outcome yielded after emitted completion final].
  pose proof (beginInvocation_calls st prompt_id) as (B1 & B2 & _ & _ & _ & B6 & _).
  unfold routerCalls, modelCalls.
  rewrite B1, B2, B6, beginInvocation_sessionTurnCount.
  repeat split; lia.
Qed.

(** The events after which the generator returns. *)
Definition EndsCall (e : ServerGeminiStreamEvent) : Prop :=
  match e with
  | MaxSessionTurns | ContextWindowWillOverflow _ _ | LoopDetected
  | FromTurn (Error _) => True
  | ChatCompressed _ | FromTurn InvalidStream | FromTurn (Forwarded _ _) => False
  end.

Definition GoesOn (e : ServerGeminiStreamEvent) : Prop := ~ EndsCall e.

Lemma Forall_removelast {A : Type} (P : A -> Prop) (l : list A) :
  Forall P l -> Forall P (removelast l).
Proof.
  induction 1 as [|x l Hx Hl IH]; [constructor|].
  cbn [removelast]. destruct l; [constructor|].
  constructor; assumption.
Qed.

Lemma Forall_removelast_app {A : Type} (P : A -> Prop) (a b : list A) :
  Forall P a -> Forall P (removelast b) -> Forall P (removelast (a ++ b)).
Proof.
  intros Ha Hb. destruct b as [|x b].
  - rewrite app_nil_r. apply Forall_removelast. exact Ha.
  - rewrite removelast_app by discriminate.
    apply Forall_app. split; assumption.
Qed.

(** No [Error] among the events [l]. *)
Definition NoError (l : list TurnEvent) : Prop :=
  forall message, ~ In (Error message) l.

(** The events yielded while the stream of a turn is consumed: the
    events [forwarded], which with the events [dropped] are the events of
    the turn, and [LoopDetected] when the loop detector fired. *)
Definition ForwardedPrefix (pending : list TurnEvent) (r : StreamResult)
    (forwarded dropped : list TurnEvent) : Prop :=
  pending = forwarded ++ dropped /\
  streamed r =
    map FromTurn forwarded ++
    (match streamEnd r with LoopFound => [LoopDetected] | _ => [] end) /\
  match streamEnd r with
  | LoopFound => dropped <> [] /\ NoError forwarded
  | Exhausted => dropped = [] /\ NoError forwarded
  | Errored =>
      exists pre message, forwarded = pre ++ [Error message] /\ NoError pre
  | Retry | RetryExhausted =>
      exists pre, forwarded = pre ++ [InvalidStream] /\ NoError pre
  end.

Lemma NoError_cons (event : TurnEvent) (l : list TurnEvent) :
  (forall message, event <> Error message) -> NoError l -> NoError (event :: l).
Proof.
  intros Hev Hl message [H|H]; [exact (Hev message H)|exact (Hl message H)].
Qed.

Lemma NoError_nil : NoError [].
Proof. intros message []. Qed.

Lemma ForwardedPrefix_cons (event : TurnEvent) (rest : list TurnEvent)
    (r : StreamResult) (forwarded dropped : list TurnEvent) :
  (forall message, event <> Error message) ->
  ForwardedPrefix rest r forwarded dropped ->
  ForwardedPrefix (event :: rest)
    (mkStreamResult (FromTurn event :: streamed r) (streamClient r)
       (streamEnd r) (streamTurn r)) (event :: forwarded) dropped.
Proof.
  intros Hev (Hp & Hs & He). unfold ForwardedPrefix.
  cbn [streamed streamEnd map app].
  split; [rewrite Hp; reflexivity|].
  split; [rewrite Hs; reflexivity|].
  destruct (streamEnd r).
  - destruct He as [Hd Hn]. split; [exact Hd|]. apply NoError_cons; assumption.
  - destruct He as (pre & -> & Hn). exists (event :: pre).
    split; [reflexivity|]. apply NoError_cons; assumption.
  - destruct He as (pre & -> & Hn). exists (event :: pre).
    split; [reflexivity|]. apply NoError_cons; assumption.
  - destruct He as (pre & message & -> & Hn). exists (event :: pre), message.
    split; [reflexivity|]. apply NoError_cons; assumption.
  - destruct He as [Hd Hn]. split; [exact Hd|]. apply NoError_cons; assumption.
Qed.

Lemma consumeStream_forwarded (script : TurnScript) (model : string)
    (retry : bool) (pending : list TurnEvent) :
  forall (pulled : nat) (st : Client),
    exists forwarded dropped,
      ForwardedPrefix pending
        (consumeStream env script model retry pending pulled st)
        forwarded dropped.
Proof.
  induction pending as [|event rest IH]; intros pulled st; cbn [consumeStream].
  - exists [], []. unfold ForwardedPrefix. cbn.
    repeat split; auto using NoError_nil.
  - destruct (addAndCheck env _ event).
    { exists [], (event :: rest). unfold ForwardedPrefix. cbn.
      repeat split; auto using NoError_nil. discriminate. }
    set (st1 := log (LoopDetectorAddAndCheck event) (advance script (S pulled) st)).
    destruct (IH (S pulled) st1) as (forwarded & dropped & Hcut).
    destruct event as [|message|kind value].
    + destruct (getContinueOnFailedApiCall env).
      * destruct retry; exists [InvalidStream], rest; unfold ForwardedPrefix; cbn;
          (repeat split; auto); exists []; split; auto using NoError_nil.
      * exists (InvalidStream :: forwarded), dropped.
        apply ForwardedPrefix_cons; [discriminate|exact Hcut].
    + exists [Error message], rest. unfold ForwardedPrefix. cbn.
      repeat split; auto. exists [], message. split; auto using NoError_nil.
    + exists (Forwarded kind value :: forwarded), dropped.
      apply ForwardedPrefix_cons; [discriminate|exact Hcut].
Qed.

(** The answers of the loop detector when it is asked about [events] one
    after the other, as the loop does: about each event on the client
    the turn has advanced to, and logged before the next is pulled. *)
Fixpoint verdicts (script : TurnScript) (events : list TurnEvent)
    (pulled : nat) (st : Client) : list bool :=
  match events with
  | [] => []
  | event :: rest =>
      let st := advance script (S pulled) st in
      addAndCheck env st event ::
      verdicts script rest (S pulled) (log (LoopDetectorAddAndCheck event) st)
  end.









Lemma GoesOn_forwarded (l : list TurnEvent) :
  NoError l -> Forall GoesOn (map FromTurn l).
Proof.
  intros Hn. apply Forall_forall. intros e He.
  apply in_map_iff in He. destruct He as (event & <- & Hin).
  destruct event as [|message|kind value]; unfold GoesOn; cbn; auto.
  exfalso. exact (Hn message Hin).
Qed.

(** Of the events of a consumed stream only the last can end the call,
    and none does when the stream ran to its end or is retried. *)
Lemma consumeStream_events (script : TurnScript) (model : string)
    (retry : bool) (pending : list TurnEvent) (pulled : nat) (st : Client) :
  let r := consumeStream env script model retry pending pulled st in
  Forall GoesOn (removelast (streamed r)) /\
  (streamEnd r = Exhausted \/ streamEnd r = Retry -> Forall GoesOn (streamed r)).
Proof.
  intros r.
  destruct (consumeStream_forwarded script model retry pending pulled st)
    as (forwarded & dropped & Hp & Hs & He).
  fold r in Hs, He. rewrite Hs.
  destruct (streamEnd r).
  - destruct He as [_ Hn]. split; [|intros [H|H]; discriminate H].
    rewrite removelast_last. apply GoesOn_forwarded. exact Hn.
  - destruct He as (pre & -> & Hn). split; [|intros [H|H]; discriminate H].
    rewrite app_nil_r, map_app. cbn [map]. rewrite removelast_last.
    apply GoesOn_forwarded. exact Hn.
  - destruct He as (pre & -> & Hn).
    assert (Hall : Forall GoesOn (map FromTurn (pre ++ [InvalidStream]))).
    { rewrite map_app. apply Forall_app. split; [apply GoesOn_forwarded; exact Hn|].
      constructor; [|constructor]. unfold GoesOn. cbn. auto. }
    rewrite app_nil_r. split; [apply Forall_removelast; exact Hall|].
    intros _. exact Hall.
  - destruct He as (pre & message & -> & Hn).
    split; [|intros [H|H]; discriminate H].
    rewrite app_nil_r, map_app. cbn [map]. rewrite removelast_last.
    apply GoesOn_forwarded. exact Hn.
  - destruct He as [_ Hn]. rewrite app_nil_r.
    assert (Hall : Forall GoesOn (map FromTurn forwarded))
      by (apply GoesOn_forwarded; exact Hn).
    split; [apply Forall_removelast; exact Hall|]. intros _. exact Hall.
Qed.

(** What one invocation yields, by the way it ends. *)
Lemma invocation_events (st : Client) (request : PartListUnion)
    (signal : AbortSignal) (prompt_id : string) (turns : Z) (retry : bool) :
  let inv := sendMessageStreamInvocation env st request signal prompt_id turns
               retry in
  match outcome inv with
  | Delegate _ _ _ _ => Forall GoesOn (yielded inv)
  | _ => Forall GoesOn (removelast (yielded inv))
  end.
Proof.
  unfold sendMessageStreamInvocation.
  destruct (sessionTurnsExceeded env _); [constructor|].
  destruct (_ =? 0); [constructor|].
  destruct (contextWindowWillOverflow _ _); [constructor|].
  destruct (tryCompressChat env _ prompt_id false) as [[st2 info]|message];
    [|constructor].
  set (before := match compressionStatus info with
                 | COMPRESSED => [ChatCompressed info]
                 | _ => []
                 end).
  assert (Hbefore : Forall GoesOn before).
  { unfold before. destruct (compressionStatus info); repeat constructor.
    unfold GoesOn. cbn. auto. }
  generalize (injectIdeContext env (refreshSystemInstruction env st2)).
  intros st4. unfold runTurn.
  destruct (turnStarted env st4).
  { cbn [outcome yielded]. rewrite removelast_last. exact Hbefore. }
  destruct (selectModel env _ request) as [st5 model].
  set (script := turnRun env st5 model request).
  set (st6 := log (TurnRun model request) st5).
  pose proof (consumeStream_events script model retry (events script) 0%nat st6)
    as [Hinit Hall].
  cbv zeta in Hinit, Hall.
  set (r := consumeStream env script model retry (events script) 0 st6) in *.
  destruct (streamEnd r) eqn:Eend; cbn [outcome yielded].
  - apply Forall_removelast_app; assumption.
  - apply Forall_removelast_app; assumption.
  - apply Forall_app. split; [exact Hbefore|]. apply Hall. auto.
  - apply Forall_removelast_app; assumption.
  - assert (Hs : Forall GoesOn (before ++ streamed r)).
    { apply Forall_app. split; [exact Hbefore|]. apply Hall. auto. }
    destruct (afterStream env (streamClient r) signal prompt_id _ (streamTurn r))
      as [st7 [turn|nextRequest turns' retry' turn|message]]; cbn [outcome yielded].
    + apply Forall_removelast. exact Hs.
    + exact Hs.
    + apply Forall_removelast. exact Hs.
Qed.

(** X4: an event that ends the call ([MaxSessionTurns],
    [ContextWindowWillOverflow], [LoopDetected], an [Error] of the turn)
    is the last event of the call: nothing is yielded after it, by the
    invocation or by a continuation. *)
Theorem ending_event_is_last (signal : AbortSignal) (prompt_id : string) :
  forall (fuel : nat) (st : Client) (request : PartListUnion) (turns : Z)
         (retry : bool),
    let r := sendMessageStream env fuel st request signal prompt_id turns retry in
    Forall GoesOn (removelast (emitted r)).
Proof.
  induction fuel as [|fuel IH]; intros st request turns retry;
    cbn [sendMessageStream].
  - constructor.
  - pose proof (invocation_events st request signal prompt_id turns retry) as Hinv.
    cbv zeta in Hinv.
    destruct (outcome (sendMessageStreamInvocation env st request signal
                         prompt_id turns retry))
      as [turn|nextRequest turns' retry' turn|message]; cbn [emitted].
    + exact Hinv.
    + apply Forall_removelast_app; [exact Hinv|]. apply IH.
    + exact Hinv.
Qed.

End CallEvents.
(** ** The editor context *)

Section EditorContext.

Lemma mapHas_In (files : list File) (p : string) :
  mapHas files p = true <-> exists f, In f files /\ path f = p.
Proof.
  unfold mapHas. rewrite existsb_exists. split.
  - intros (f & Hin & Heq). exists f. split; [exact Hin|].
    apply String.eqb_eq. exact Heq.
  - intros (f & Hin & Heq). exists f. split; [exact Hin|].
    apply String.eqb_eq. exact Heq.
Qed.

Lemma existsb_eqb_In (p : string) (seen : list string) :
  existsb (String.eqb p) seen = true <-> In p seen.
Proof.
  rewrite existsb_exists. split.
  - intros (q & Hin & Heq). apply String.eqb_eq in Heq. subst. exact Hin.
  - intros Hin. exists p. split; [exact Hin|apply String.eqb_refl].
Qed.

(** The keys of the map of paths: every path of the files once. *)
Lemma mapKeys_In (files : list File) :
  forall seen p,
    In p (mapKeys seen files) <-> mapHas files p = true /\ ~ In p seen.
Proof.
  induction files as [|f rest IH]; intros seen p; cbn [mapKeys].
  - unfold mapHas. cbn. split; [intros []|intros [H _]; discriminate H].
  - assert (Hhas : mapHas (f :: rest) p = true <->
                   path f = p \/ mapHas rest p = true).
    { unfold mapHas. cbn [existsb]. rewrite orb_true_iff, String.eqb_eq.
      reflexivity. }
    rewrite Hhas.
    destruct (existsb (String.eqb (path f)) seen) eqn:Eseen.
    + apply existsb_eqb_In in Eseen. rewrite IH. split.
      * intros [H1 H2]. auto.
      * intros [[H1|H1] H2]; [subst; contradiction|auto].
    + assert (Hnot : ~ In (path f) seen).
      { intros H. apply existsb_eqb_In in H. congruence. }
      cbn [In]. rewrite IH. cbn [In]. split.
      * intros [H|[H1 H2]]; [subst; auto|]. split; [auto|].
        intros H. apply H2. right. exact H.
      * intros [[H1|H1] H2]; [left; exact H1|].
        destruct (string_dec (path f) p) as [Heq|Hneq]; [left; exact Heq|].
        right. split; [exact H1|]. intros [H|H]; contradiction.
Qed.

Lemma mapKeys_NoDup (files : list File) :
  forall seen, NoDup (mapKeys seen files).
Proof.
  induction files as [|f rest IH]; intros seen; cbn [mapKeys].
  - constructor.
  - destruct (existsb (String.eqb (path f)) seen); [apply IH|].
    constructor; [|apply IH].
    intros H. apply mapKeys_In in H. destruct H as [_ H]. apply H.
    left. reflexivity.
Qed.

(** The member [key] of an object given by its members. *)
Fixpoint member (key : string) (members : list (string * JSON.value))
  : option JSON.value :=
  match members with
  | [] => None
  | (k, v) :: rest => if String.eqb k key then Some v else member key rest
  end.

(** The paths of [files] that [others] has not. *)
Definition pathsNotIn (others files : list File) : list string :=
  filter (fun p => negb (mapHas others p)) (mapKeys [] files).

Lemma pathsNotIn_spec (others files : list File) :
  NoDup (pathsNotIn others files) /\
  forall p, In p (pathsNotIn others files) <->
            (exists f, In f files /\ path f = p) /\
            ~ (exists f, In f others /\ path f = p).
Proof.
  unfold pathsNotIn. split.
  - apply NoDup_filter. apply mapKeys_NoDup.
  - intros p. rewrite filter_In, mapKeys_In, negb_true_iff.
    rewrite <- (mapHas_In files), <- (mapHas_In others).
    destruct (mapHas others p); split.
    + intros [_ H]. discriminate H.
    + intros [_ H]. exfalso. apply H. reflexivity.
    + intros [[H _] _]. split; [exact H|discriminate].
    + intros [H _]. repeat split; auto.
Qed.

(** The part of the delta that follows the opened and closed files. *)
Definition activeFileChanges (lastFiles currentFiles : list File)
  : list (string * JSON.value) :=
  match activeFileOf currentFiles with
  | Some cur =>
      match activeFileOf lastFiles with
      | None => [("activeFileChanged", activeFileToJson cur)]
      | Some lst =>
          if negb (String.eqb (path lst) (path cur)) then
            [("activeFileChanged", activeFileToJson cur)]
          else
            (match cursor cur with
             | Some currentCursor =>
                 if cursorDiffers (cursor lst) currentCursor
                 then [cursorMovedChange cur currentCursor]
                 else []
             | None => []
             end) ++
            (if negb (String.eqb (orEmpty (selectedText lst))
                        (orEmpty (selectedText cur)))
             then [selectionChangedChange cur]
             else [])
      end
  | None =>
      match activeFileOf lastFiles with
      | Some lst =>
          [("activeFileChanged",
            JSON.Object [("path", JSON.Null); ("previousPath", JSON.Str (path lst))])]
      | None => []
      end
  end.

Lemma ideContextChanges_parts (lastSent current : IdeContext) :
  let lastFiles := openFilesOf lastSent in
  let currentFiles := openFilesOf current in
  let opened := pathsNotIn lastFiles currentFiles in
  let closed := pathsNotIn currentFiles lastFiles in
  ideContextChanges lastSent current =
  (match opened with
   | [] => []
   | _ => [("filesOpened", JSON.Array (map JSON.Str opened))]
   end) ++
  (match closed with
   | [] => []
   | _ => [("filesClosed", JSON.Array (map JSON.Str closed))]
   end) ++
  activeFileChanges lastFiles currentFiles.
Proof.
  cbv zeta. unfold ideContextChanges, activeFileChanges, pathsNotIn.
  f_equal; [|f_equal].
  - destruct (filter _ _); reflexivity.
  - destruct (filter _ _); reflexivity.
Qed.

Lemma member_app_skip (key : string) (a b : list (string * JSON.value)) :
  (forall k v, In (k, v) a -> k <> key) ->
  member key (a ++ b) = member key b.
Proof.
  induction a as [|[k v] a IH]; intros Ha; [reflexivity|].
  cbn [app member].
  destruct (String.eqb k key) eqn:E.
  - apply String.eqb_eq in E. exfalso. apply (Ha k v); [left; reflexivity|exact E].
  - apply IH. intros k' v' Hin. apply (Ha k' v'). right. exact Hin.
Qed.

Lemma activeFileChanges_keys (lastFiles currentFiles : list File) (k : string)
    (v : JSON.value) :
  In (k, v) (activeFileChanges lastFiles currentFiles) ->
  k = "activeFileChanged" \/ k = "cursorMoved" \/ k = "selectionChanged".
Proof.
  unfold activeFileChanges, cursorMovedChange, selectionChangedChange.
  repeat case_cond; cbn; intros H;
    repeat (destruct H as [H|H]; [injection H as <- _; auto|]);
    try contradiction.
Qed.

(** X5: in a delta, [filesOpened] lists, each once, the paths open now
    that were not open in the snapshot sent last, and is absent when
    there is none; [filesClosed] likewise lists the paths open then and
    not now. *)
Theorem delta_opened_and_closed_files (lastSent current : IdeContext) :
  let changes := ideContextChanges lastSent current in
  let openNow p := exists f, In f (openFilesOf current) /\ path f = p in
  let openBefore p := exists f, In f (openFilesOf lastSent) /\ path f = p in
  match member "filesOpened" changes with
  | Some v =>
      exists paths, v = JSON.Array (map JSON.Str paths) /\ NoDup paths /\
        forall p, In p paths <-> openNow p /\ ~ openBefore p
  | None => forall p, openNow p -> openBefore p
  end /\
  match member "filesClosed" changes with
  | Some v =>
      exists paths, v = JSON.Array (map JSON.Str paths) /\ NoDup paths /\
        forall p, In p paths <-> openBefore p /\ ~ openNow p
  | None => forall p, openBefore p -> openNow p
  end.
Proof.
  cbv zeta. rewrite ideContextChanges_parts. cbv zeta.
  destruct (pathsNotIn_spec (openFilesOf lastSent) (openFilesOf current))
    as [Hnd1 Hin1].
  destruct (pathsNotIn_spec (openFilesOf current) (openFilesOf lastSent))
    as [Hnd2 Hin2].
  assert (Hdec : forall files p,
            (exists f, In f files /\ path f = p) \/
            ~ (exists f, In f files /\ path f = p)).
  { intros files p. rewrite <- mapHas_In.
    destruct (mapHas files p); [left; reflexivity|right; discriminate]. }
  assert (Hrest : forall key,
            key = "filesOpened" \/ key = "filesClosed" ->
            member key (activeFileChanges (openFilesOf lastSent)
                          (openFilesOf current)) = None).
  { intros key Hkey.
    rewrite <- (app_nil_r (activeFileChanges _ _)).
    rewrite member_app_skip; [reflexivity|].
    intros k v Hin. apply activeFileChanges_keys in Hin.
    destruct Hkey as [-> | ->]; destruct Hin as [-> |[-> | ->]]; discriminate. }
  split.
  - destruct (pathsNotIn (openFilesOf lastSent) (openFilesOf current))
      as [|p0 paths] eqn:Eopened.
    + cbn [app].
      replace (member "filesOpened" _) with (@None JSON.value).
      * intros p Hnow. destruct (Hdec (openFilesOf lastSent) p) as [H|H]; [exact H|].
        exfalso. apply (proj2 (Hin1 p)). auto.
      * symmetry. destruct (pathsNotIn (openFilesOf current) (openFilesOf lastSent));
          cbn [app member String.eqb Ascii.eqb Bool.eqb]; auto.
    + cbn. exists (p0 :: paths). auto.
  - rewrite member_app_skip.
    2:{ intros k v. destruct (pathsNotIn (openFilesOf lastSent) (openFilesOf current));
          cbn; [intros []|intros [[= <- _]|[]]; discriminate]. }
    destruct (pathsNotIn (openFilesOf current) (openFilesOf lastSent))
      as [|p0 paths] eqn:Eclosed.
    + cbn [app]. rewrite Hrest by auto.
      intros p Hbefore. destruct (Hdec (openFilesOf current) p) as [H|H]; [exact H|].
      exfalso. apply (proj2 (Hin2 p)). auto.
    + cbn. exists (p0 :: paths). auto.
Qed.

(** The path of the active file of a snapshot. *)
Definition activePath (ctx : IdeContext) : option string :=
  option_map path (activeFileOf (openFilesOf ctx)).

Definition keys (members : list (string * JSON.value)) : list string :=
  map fst members.

Lemma activeFileChanges_shape (lastFiles currentFiles : list File) :
  let changes := activeFileChanges lastFiles currentFiles in
  let lastPath := option_map path (activeFileOf lastFiles) in
  let currentPath := option_map path (activeFileOf currentFiles) in
  (lastPath <> currentPath /\ keys changes = ["activeFileChanged"]) \/
  (lastPath = currentPath /\
   (keys changes = [] \/ keys changes = ["cursorMoved"] \/
    keys changes = ["selectionChanged"] \/
    keys changes = ["cursorMoved"; "selectionChanged"])).
Proof.
  cbv zeta. unfold activeFileChanges.
  destruct (activeFileOf currentFiles) as [cur|];
    destruct (activeFileOf lastFiles) as [lst|]; cbn [option_map].
  - destruct (String.eqb (path lst) (path cur)) eqn:E; cbn [negb].
    + apply String.eqb_eq in E. right. split; [congruence|].
      destruct (cursor cur) as [c|]; [destruct (cursorDiffers _ c)|];
        destruct (negb _); cbn; auto.
    + apply String.eqb_neq in E. left. split; [congruence|reflexivity].
  - left. split; [discriminate|reflexivity].
  - left. split; [discriminate|reflexivity].
  - right. split; [reflexivity|]. left. reflexivity.
Qed.

(** X6: the members of a delta have distinct names; [activeFileChanged]
    is a member exactly when the path of the active file differs between
    the two snapshots (a snapshot without active file counting as one
    without path), and [cursorMoved] and [selectionChanged] are reported
    only for an active file whose path is unchanged. *)
Theorem delta_members (lastSent current : IdeContext) :
  let names := keys (ideContextChanges lastSent current) in
  NoDup names /\
  (In "activeFileChanged" names <-> activePath lastSent <> activePath current) /\
  (In "cursorMoved" names \/ In "selectionChanged" names ->
   activePath lastSent = activePath current /\ activePath current <> None).
Proof.
  cbv zeta. rewrite ideContextChanges_parts. cbv zeta.
  unfold keys, activePath. rewrite !map_app.
  pose proof (activeFileChanges_shape (openFilesOf lastSent) (openFilesOf current))
    as Hshape.
  cbv zeta in Hshape. unfold keys in Hshape.
  assert (Hnone : activeFileOf (openFilesOf current) = None ->
                  ~ In "cursorMoved"
                      (map fst (activeFileChanges (openFilesOf lastSent)
                                  (openFilesOf current))) /\
                  ~ In "selectionChanged"
                      (map fst (activeFileChanges (openFilesOf lastSent)
                                  (openFilesOf current)))).
  { intros H. unfold activeFileChanges. rewrite H.
    destruct (activeFileOf (openFilesOf lastSent)); cbn; split; intros F;
      repeat (destruct F as [F|F]; [discriminate F|]); exact F. }
  set (opened := pathsNotIn (openFilesOf lastSent) (openFilesOf current)).
  set (closed := pathsNotIn (openFilesOf current) (openFilesOf lastSent)).
  set (rest := map fst (activeFileChanges (openFilesOf lastSent)
                          (openFilesOf current))) in *.
  set (o := map fst match opened with
                    | [] => []
                    | _ :: _ => [("filesOpened", JSON.Array (map JSON.Str opened))]
                    end).
  set (c := map fst match closed with
                    | [] => []
                    | _ :: _ => [("filesClosed", JSON.Array (map JSON.Str closed))]
                    end).
  assert (Ho : o = [] \/ o = ["filesOpened"])
    by (unfold o; destruct opened; cbn; auto).
  assert (Hc : c = [] \/ c = ["filesClosed"])
    by (unfold c; destruct closed; cbn; auto).
  clearbody o c rest.
  assert (Hcases :
    (activePath lastSent <> activePath current /\ rest = ["activeFileChanged"]) \/
    (activePath lastSent = activePath current /\
     (rest = [] \/ rest = ["cursorMoved"] \/ rest = ["selectionChanged"] \/
      rest = ["cursorMoved"; "selectionChanged"]))) by exact Hshape.
  clear Hshape. unfold activePath in Hcases.
  assert (Hdistinct : forall a b : string, a <> b -> NoDup [a; b]).
  { intros a b Hab. constructor; [intros [H|[]]; congruence|].
    constructor; [intros []|constructor]. }
  split; [|split].
  - destruct Ho as [-> | ->]; destruct Hc as [-> | ->];
      destruct Hcases as [[_ ->]|[_ [-> |[-> |[-> | ->]]]]]; cbn [app];
      repeat (constructor;
              [cbn [In]; intros H;
               repeat (destruct H as [H|H]; [discriminate H|]); exact H|]);
      constructor.
  - destruct Ho as [-> | ->]; destruct Hc as [-> | ->];
      destruct Hcases as [[Hne ->]|[Heq [-> |[-> |[-> | ->]]]]]; cbn [app In];
      split; intros H; auto;
      try (exfalso; repeat (destruct H as [H|H]; [discriminate H|]); exact H);
      try contradiction.
  - intros H.
    assert (Hrest : In "cursorMoved" rest \/ In "selectionChanged" rest).
    { destruct Ho as [-> | ->]; destruct Hc as [-> | ->]; cbn [app In] in H;
        destruct H as [H|H];
        repeat (destruct H as [H|H]; [discriminate H|]); auto. }
    destruct Hcases as [[_ ->]|[Heq _]].
    + exfalso. cbn in Hrest.
      destruct Hrest as [[F|[]]|[F|[]]]; discriminate F.
    + split; [exact Heq|].
      destruct (activeFileOf (openFilesOf current)) eqn:E; [discriminate|].
      exfalso. destruct (Hnone eq_refl) as [N1 N2].
      destruct Hrest; contradiction.
Qed.

(** Nothing has changed between a snapshot and itself. *)
Lemma ideContextChanges_same (ctx : IdeContext) : ideContextChanges ctx ctx = [].
Proof.
  rewrite ideContextChanges_parts. cbv zeta.
  unfold pathsNotIn. rewrite (no_new_keys (openFilesOf ctx) (openFilesOf ctx)) by auto.
  cbn [app]. unfold activeFileChanges.
  destruct (activeFileOf (openFilesOf ctx)) as [f|]; [|reflexivity].
  rewrite !String.eqb_refl. cbn [negb app].
  destruct (cursor f) as [c|] eqn:Ec; [|reflexivity].
  destruct (cursorDiffers (Some c) c) eqn:Ed; [|reflexivity].
  apply cursorDiffers_iff in Ed. congruence.
Qed.

Lemma ideContextData_nil (ctx : IdeContext) :
  ideContextData ctx = [] <-> openFilesOf ctx = [].
Proof.
  unfold ideContextData, activeFileOf.
  destruct (openFilesOf ctx) as [|f rest]; [cbn; tauto|].
  split; [|discriminate].
  cbn [find filter]. intros H. apply app_eq_nil in H. destruct H as [H1 H2].
  destruct (truthy (isActive f)); cbn in H1, H2; discriminate.
Qed.

(** X7: a full editor context is sent exactly when a file is open: with
    the full context forced, or with no snapshot sent before, no part is
    produced if and only if the list of open files is empty. *)
Theorem full_context_empty_iff_no_open_file (current : IdeContext)
    (lastSent : option IdeContext) (forceFullContext : bool) :
  (contextParts (getIdeContextParts (Some current) lastSent true) = [] <->
   openFilesOf current = []) /\
  (contextParts (getIdeContextParts (Some current) None forceFullContext) = [] <->
   openFilesOf current = []).
Proof.
  rewrite <- ideContextData_nil. cbn [getIdeContextParts].
  destruct forceFullContext; destruct (ideContextData current);
    cbn; repeat split; auto; discriminate.
Qed.

End EditorContext.
(** ** Sending the editor context *)

Section EditorContextInjection.

Variable env : Env.

Lemma hasPendingToolCall_user (history : list Content) (ps : list Part) :
  hasPendingToolCall (history ++ [userContent ps]) = false.
Proof.
  rewrite hasPendingToolCall_lastEntry, lastEntry_app by discriminate.
  reflexivity.
Qed.

(** X8: sending the editor context is idempotent: when the editor
    reports the same snapshot again, a second injection changes nothing,
    so an unchanged editor context is appended to the history at most
    once. *)
Theorem editor_context_injected_once (st : Client) :
  ideContextStoreGet env (injectIdeContext env st) = ideContextStoreGet env st ->
  injectIdeContext env (injectIdeContext env st) = injectIdeContext env st.
Proof.
  intros Hsame.
  destruct (getIdeMode env && negb (hasPendingToolCall (chatHistory (chat st))))
    eqn:Hcond.
  2:{ assert (Hid : injectIdeContext env st = st)
        by (unfold injectIdeContext; rewrite Hcond; reflexivity).
      rewrite !Hid. reflexivity. }
  apply andb_true_iff in Hcond. destruct Hcond as [Hmode Hpending].
  apply negb_true_iff in Hpending.
  set (st1 := injectIdeContext env st) in *.
  set (history := chatHistory (chat st)).
  set (result := getIdeContextParts (ideContextStoreGet env st)
                   (lastSentIdeContext st)
                   (forceFullIdeContext st || (List.length history =? 0)%nat)).
  assert (Hst1 : st1 =
    setForceFullIdeContext false
      (setLastSentIdeContext (newIdeContext result)
         (if (0 <? List.length (contextParts result))%nat
          then addHistory
                 (userContent [textPart (join newline (contextParts result))]) st
          else st))).
  { unfold st1, injectIdeContext, result, history. rewrite Hmode, Hpending.
    reflexivity. }
  assert (Hhistory1 :
    chatHistory (chat st1) =
    if (0 <? List.length (contextParts result))%nat
    then history ++ [userContent [textPart (join newline (contextParts result))]]
    else history).
  { rewrite Hst1. destruct (0 <? _)%nat; reflexivity. }
  assert (Hpending1 : hasPendingToolCall (chatHistory (chat st1)) = false).
  { rewrite Hhistory1. destruct (0 <? _)%nat;
      [apply hasPendingToolCall_user|exact Hpending]. }
  assert (Hlast1 : lastSentIdeContext st1 = newIdeContext result)
    by (rewrite Hst1; reflexivity).
  assert (Hforce1 : forceFullIdeContext st1 = false)
    by (rewrite Hst1; reflexivity).
  assert (Hnothing :
    getIdeContextParts (ideContextStoreGet env st1) (lastSentIdeContext st1)
      (forceFullIdeContext st1 ||
       (List.length (chatHistory (chat st1)) =? 0)%nat) =
    mkIdeContextParts [] (newIdeContext result)).
  { rewrite Hsame, Hlast1, Hforce1. cbn [orb].
    unfold result.
    destruct (ideContextStoreGet env st) as [current|]; [|reflexivity].
    fold result.
    assert (Hnew : newIdeContext result = Some current).
    { unfold result. cbn [getIdeContextParts].
      repeat case_cond; reflexivity. }
    rewrite Hnew.
    destruct (List.length (chatHistory (chat st1)) =? 0)%nat eqn:Hempty.
    - (* the history is still empty: the first injection was a full one
         and produced nothing *)
      apply Nat.eqb_eq in Hempty. rewrite Hhistory1 in Hempty.
      destruct (0 <? List.length (contextParts result))%nat eqn:Hparts.
      { rewrite length_app in Hempty. cbn in Hempty. lia. }
      apply Nat.ltb_ge in Hparts.
      assert (Hfull : (forceFullIdeContext st ||
                       (List.length history =? 0)%nat) = true).
      { apply Nat.eqb_eq in Hempty. rewrite Hempty. apply orb_true_r. }
      unfold result in Hparts. rewrite Hfull in Hparts.
      cbn [getIdeContextParts] in Hparts |- *.
      destruct (ideContextData current); [reflexivity|].
      cbn in Hparts. lia.
    - cbn [getIdeContextParts]. rewrite ideContextChanges_same. reflexivity. }
  unfold injectIdeContext at 1.
  rewrite Hmode, Hpending1, Hnothing. cbn [andb negb contextParts newIdeContext].
  cbn [List.length Nat.ltb Nat.leb].
  rewrite Hst1. reflexivity.
Qed.

End EditorContextInjection.
(** ** Compression and continuation *)

Section CompressionAccounting.

Variable env : Env.

(** X9: what an attempt of [tryCompressChat] does.  The tracked prompt
    token count never grows.  With status NOOP the client is exactly as
    before: no model call, no telemetry.  With any other status the
    model of the turn was asked once for a summary of a non-empty prefix
    of the curated history, followed by the summary prompt; the two
    token counts reported were logged once, after that call; and the
    next editor context is a full one, also when the attempt failed. *)
Theorem compression_attempt_effects (st : Client) (prompt_id : string)
    (force : bool) (st' : Client) (info : ChatCompressionInfo) :
  tryCompressChat env st prompt_id force = Ok (st', info) ->
  lastPromptTokenCount st' <= lastPromptTokenCount st /\
  match compressionStatus info with
  | NOOP => st' = st
  | _ =>
      exists compressed kept,
        curated env (chatHistory (chat st)) = compressed ++ kept /\
        compressed <> [] /\
        trace st' =
          LogChatCompression (originalTokenCount info) (newTokenCount info) ::
          GenerateContent (getEffectiveModelForCurrentTurn env st)
            (compressed ++ [summaryRequest]) prompt_id ::
          trace st /\
        forceFullIdeContext st' = true
  end.
Proof.
  unfold tryCompressChat.
  destruct (_ || _); [intros [= <- <-]; cbn; split; [lia|reflexivity]|].
  destruct (_ && _); [intros [= <- <-]; cbn; split; [lia|reflexivity]|].
  destruct (findCompressSplitPoint _ _) as [splitPoint|]; [|discriminate].
  set (curatedHistory := curated env (chatHistory (chat st))).
  destruct (List.length (firstn splitPoint curatedHistory) =? 0)%nat eqn:Hlen;
    [intros [= <- <-]; cbn; split; [lia|reflexivity]|].
  assert (Hprefix : curatedHistory =
                    firstn splitPoint curatedHistory ++
                    skipn splitPoint curatedHistory /\
                    firstn splitPoint curatedHistory <> []).
  { split; [symmetry; apply firstn_skipn|].
    intros Hnil. rewrite Hnil in Hlen. discriminate. }
  destruct Hprefix as [Hsplit Hnonempty].
  cbv beta iota zeta delta [startChat].
  match goal with
  | |- context [estimateTokenCount ?h >? _] =>
      remember (estimateTokenCount h) as rebuilt eqn:Hrebuilt
  end.
  destruct (rebuilt >? lastPromptTokenCount st) eqn:Hgrew;
    intros [= <- <-]; cbn [compressionStatus originalTokenCount newTokenCount].
  - split; [cbn; lia|].
    exists (firstn splitPoint curatedHistory), (skipn splitPoint curatedHistory).
    split; [exact Hsplit|]. split; [exact Hnonempty|]. split; reflexivity.
  - assert (Hle : rebuilt <= lastPromptTokenCount st).
    { destruct (Z.gtb_spec rebuilt (lastPromptTokenCount st)); [discriminate|lia]. }
    split; [exact Hle|].
    exists (firstn splitPoint curatedHistory), (skipn splitPoint curatedHistory).
    split; [exact Hsplit|]. split; [exact Hnonempty|]. split; reflexivity.
Qed.

(** X10: an invocation asks for a continuation with "Please continue."
    only when the turn left no tool call pending, the request was not
    aborted, no quota error occurred, the next-speaker check is not
    switched off, and the check was made and named the model as the
    next speaker. *)
Theorem continuation_only_when_model_speaks_next (st : Client)
    (request : PartListUnion) (signal : AbortSignal) (prompt_id : string)
    (turns : Z) (retry : bool) (turns' : Z) (retry' : bool) (turn : Turn) :
  outcome (sendMessageStreamInvocation env st request signal prompt_id turns
             retry) =
    Delegate continueRequest turns' retry' turn ->
  turns' = Z.min turns MAX_TURNS - 1 /\ retry' = false /\
  pendingToolCalls turn = 0%nat /\
  getSkipNextSpeakerCheck env = false /\
  exists st0,
    signal st0 = false /\
    getQuotaErrorOccurred env st0 = false /\
    checkNextSpeaker env st0 prompt_id = Some "model" /\
    trace (after (sendMessageStreamInvocation env st request signal prompt_id
                    turns retry)) =
      LogNextSpeakerCheck prompt_id (orEmpty (finishReason turn)) "model" ::
      CheckNextSpeaker prompt_id :: trace st0.
Proof.
  unfold sendMessageStreamInvocation.
  destruct (sessionTurnsExceeded env _); [discriminate|].
  destruct (_ =? 0); [discriminate|].
  destruct (contextWindowWillOverflow _ _); [discriminate|].
  destruct (tryCompressChat env _ prompt_id false) as [[st2 info]|message];
    [|discriminate].
  generalize (injectIdeContext env (refreshSystemInstruction env st2)).
  intros st4. unfold runTurn.
  destruct (turnStarted env st4); [discriminate|].
  destruct (selectModel env _ request) as [st5 model].
  set (script := turnRun env st5 model request).
  set (r := consumeStream env script model retry (events script) 0
              (log (TurnRun model request) st5)).
  destruct (streamEnd r); try discriminate.
  unfold afterStream.
  destruct (pendingToolCalls (streamTurn r) =? 0)%nat eqn:Hpending;
    [|discriminate].
  destruct (signal (streamClient r)) eqn:Hsignal; [discriminate|].
  cbn [andb negb].
  destruct (getQuotaErrorOccurred env (streamClient r)) eqn:Hquota; [discriminate|].
  destruct (getSkipNextSpeakerCheck env) eqn:Hskip; [discriminate|].
  destruct (checkNextSpeaker env (streamClient r) prompt_id) as [speaker|] eqn:Hcheck;
    [|discriminate].
  destruct (String.eqb speaker "model") eqn:Hspeaker; [|discriminate].
  apply String.eqb_eq in Hspeaker. subst speaker.
  cbn [outcome after]. intros [= <- <- <-].
  apply Nat.eqb_eq in Hpending.
  repeat split; auto.
  exists (streamClient r). repeat split; auto.
Qed.

End CompressionAccounting.
(** ** Thinking models, and calls without a session limit *)

Section ThinkingAndLimits.

Variable env : Env.

(** [isThinkingSupported(model)] *)
Definition isThinkingSupported (model : string) : bool :=
  String.prefix "gemini-2.5" model ||
  String.eqb model (DEFAULT_GEMINI_MODEL_AUTO env).

(** [isThinkingDefault(model)] *)
Definition isThinkingDefault (model : string) : bool :=
  if String.prefix "gemini-2.5-flash-lite" model then false
  else
    String.prefix "gemini-2.5" model ||
    String.eqb model (DEFAULT_GEMINI_MODEL_AUTO env).

Lemma prefix_trans (a b c : string) :
  String.prefix a b = true -> String.prefix b c = true -> String.prefix a c = true.
Proof.
  revert b c. induction a as [|x a IH]; intros b c Hab Hbc;
    [destruct c; reflexivity|].
  destruct b as [|y b]; [discriminate Hab|].
  destruct c as [|z c]; [discriminate Hbc|].
  cbn [String.prefix] in *.
  destruct (ascii_dec x y) as [->|]; [|discriminate Hab].
  destruct (ascii_dec y z) as [->|]; [|discriminate Hbc].
  eapply IH; eassumption.
Qed.

(** X11: a model that thinks by default supports thinking, and the
    models that support thinking without thinking by default are exactly
    those whose name starts with gemini-2.5-flash-lite. *)
Theorem thinking_default_is_supported (model : string) :
  (isThinkingDefault model = true -> isThinkingSupported model = true) /\
  (isThinkingSupported model = true /\ isThinkingDefault model = false <->
   String.prefix "gemini-2.5-flash-lite" model = true).
Proof.
  unfold isThinkingDefault, isThinkingSupported.
  destruct (String.prefix "gemini-2.5-flash-lite" model) eqn:Hlite.
  - assert (Hfamily : String.prefix "gemini-2.5" model = true).
    { apply (prefix_trans _ "gemini-2.5-flash-lite"); [reflexivity|exact Hlite]. }
    rewrite Hfamily. cbn [orb]. repeat split; auto.
  - split; [auto|]. split; [|discriminate].
    intros [H1 H2]. congruence.
Qed.

(** X12: without a positive session turn limit (the configuration
    loader's default is -1) no call is cut by the limit: whatever the
    session turn counter, [MaxSessionTurns] is never yielded. *)
Theorem no_session_limit_without_maximum (signal : AbortSignal)
    (prompt_id : string) :
  getMaxSessionTurns env <= 0 ->
  forall (fuel : nat) (st : Client) (request : PartListUnion) (turns : Z)
         (retry : bool),
    ~ In MaxSessionTurns
        (emitted (sendMessageStream env fuel st request signal prompt_id turns
                    retry)).
Proof.
  intros Hmax.
  assert (Hinv : forall st request turns retry,
            ~ In MaxSessionTurns
                (yielded (sendMessageStreamInvocation env st request signal
                            prompt_id turns retry))).
  { intros st request turns retry. unfold sendMessageStreamInvocation.
    unfold sessionTurnsExceeded.
    replace (getMaxSessionTurns env >? 0) with false
      by (symmetry; rewrite Z.gtb_ltb; apply Z.ltb_ge; exact Hmax).
    cbn [andb].
    destruct (_ =? 0); [intros []|].
    destruct (contextWindowWillOverflow _ _); [intros [H|[]]; discriminate H|].
    destruct (tryCompressChat env _ prompt_id false) as [[st2 info]|message];
      [|intros []].
    destruct (runTurn_yielded env
                (injectIdeContext env (refreshSystemInstruction env st2))
                request signal prompt_id (Z.min turns MAX_TURNS) retry
                match compressionStatus info with
                | COMPRESSED => [ChatCompressed info]
                | _ => []
                end) as (evs & -> & Hevs).
    intros Hin. apply in_app_or in Hin. destruct Hin as [Hin|Hin].
    - destruct (compressionStatus info); cbn in Hin;
        repeat (destruct Hin as [Hin|Hin]; [discriminate Hin|]); exact Hin.
    - rewrite Forall_forall in Hevs.
      destruct (Hevs _ Hin) as [H|[t H]]; discriminate H. }
  induction fuel as [|fuel IH]; intros st request turns retry;
    cbn [sendMessageStream]; [intros []|].
  specialize (Hinv st request turns retry).
  destruct (outcome (sendMessageStreamInvocation env st request signal prompt_id
                       turns retry))
    as [turn|nextRequest turns' retry' turn|message]; cbn [emitted];
    try exact Hinv.
  intros Hin. apply in_app_or in Hin. destruct Hin as [Hin|Hin];
    [exact (Hinv Hin)|exact (IH _ _ _ _ Hin)].
Qed.

End ThinkingAndLimits.
(** ** The split point and the fraction *)

Section SplitPointMonotone.

Local Open Scope nat_scope.

Lemma Qualifies_weaken (contents : list Content) (t1 t2 : Q) (k : nat) :
  (t1 <= t2)%Q -> Qualifies contents t2 k -> Qualifies contents t1 k.
Proof.
  intros Ht (c & Hc & Hu & Hw). exists c. split; [exact Hc|]. split; [exact Hu|].
  eapply Qle_trans; eassumption.
Qed.

Lemma Qualifies_candidate (contents : list Content) (t : Q) (k : nat) :
  Qualifies contents t k -> CandidateAt contents k.
Proof.
  intros (c & Hc & Hu & _). exists c. split; assumption.
Qed.

Lemma candidate_before_last (contents : list Content) (k l : nat) :
  CandidateAt contents k -> LastCandidateFrom contents 0 0 l -> k <= l.
Proof.
  intros Hk [[_ Hnone]|(_ & _ & Hlast)].
  - exfalso. apply (Hnone k); [lia|exact Hk].
  - destruct (Nat.le_gt_cases k l) as [H|H]; [exact H|].
    exfalso. exact (Hlast k H Hk).
Qed.

Lemma last_candidate_le (contents : list Content) (k l : nat) :
  LastCandidateFrom contents 0 0 k -> LastCandidateFrom contents 0 0 l -> k <= l.
Proof.
  intros [[-> _]|(_ & Hk & _)] Hl; [lia|].
  eapply candidate_before_last; eassumption.
Qed.

Lemma split_point_in_range (contents : list Content) (fraction : Q) (k : nat) :
  findCompressSplitPoint contents fraction = Ok k -> k <= List.length contents.
Proof.
  intros Hk.
  destruct (findCompressSplitPoint_result contents fraction k Hk)
    as [->|[->|(c & Hc & _)]]; [lia|lia|].
  apply nth_error_in_range in Hc. lia.
Qed.

(** X13: a larger fraction never gives an earlier split point: for
    fractions strictly between 0 and 1, [findCompressSplitPoint] is
    monotone in the fraction. *)
Theorem findCompressSplitPoint_monotone (contents : list Content)
    (fraction1 fraction2 : Q) (k1 k2 : nat) :
  (0 < fraction1)%Q -> (fraction1 <= fraction2)%Q -> (fraction2 < 1)%Q ->
  findCompressSplitPoint contents fraction1 = Ok k1 ->
  findCompressSplitPoint contents fraction2 = Ok k2 ->
  k1 <= k2.
Proof.
  intros H0 Hle H1 Hk1 Hk2.
  assert (H0' : (0 < fraction2)%Q) by (eapply Qlt_le_trans; eassumption).
  assert (H1' : (fraction1 < 1)%Q) by (eapply Qle_lt_trans; eassumption).
  set (t1 := roundToDouble
               (inject_Z (Z.of_nat (totalWeight contents)) * fraction1)).
  set (t2 := roundToDouble
               (inject_Z (Z.of_nat (totalWeight contents)) * fraction2)).
  assert (Hw : (0 <= inject_Z (Z.of_nat (totalWeight contents)))%Q).
  { change 0%Q with (inject_Z 0). rewrite <- Zle_Qle. lia. }
  assert (Ht : (t1 <= t2)%Q).
  { unfold t1, t2. apply roundToDouble_monotone.
    - apply Qmult_le_0_compat; [exact Hw|apply Qlt_le_weak; exact H0].
    - rewrite !(Qmult_comm (inject_Z _)).
      apply Qmult_le_compat_r; [exact Hle|exact Hw]. }
  destruct (findCompressSplitPoint_cases contents fraction1 H0 H1')
    as (k1' & Hk1' & Hcase1).
  destruct (findCompressSplitPoint_cases contents fraction2 H0' H1)
    as (k2' & Hk2' & Hcase2).
  cbv zeta in Hcase1, Hcase2. fold t1 in Hcase1. fold t2 in Hcase2.
  assert (k1' = k1) by congruence. assert (k2' = k2) by congruence.
  subst k1' k2'.
  destruct Hcase2 as [[Hq2 _]|[Hnone2 Hfallback2]].
  - (* an entry qualifies for the larger target: it does for the smaller *)
    pose proof (Qualifies_weaken contents t1 t2 k2 Ht Hq2) as Hq.
    destruct Hcase1 as [[_ Hmin1]|[Hnone1 _]].
    + destruct (Nat.le_gt_cases k1 k2) as [H|H]; [exact H|].
      exfalso. exact (Hmin1 k2 H Hq).
    + exfalso. exact (Hnone1 k2 Hq).
  - destruct Hfallback2 as [[_ ->]|[Hfinal2 Hlast2]].
    + eapply split_point_in_range. exact Hk1.
    + destruct Hcase1 as [[Hq1 _]|[_ [[Hfinal1 _]|[_ Hlast1]]]].
      * apply (candidate_before_last contents); [|exact Hlast2].
        eapply Qualifies_candidate. exact Hq1.
      * contradiction.
      * eapply last_candidate_le; eassumption.
Qed.

End SplitPointMonotone.
(** ** The further properties at concrete inputs *)

Section FurtherInstances.

Import Scenario.

(** The talkative environment with a session limit of [maxTurns]. *)
Definition limited (maxTurns : Z) : Env :=
  mkEnv maxTurns (fun _ => "auto") (fun _ => false) (fun _ => "memory") true true
    (fun _ => false) false None "auto" "gemini-2.5-pro"
    (fun fallback model => if fallback then "gemini-2.5-flash" else model)
    (fun _ => 1048576) (fun memory => memory) (fun _ => [textPart "cwd"])
    (fun history => history) (fun _ => None) (fun _ => false) (fun _ _ => false)
    (fun _ _ _ => "gemini-2.5-pro") (fun st _ _ => script st [])
    (fun _ _ => Some "model") (fun _ _ _ _ => Some "summary").

(** With a limit of two session turns, a call with a negative number
    of turns ends after two model calls. *)
Example session_limit_ends_negative_turns :
  let r := sendMessageStream (limited 2) 5 (client greeting 0) hello neverAborted
             "p" (-1) false in
  modelCalls (final r) = 2%nat /\
  emitted r = [MaxSessionTurns] /\
  completion r = Done newTurn.
Proof. vm_compute. repeat split. Qed.

Lemma session_limit_bounds_model_calls_witness :
  0 < getMaxSessionTurns (limited 2) /\
  let r := sendMessageStream (limited 2) 5 (client greeting 0) hello neverAborted
             "p" (-1) false in
  exists ms,
    modelsRun (trace (final r)) = ms ++ modelsRun (trace (client greeting 0)) /\
    Z.of_nat (List.length ms) <= sessionBudget (limited 2) (client greeting 0) /\
    Z.of_nat (List.length ms) <=
      sessionTurnCount (final r) - sessionTurnCount (client greeting 0) /\
    (sessionBudget (limited 2) (client greeting 0) < Z.of_nat 5 ->
     completion r <> OutOfFuel).
Proof.
  split; [reflexivity|].
  exact (session_limit_bounds_model_calls (limited 2) neverAborted "p" eq_refl
           5%nat (client greeting 0) hello (-1) false).
Defined.

Lemma session_limit_is_final_witness :
  0 < getMaxSessionTurns (limited 2) /\
  getMaxSessionTurns (limited 2) <=
    sessionTurnCount (conversing 2 "p" None None true []) /\
  let r := sendMessageStream (limited 2) 1 (conversing 2 "p" None None true [])
             hello neverAborted "p" 100 false in
  emitted r = [MaxSessionTurns] /\
  completion r = Done newTurn /\
  modelCalls (final r) = 0%nat.
Proof.
  split; [reflexivity|]. split; [discriminate|].
  destruct (session_limit_is_final (limited 2) (conversing 2 "p" None None true [])
              hello neverAborted "p" 100 false 0%nat eq_refl)
    as (Hemitted & Hcompletion & _ & _ & Hcalls & _); [discriminate|].
  split; [exact Hemitted|]. split; [exact Hcompletion|exact Hcalls].
Defined.

(** A turn that forwards two events and then fails. *)
Example error_cuts_the_stream :
  let st := client greeting 0 in
  let pending := [Forwarded "content" (JSON.Str "x"); Error "boom";
                  Forwarded "content" (JSON.Str "y")] in
  let r := consumeStream quiet (script st pending) "gemini-2.5-pro" false pending
             0 st in
  streamed r = [FromTurn (Forwarded "content" (JSON.Str "x"));
                FromTurn (Error "boom")] /\
  streamEnd r = Errored.
Proof. split; reflexivity. Qed.

(** An environment whose loop detector fires on the content "again". *)
Definition wary : Env :=
  mkEnv 0 (fun _ => "auto") (fun _ => false) (fun _ => "memory") true true
    (fun _ => false) false None "auto" "gemini-2.5-pro"
    (fun fallback model => if fallback then "gemini-2.5-flash" else model)
    (fun _ => 1048576) (fun memory => memory) (fun _ => [textPart "cwd"])
    (fun history => history) (fun _ => None) (fun _ => false)
    (fun _ event =>
       match event with
       | Forwarded _ (JSON.Str content) => String.eqb content "again"
       | _ => false
       end)
    (fun _ _ _ => "gemini-2.5-pro") (fun st _ _ => script st [])
    (fun _ _ => Some "user") (fun _ _ _ _ => Some "summary").

(** The event on which the loop detector fires is replaced by
    [LoopDetected], and the events after it are not pulled. *)
Example loop_cuts_the_stream :
  let st := client greeting 0 in
  let pending := [Forwarded "content" (JSON.Str "x");
                  Forwarded "content" (JSON.Str "again");
                  Forwarded "content" (JSON.Str "y")] in
  let r := consumeStream wary (script st pending) "gemini-2.5-pro" false pending
             0 st in
  streamed r = [FromTurn (Forwarded "content" (JSON.Str "x")); LoopDetected] /\
  streamEnd r = LoopFound /\
  verdicts wary (script st pending) pending 0 st = [false; true; false].
Proof. repeat split. Qed.

Lemma editor_context_injected_once_witness :
  ideContextStoreGet editing (injectIdeContext editing (client greeting 0)) =
    ideContextStoreGet editing (client greeting 0) /\
  List.length (chatHistory (chat (injectIdeContext editing (client greeting 0)))) =
    3%nat /\
  injectIdeContext editing (injectIdeContext editing (client greeting 0)) =
    injectIdeContext editing (client greeting 0).
Proof.
  split; [reflexivity|]. split; [reflexivity|].
  exact (editor_context_injected_once editing (client greeting 0) eq_refl).
Defined.

(** The greeting, tracked at a million tokens, is compressed on
    request. *)
Definition shrinking : result (Client * ChatCompressionInfo) :=
  tryCompressChat quiet (client greeting 1000000) "p" true.

Lemma compression_attempt_effects_witness :
  exists st' info,
    shrinking = Ok (st', info) /\
    compressionStatus info = COMPRESSED /\
    lastPromptTokenCount st' <= lastPromptTokenCount (client greeting 1000000) /\
    exists compressed kept,
      curated quiet (chatHistory (chat (client greeting 1000000))) =
        compressed ++ kept /\
      trace st' =
        [LogChatCompression (originalTokenCount info) (newTokenCount info);
         GenerateContent "gemini-2.5-pro" (compressed ++ [summaryRequest]) "p"].
Proof.
  destruct shrinking as [[st' info]|message] eqn:Hcall;
    [|vm_compute in Hcall; discriminate].
  exists st', info. split; [reflexivity|].
  assert (Hstatus : compressionStatus info = COMPRESSED).
  { vm_compute in Hcall. injection Hcall as <- <-. reflexivity. }
  split; [exact Hstatus|].
  destruct (compression_attempt_effects quiet (client greeting 1000000) "p" true
              st' info Hcall) as [Hle Hinfo].
  rewrite Hstatus in Hinfo.
  destruct Hinfo as (compressed & kept & Hsplit & _ & Htrace & _).
  split; [exact Hle|].
  exists compressed, kept. split; [exact Hsplit|exact Htrace].
Defined.

Lemma continuation_only_when_model_speaks_next_witness :
  outcome (sendMessageStreamInvocation talkative (client greeting 0) hello
             neverAborted "p" 3 false) =
    Delegate continueRequest 2 false newTurn /\
  pendingToolCalls newTurn = 0%nat /\
  getSkipNextSpeakerCheck talkative = false /\
  exists st0, checkNextSpeaker talkative st0 "p" = Some "model".
Proof.
  assert (Hout : outcome (sendMessageStreamInvocation talkative (client greeting 0)
                            hello neverAborted "p" 3 false) =
                 Delegate continueRequest 2 false newTurn) by reflexivity.
  split; [exact Hout|].
  destruct (continuation_only_when_model_speaks_next talkative (client greeting 0)
              hello neverAborted "p" 3 false 2 false newTurn Hout)
    as (_ & _ & Hpending & Hskip & st0 & _ & _ & Hcheck & _).
  split; [exact Hpending|]. split; [exact Hskip|].
  exists st0. exact Hcheck.
Defined.

Lemma no_session_limit_without_maximum_witness :
  getMaxSessionTurns talkative <= 0 /\
  ~ In MaxSessionTurns
      (emitted (sendMessageStream talkative 150
                  (conversing 1000 "p" None None true []) hello neverAborted "p"
                  3 false)).
Proof.
  split; [discriminate|].
  apply (no_session_limit_without_maximum talkative neverAborted "p").
  discriminate.
Defined.

Example thinking_models :
  isThinkingDefault talkative "gemini-2.5-pro" = true /\
  isThinkingDefault talkative "auto" = true /\
  isThinkingSupported talkative "gemini-2.5-flash-lite-preview" = true /\
  isThinkingDefault talkative "gemini-2.5-flash-lite-preview" = false /\
  isThinkingSupported talkative "gemini-2.0-flash" = false.
Proof. repeat split. Qed.

Lemma findCompressSplitPoint_monotone_witness :
  (0 < 1 # 10)%Q /\ (1 # 10 <= 7 # 10)%Q /\ (7 # 10 < 1)%Q /\
  findCompressSplitPoint toolConversation (1 # 10) = Ok 2%nat /\
  findCompressSplitPoint toolConversation (7 # 10) = Ok 6%nat /\
  (2 <= 6)%nat.
Proof.
  assert (Hle : (1 # 10 <= 7 # 10)%Q) by discriminate.
  split; [reflexivity|]. split; [exact Hle|]. split; [reflexivity|].
  split; [reflexivity|]. split; [reflexivity|].
  exact (findCompressSplitPoint_monotone toolConversation (1 # 10) (7 # 10)
           2%nat 6%nat eq_refl Hle eq_refl eq_refl eq_refl).
Defined.

End FurtherInstances.
(** * The command-line configuration

    The second document of [packages/core/src/core/client.ts] is the
    configuration loader of the command-line interface: [loadCliConfig]
    and its helpers [createToolExclusionFilter], [allowedMcpServers],
    [mergeMcpServers] and [mergeExcludeTools].

    An object used as a dictionary ([mcpServers]) is the list of its own
    properties in the order of [Object.entries]: the keys that are array
    indices first, in ascending order, then the other keys in the order
    of their insertion.  A [Set] of strings is the list of its elements
    in insertion order. *)

Module CliConfig.

Module ApprovalMode.

Inductive t : Type :=
| DEFAULT
| AUTO_EDIT
| YOLO.

Definition eqb (a b : t) : bool :=
  match a, b with
  | DEFAULT, DEFAULT | AUTO_EDIT, AUTO_EDIT | YOLO, YOLO => true
  | _, _ => false
  end.

End ApprovalMode.

(** [s.startsWith(searchString)] *)
Definition startsWith (s searchString : string) : bool :=
  String.prefix searchString s.

(** [l.includes(x)], [set.has(x)] *)
Definition includes (l : list string) (x : string) : bool :=
  existsb (String.eqb x) l.

(** [l || []] for an optional array. *)
Definition orNil {A : Type} (l : option (list A)) : list A :=
  match l with
  | Some v => v
  | None => []
  end.

(** [set.add(x)] and [new Set(l)]: an element is kept at the place of
    its first insertion. *)
Definition setAdd (s : list string) (x : string) : list string :=
  if includes s x then s else s ++ [x].

Definition newSet (l : list string) : list string := fold_left setAdd l [].

(** The own property [key] of a dictionary. *)
Fixpoint lookup {A : Type} (key : string) (o : list (string * A)) : option A :=
  match o with
  | [] => None
  | (k, v) :: rest => if String.eqb k key then Some v else lookup key rest
  end.

(** The array index a key stands for: the key is the decimal numeral,
    without leading zero, of an integer below 2^32 - 1. *)
Fixpoint digitsValue (s : string) (acc : N) : option N :=
  match s with
  | EmptyString => Some acc
  | String c rest =>
      let n := N_of_ascii c in
      if (48 <=? n)%N && (n <=? 57)%N
      then digitsValue rest (10 * acc + (n - 48))%N
      else None
  end.

Definition arrayIndex (key : string) : option N :=
  match key with
  | EmptyString => None
  | String c rest =>
      if Ascii.eqb c "0" then
        match rest with
        | EmptyString => Some 0%N
        | String _ _ => None
        end
      else
        match digitsValue key 0 with
        | Some n => if (n <=? 4294967294)%N then Some n else None
        | None => None
        end
  end.

(** The place of a new array index among the properties. *)
Fixpoint insertIndexed {A : Type} (n : N) (key : string) (v : A)
    (o : list (string * A)) : list (string * A) :=
  match o with
  | [] => [(key, v)]
  | (k, w) :: rest =>
      match arrayIndex k with
      | Some m =>
          if (m <? n)%N then (k, w) :: insertIndexed n key v rest
          else (key, v) :: o
      | None => (key, v) :: o
      end
  end.

(** [o[key] = v]: an own property keeps its place, a new one takes its
    place in the order of [Object.entries]. *)
Definition setProperty {A : Type} (key : string) (v : A)
    (o : list (string * A)) : list (string * A) :=
  if present (lookup key o) then
    map (fun entry => if String.eqb (fst entry) key then (key, v) else entry) o
  else
    match arrayIndex key with
    | Some n => insertIndexed n key v o
    | None => o ++ [(key, v)]
    end.

(** The properties every object literal inherits from
    [Object.prototype]; all of them hold a truthy value. *)
Definition objectPrototypeKeys : list string :=
  ["constructor"; "__defineGetter__"; "__defineSetter__"; "hasOwnProperty";
   "__lookupGetter__"; "__lookupSetter__"; "isPrototypeOf";
   "propertyIsEnumerable"; "toString"; "valueOf"; "__proto__";
   "toLocaleString"].

(** Modelled from the spec: [MCPServerConfig] and [GeminiCLIExtension]
    of the core package, which is not among the sources.  Of a server
    configuration the loader reads [extension], of which it reads the
    name; its other properties are [serverSettings]. *)
Record MCPServerConfig : Type := mkMCPServerConfig {
  serverSettings : JSON.value;
  extension : option string
}.

Record GeminiCLIExtension : Type := mkGeminiCLIExtension {
  name : string;
  isActive : bool;
  extensionMcpServers : option (list (string * MCPServerConfig));
  excludeTools : option (list string)
}.

(** Modelled from the spec: the properties of [Settings]
    (config/settings.ts, not among the sources) that are read below;
    [toolsAllowed] is [settings.tools?.allowed], and so on. *)
Record Settings : Type := mkSettings {
  mcpServers : option (list (string * MCPServerConfig));
  toolsAllowed : option (list string);
  toolsExclude : option (list string);
  mcpAllowed : option (list string);
  mcpExcluded : option (list string);
  modelName : option string;
  modelMaxSessionTurns : option Z;
  useModelRouter : option bool
}.

(** The properties of [CliArgs] that are read below. *)
Record CliArgs : Type := mkCliArgs {
  query : option string;
  model : option string;
  prompt : option string;
  promptInteractive : option string;
  yolo : option bool;
  approvalMode : option string;
  allowedMcpServerNames : option (list string);
  allowedTools : option (list string);
  experimentalAcp : option bool
}.

(** How the call of a loader that lives in another file ends. *)
Inductive Outcome : Type :=
| Returns
| ThrowsFatalConfigError (message : string)
| ThrowsError (message : string).

(** What [loadCliConfig] reads of the process and of the workspace:
    [process.stdin.isTTY], [process.env['GEMINI_MODEL']] and
    [isWorkspaceTrusted(settings)?.isTrusted]; and how its calls of
    [resolveTelemetrySettings] and [loadSandboxConfig] end. *)
Record Host : Type := mkHost {
  isTTY : bool;
  GEMINI_MODEL : option string;
  isWorkspaceTrusted : option bool;
  resolveTelemetrySettings : Outcome;
  loadSandboxConfig : Outcome
}.

Record BlockedMcpServer : Type := mkBlockedMcpServer {
  blockedName : string;
  extensionName : string
}.

(** The local variables of [loadCliConfig] that hold the approval mode,
    the tools, the MCP servers and the model, as they are when the
    function comes to construct the [Config]. *)
Record Locals : Type := mkLocals {
  localApprovalMode : ApprovalMode.t;
  localAllowedTools : list string;
  localExcludeTools : list string;
  localMcpServers : list (string * MCPServerConfig);
  localBlockedMcpServers : list BlockedMcpServer;
  localResolvedModel : string;
  localInteractive : bool
}.

Section Loader.

(** Modelled from the spec: the tool names and model names exported by
    the core package, which is not among the sources. *)
Variable ShellTool_Name : string.
Variable EditTool_Name : string.
Variable WRITE_FILE_TOOL_NAME : string.
Variable SHELL_TOOL_NAMES : list string.
Variable DEFAULT_GEMINI_MODEL : string.
Variable DEFAULT_GEMINI_MODEL_AUTO : string.

(** Modelled from the spec: the class [Config] of the core package. *)
Variable Config : Type.

(** [createToolExclusionFilter(allowedTools, allowedToolsSet)(tool)] *)
Definition createToolExclusionFilter (allowedTools allowedToolsSet : list string)
    (tool : string) : bool :=
  if String.eqb tool ShellTool_Name then
    negb (existsb
            (fun allowed =>
               existsb (fun shellName => startsWith allowed shellName)
                 SHELL_TOOL_NAMES)
            allowedTools)
  else negb (includes allowedToolsSet tool).

(** [{ name: key, extensionName: server.extension?.name || '' }] *)
Definition blockedEntry (entry : string * MCPServerConfig) : BlockedMcpServer :=
  mkBlockedMcpServer (fst entry) (orEmpty (extension (snd entry))).

(** [allowedMcpServers(mcpServers, allowMCPServers, blockedMcpServers)]:
    the servers it returns and the array [blockedMcpServers] after the
    call. *)
Definition allowedMcpServers (mcpServers : list (string * MCPServerConfig))
    (allowMCPServers : list string) (blockedMcpServers : list BlockedMcpServer)
  : list (string * MCPServerConfig) * list BlockedMcpServer :=
  let allowedNames :=
    newSet (filter (fun s => negb (String.eqb s "")) allowMCPServers) in
  if (0 <? List.length allowedNames)%nat then
    (filter (fun entry => includes allowedNames (fst entry)) mcpServers,
     blockedMcpServers ++
     map blockedEntry
       (filter (fun entry => negb (includes allowedNames (fst entry))) mcpServers))
  else
    ([], blockedMcpServers ++ map blockedEntry mcpServers).

(** [mcpServers[key]] is truthy: an own property (a configuration
    object) or an inherited one. *)
Definition hasServer (mcpServers : list (string * MCPServerConfig))
    (key : string) : bool :=
  present (lookup key mcpServers) || includes objectPrototypeKeys key.

(** The [forEach] over the servers of one active extension. *)
Definition addExtensionServers (extension : GeminiCLIExtension)
    (mcpServers : list (string * MCPServerConfig))
  : list (string * MCPServerConfig) :=
  fold_left
    (fun mcpServers entry =>
       if hasServer mcpServers (fst entry) then mcpServers
       else setProperty (fst entry)
              (mkMCPServerConfig (serverSettings (snd entry))
                 (Some (name extension)))
              mcpServers)
    (orNil (extensionMcpServers extension)) mcpServers.

(** [mergeMcpServers(settings, extensions)]; the warning logged for a
    server that is skipped is left out. *)
Definition mergeMcpServers (settings : Settings)
    (extensions : list GeminiCLIExtension) : list (string * MCPServerConfig) :=
  fold_left
    (fun mcpServers extension =>
       if negb (isActive extension) then mcpServers
       else addExtensionServers extension mcpServers)
    extensions (orNil (mcpServers settings)).

(** [mergeExcludeTools(settings, extensions, extraExcludes)] *)
Definition mergeExcludeTools (settings : Settings)
    (extensions : list GeminiCLIExtension) (extraExcludes : option (list string))
  : list string :=
  let allExcludeTools :=
    newSet (orNil (toolsExclude settings) ++ orNil extraExcludes) in
  fold_left
    (fun allExcludeTools extension =>
       if negb (isActive extension) then allExcludeTools
       else fold_left setAdd (orNil (excludeTools extension)) allExcludeTools)
    extensions allExcludeTools.

(** The approval mode [loadCliConfig] determines from the arguments,
    before the trust of the folder is considered. *)
Definition requestedApprovalMode (argv : CliArgs) : result ApprovalMode.t :=
  match nonEmpty (approvalMode argv) with
  | Some mode =>
      if String.eqb mode "yolo" then Ok ApprovalMode.YOLO
      else if String.eqb mode "auto_edit" then Ok ApprovalMode.AUTO_EDIT
      else if String.eqb mode "default" then Ok ApprovalMode.DEFAULT
      else Throw ("Invalid approval mode: " ++ mode ++
                  ". Valid values are: yolo, auto_edit, default")
  | None =>
      Ok (if truthy (yolo argv) then ApprovalMode.YOLO else ApprovalMode.DEFAULT)
  end.

(** The tools excluded because nobody can be asked for approval. *)
Definition extraExcludes (approvalMode : ApprovalMode.t) (interactive : bool)
    (argv : CliArgs) (allowedTools : list string) : list string :=
  if negb interactive && negb (truthy (experimentalAcp argv)) then
    let defaultExcludes := [ShellTool_Name; EditTool_Name; WRITE_FILE_TOOL_NAME] in
    let autoEditExcludes := [ShellTool_Name] in
    let toolExclusionFilter :=
      createToolExclusionFilter allowedTools (newSet allowedTools) in
    match approvalMode with
    | ApprovalMode.DEFAULT => filter toolExclusionFilter defaultExcludes
    | ApprovalMode.AUTO_EDIT => filter toolExclusionFilter autoEditExcludes
    | ApprovalMode.YOLO => []
    end
  else [].

(** The MCP servers of the configuration and the servers blocked. *)
Definition filterMcpServers (settings : Settings) (argv : CliArgs)
    (mcpServers : list (string * MCPServerConfig))
  : list (string * MCPServerConfig) * list BlockedMcpServer :=
  let blockedMcpServers := [] in
  let '(mcpServers, blockedMcpServers) :=
    match allowedMcpServerNames argv with
    | Some _ => (mcpServers, blockedMcpServers)
    | None =>
        let '(mcpServers, blockedMcpServers) :=
          match mcpAllowed settings with
          | Some allowed => allowedMcpServers mcpServers allowed blockedMcpServers
          | None => (mcpServers, blockedMcpServers)
          end in
        match mcpExcluded settings with
        | Some excluded =>
            let excludedNames :=
              newSet (filter (fun s => negb (String.eqb s "")) excluded) in
            if (0 <? List.length excludedNames)%nat then
              (filter (fun entry => negb (includes excludedNames (fst entry)))
                 mcpServers,
               blockedMcpServers)
            else (mcpServers, blockedMcpServers)
        | None => (mcpServers, blockedMcpServers)
        end
    end in
  match allowedMcpServerNames argv with
  | Some names => allowedMcpServers mcpServers names blockedMcpServers
  | None => (mcpServers, blockedMcpServers)
  end.

(** Lines 1347-1514 of [loadCliConfig]: the statements before the
    [Config] is constructed, with the local variables they leave or the
    exception they throw.  The statements on memory, directories, policy
    and screen reader, which do not bear on these variables, are left
    out, and the functions they call are taken to return normally. *)
Definition loadCliConfigLocals (host : Host) (settings : Settings)
    (allExtensions : list GeminiCLIExtension) (argv : CliArgs) : result Locals :=
  let trustedFolder :=
    match isWorkspaceTrusted host with
    | Some trusted => trusted
    | None => true
    end in
  let mcpServers := mergeMcpServers settings allExtensions in
  match requestedApprovalMode argv with
  | Throw message => Throw message
  | Ok approvalMode =>
      let approvalMode :=
        if negb trustedFolder &&
           negb (ApprovalMode.eqb approvalMode ApprovalMode.DEFAULT)
        then ApprovalMode.DEFAULT
        else approvalMode in
      match resolveTelemetrySettings host with
      | ThrowsFatalConfigError message =>
          Throw ("Invalid telemetry configuration: " ++ message ++ ".")
      | ThrowsError message => Throw message
      | Returns =>
          let allowedTools :=
            match allowedTools argv with
            | Some tools => tools
            | None => orNil (toolsAllowed settings)
            end in
          let hasQuery := present (nonEmpty (query argv)) in
          let interactive :=
            present (nonEmpty (promptInteractive argv)) ||
            (isTTY host && negb hasQuery &&
             negb (present (nonEmpty (prompt argv)))) in
          let extraExcludes :=
            extraExcludes approvalMode interactive argv allowedTools in
          let excludeTools :=
            mergeExcludeTools settings allExtensions
              (if (0 <? List.length extraExcludes)%nat then Some extraExcludes
               else None) in
          let '(mcpServers, blockedMcpServers) :=
            filterMcpServers settings argv mcpServers in
          let defaultModel :=
            if match useModelRouter settings with
               | Some use => use
               | None => true
               end
            then DEFAULT_GEMINI_MODEL_AUTO
            else DEFAULT_GEMINI_MODEL in
          let resolvedModel :=
            match nonEmpty (model argv) with
            | Some m => m
            | None =>
                match nonEmpty (GEMINI_MODEL host) with
                | Some m => m
                | None =>
                    match nonEmpty (modelName settings) with
                    | Some m => m
                    | None => defaultModel
                    end
                end
            end in
          match loadSandboxConfig host with
          | ThrowsFatalConfigError message | ThrowsError message =>
              Throw message
          | Returns =>
              Ok (mkLocals approvalMode allowedTools excludeTools mcpServers
                    blockedMcpServers resolvedModel interactive)
          end
      end
  end.

(** [loadCliConfig(settings, allExtensions, sessionId, argv, cwd)].  The
    object literal passed to [new Config] reads the variable
    [fileFiltering], which is declared nowhere: its evaluation throws a
    [ReferenceError], and no [Config] is constructed. *)
Definition loadCliConfig (host : Host) (settings : Settings)
    (allExtensions : list GeminiCLIExtension) (argv : CliArgs) : result Config :=
  match loadCliConfigLocals host settings allExtensions argv with
  | Throw message => Throw message
  | Ok _ => Throw "fileFiltering is not defined"
  end.
(** ** Properties of the configuration loader *)

Lemma includes_In (l : list string) (x : string) :
  includes l x = true <-> In x l.
Proof.
  unfold includes. rewrite existsb_exists. split.
  - intros (y & Hin & Heq). apply String.eqb_eq in Heq. subst. exact Hin.
  - intros Hin. exists x. split; [exact Hin|apply String.eqb_refl].
Qed.

Lemma includes_false (l : list string) (x : string) :
  includes l x = false <-> ~ In x l.
Proof.
  rewrite <- includes_In. destruct (includes l x); split; congruence.
Qed.

Lemma setAdd_In (s : list string) (x y : string) :
  In y (setAdd s x) <-> In y s \/ y = x.
Proof.
  unfold setAdd. destruct (includes s x) eqn:E.
  - apply includes_In in E. split; [auto|]. intros [H| ->]; assumption.
  - rewrite in_app_iff. cbn. split.
    + intros [H|[H|[]]]; auto.
    + intros [H|H]; auto.
Qed.

Lemma setAdd_NoDup (s : list string) (x : string) :
  NoDup s -> NoDup (setAdd s x).
Proof.
  intros Hs. unfold setAdd. destruct (includes s x) eqn:E; [exact Hs|].
  apply includes_false in E.
  apply NoDup_app; [exact Hs|constructor; [intros []|constructor]|].
  intros a Ha [<-|[]]. contradiction.
Qed.

Lemma fold_setAdd (l : list string) :
  forall s,
    (NoDup s -> NoDup (fold_left setAdd l s)) /\
    (forall y, In y (fold_left setAdd l s) <-> In y s \/ In y l) /\
    exists added, fold_left setAdd l s = s ++ added.
Proof.
  induction l as [|x l IH]; intros s; cbn [fold_left].
  - split; [auto|]. split; [|exists []; symmetry; apply app_nil_r].
    intros y. cbn. tauto.
  - destruct (IH (setAdd s x)) as (Hnd & Hin & added & Hadded).
    split; [|split].
    + intros Hs. apply Hnd. apply setAdd_NoDup. exact Hs.
    + intros y. rewrite Hin, setAdd_In. cbn. intuition auto.
    + rewrite Hadded. unfold setAdd. destruct (includes s x).
      * exists added. reflexivity.
      * exists ([x] ++ added). rewrite app_assoc. reflexivity.
Qed.

Lemma newSet_spec (l : list string) :
  NoDup (newSet l) /\ forall y, In y (newSet l) <-> In y l.
Proof.
  unfold newSet. destruct (fold_setAdd l []) as (Hnd & Hin & _).
  split; [apply Hnd; constructor|].
  intros y. rewrite Hin. cbn. tauto.
Qed.

Lemma newSet_includes (l : list string) (x : string) :
  includes (newSet l) x = includes l x.
Proof.
  destruct (includes l x) eqn:E.
  - apply includes_In. apply newSet_spec. apply includes_In. exact E.
  - apply includes_false. rewrite (proj2 (newSet_spec l)).
    apply includes_false. exact E.
Qed.

(** [key] is a non-empty name of the list [names]. *)
Definition named (names : list string) (key : string) : bool :=
  includes names key && negb (String.eqb key "").

Lemma named_iff (names : list string) (key : string) :
  named names key = true <-> In key names /\ key <> "".
Proof.
  unfold named. rewrite andb_true_iff, includes_In, negb_true_iff, String.eqb_neq.
  reflexivity.
Qed.

Lemma includes_names (names : list string) (key : string) :
  includes (newSet (filter (fun s => negb (String.eqb s "")) names)) key =
  named names key.
Proof.
  rewrite newSet_includes.
  destruct (named names key) eqn:E.
  - apply named_iff in E. apply includes_In. apply filter_In.
    rewrite negb_true_iff, String.eqb_neq. exact E.
  - apply includes_false. rewrite filter_In, negb_true_iff, String.eqb_neq.
    rewrite <- named_iff. congruence.
Qed.

Lemma no_names (names : list string) :
  (0 <? List.length (newSet (filter (fun s => negb (String.eqb s "")) names)))%nat
  = false ->
  forall key, named names key = false.
Proof.
  intros Hlen key. rewrite <- includes_names.
  destruct (newSet _); [reflexivity|discriminate Hlen].
Qed.

Lemma filter_all {A : Type} (f : A -> bool) (l : list A) :
  (forall x, f x = true) -> filter f l = l.
Proof.
  intros H. induction l as [|x l IH]; [reflexivity|].
  cbn. rewrite H, IH. reflexivity.
Qed.

Lemma filter_none {A : Type} (f : A -> bool) (l : list A) :
  (forall x, f x = false) -> filter f l = [].
Proof.
  intros H. induction l as [|x l IH]; [reflexivity|].
  cbn. rewrite H, IH. reflexivity.
Qed.

Lemma filter_twice {A : Type} (f g : A -> bool) (l : list A) :
  filter f (filter g l) = filter (fun x => g x && f x) l.
Proof.
  induction l as [|x l IH]; [reflexivity|].
  cbn [filter]. destruct (g x); cbn [andb filter]; [|exact IH].
  destruct (f x); rewrite IH; reflexivity.
Qed.

Lemma allowedMcpServers_filter
    (servers : list (string * MCPServerConfig)) (allow : list string)
    (blocked : list BlockedMcpServer) :
  allowedMcpServers servers allow blocked =
  (filter (fun entry => named allow (fst entry)) servers,
   blocked ++
   map blockedEntry
     (filter (fun entry => negb (named allow (fst entry))) servers)).
Proof.
  unfold allowedMcpServers.
  destruct (0 <? List.length _)%nat eqn:Hlen.
  - f_equal; [|f_equal; f_equal];
      apply filter_ext; intros entry; rewrite includes_names; reflexivity.
  - pose proof (no_names allow Hlen) as Hnone.
    rewrite filter_none by (intros entry; apply Hnone).
    rewrite filter_all by (intros entry; rewrite Hnone; reflexivity).
    reflexivity.
Qed.

(** X14: [allowedMcpServers] keeps, in their order, the servers whose
    key is a non-empty name of the allow list and records every other
    server as blocked, with the name of the extension it came from (the
    empty string for a server of the settings), after the servers
    blocked before: every server is either kept or blocked.  With an
    allow list that names nothing (empty, or empty strings only) every
    server is blocked. *)
Theorem allowedMcpServers_partition
    (servers : list (string * MCPServerConfig)) (allow : list string)
    (blocked : list BlockedMcpServer) :
  let kept := fst (allowedMcpServers servers allow blocked) in
  let blocked' := snd (allowedMcpServers servers allow blocked) in
  let dropped := filter (fun entry => negb (named allow (fst entry))) servers in
  kept = filter (fun entry => named allow (fst entry)) servers /\
  blocked' = blocked ++ map blockedEntry dropped /\
  (List.length kept + List.length dropped = List.length servers)%nat /\
  ((forall s, In s allow -> s = "") -> kept = [] /\ dropped = servers).
Proof.
  cbv zeta. rewrite allowedMcpServers_filter. cbn [fst snd].
  split; [reflexivity|]. split; [reflexivity|].
  split; [apply filter_length|].
  intros Hempty.
  assert (Hnone : forall key, named allow key = false).
  { intros key. destruct (named allow key) eqn:E; [|reflexivity].
    apply named_iff in E. destruct E as [Hin Hne].
    exfalso. apply Hne. apply Hempty. exact Hin. }
  split.
  - apply filter_none. intros entry. apply Hnone.
  - apply filter_all. intros entry. rewrite Hnone. reflexivity.
Qed.

Lemma lookup_app {A : Type} (key : string) (a b : list (string * A)) :
  lookup key (a ++ b) =
  match lookup key a with
  | Some v => Some v
  | None => lookup key b
  end.
Proof.
  induction a as [|[k v] a IH]; [reflexivity|].
  cbn [app lookup]. destruct (String.eqb k key); [reflexivity|exact IH].
Qed.

(** The server an extension contributes: its own settings, tagged with
    the extension. *)
Definition contributed (extension : GeminiCLIExtension)
    (server : MCPServerConfig) : MCPServerConfig :=
  mkMCPServerConfig (serverSettings server) (Some (name extension)).

(** The server configured under [key] by the first active extension
    that configures one. *)
Fixpoint firstContribution (key : string) (extensions : list GeminiCLIExtension)
  : option MCPServerConfig :=
  match extensions with
  | [] => None
  | extension :: rest =>
      if isActive extension then
        match lookup key (orNil (extensionMcpServers extension)) with
        | Some server => Some (contributed extension server)
        | None => firstContribution key rest
        end
      else firstContribution key rest
  end.

Lemma lookup_insertIndexed {A : Type} (n : N) (key key' : string) (v : A)
    (o : list (string * A)) :
  arrayIndex key = Some n ->
  lookup key' (insertIndexed n key v o) =
  if String.eqb key key' then Some v else lookup key' o.
Proof.
  intros Hkey. induction o as [|[k w] o IH]; cbn [insertIndexed lookup].
  - destruct (String.eqb key key'); reflexivity.
  - destruct (arrayIndex k) as [m|] eqn:Hk; [|reflexivity].
    destruct (m <? n)%N eqn:Hlt; [|reflexivity].
    cbn [lookup]. rewrite IH.
    destruct (String.eqb k key') eqn:E; [|reflexivity].
    apply String.eqb_eq in E. subst k.
    destruct (String.eqb key key') eqn:E'; [|reflexivity].
    apply String.eqb_eq in E'. subst key'.
    rewrite Hkey in Hk. injection Hk as <-.
    rewrite N.ltb_irrefl in Hlt. discriminate.
Qed.

Lemma lookup_replace {A : Type} (key key' : string) (v : A)
    (o : list (string * A)) :
  lookup key o <> None ->
  lookup key'
    (map (fun entry => if String.eqb (fst entry) key then (key, v) else entry) o) =
  if String.eqb key key' then Some v else lookup key' o.
Proof.
  destruct (String.eqb key key') eqn:E.
  - apply String.eqb_eq in E. subst key'.
    induction o as [|[k w] o IH]; cbn [map lookup fst]; [congruence|].
    destruct (String.eqb k key) eqn:E'; cbn [lookup fst].
    + intros _. rewrite String.eqb_refl. reflexivity.
    + rewrite E'. exact IH.
  - intros _.
    induction o as [|[k w] o IH]; cbn [map lookup fst]; [reflexivity|].
    destruct (String.eqb k key) eqn:E'; cbn [lookup fst].
    + apply String.eqb_eq in E'. subst k. rewrite E. exact IH.
    + rewrite IH. reflexivity.
Qed.

(** After [o[key] = v] the property [key] holds [v] and the other
    properties are as they were. *)
Lemma lookup_setProperty {A : Type} (key key' : string) (v : A)
    (o : list (string * A)) :
  lookup key' (setProperty key v o) =
  if String.eqb key key' then Some v else lookup key' o.
Proof.
  unfold setProperty. destruct (lookup key o) as [w|] eqn:Hown; cbn [present].
  - apply lookup_replace. congruence.
  - destruct (arrayIndex key) as [n|] eqn:Hindex.
    + apply lookup_insertIndexed. exact Hindex.
    + rewrite lookup_app. cbn [lookup].
      destruct (String.eqb key key') eqn:E.
      * apply String.eqb_eq in E. subst key'. rewrite Hown. reflexivity.
      * destruct (lookup key' o); reflexivity.
Qed.

Lemma addExtensionServers_lookup (extension : GeminiCLIExtension) (key : string) :
  forall servers acc,
    lookup key
      (fold_left
         (fun mcpServers entry =>
            if hasServer mcpServers (fst entry) then mcpServers
            else setProperty (fst entry)
                   (mkMCPServerConfig (serverSettings (snd entry))
                      (Some (name extension)))
                   mcpServers)
         servers acc) =
    match lookup key acc with
    | Some server => Some server
    | None =>
        if includes objectPrototypeKeys key then None
        else option_map (contributed extension) (lookup key servers)
    end.
Proof.
  induction servers as [|[k v] servers IH]; intros acc; cbn [fold_left].
  - destruct (lookup key acc); [reflexivity|]. cbn [lookup option_map].
    destruct (includes objectPrototypeKeys key); reflexivity.
  - cbn [fst snd lookup].
    destruct (hasServer acc k) eqn:Hhas; rewrite IH.
    + destruct (lookup key acc) eqn:Hacc; [reflexivity|].
      destruct (String.eqb k key) eqn:Hk; [|reflexivity].
      apply String.eqb_eq in Hk. subst k.
      unfold hasServer in Hhas. rewrite Hacc in Hhas. cbn [present orb] in Hhas.
      rewrite Hhas. reflexivity.
    + unfold hasServer in Hhas. apply orb_false_iff in Hhas.
      destruct Hhas as [Hown Hinherited].
      rewrite lookup_setProperty.
      destruct (String.eqb k key) eqn:Hk.
      * apply String.eqb_eq in Hk. subst k.
        destruct (lookup key acc); [discriminate Hown|].
        rewrite Hinherited. reflexivity.
      * destruct (lookup key acc); reflexivity.
Qed.

(** X15: [mergeMcpServers] gives precedence to the settings, then to
    the active extensions in their order: under a key the result holds
    the server of the settings if there is one; otherwise, unless the key
    is the name of a property every object inherits (such a server is
    skipped), the server of the first active extension that configures
    the key, tagged with that extension.  Inactive extensions contribute
    nothing. *)
Theorem mergeMcpServers_precedence (settings : Settings)
    (extensions : list GeminiCLIExtension) (key : string) :
  lookup key (mergeMcpServers settings extensions) =
  match lookup key (orNil (mcpServers settings)) with
  | Some server => Some server
  | None =>
      if includes objectPrototypeKeys key then None
      else firstContribution key extensions
  end.
Proof.
  unfold mergeMcpServers.
  generalize (orNil (mcpServers settings)) as acc.
  induction extensions as [|extension rest IH]; intros acc; cbn [fold_left].
  - destruct (lookup key acc); [reflexivity|].
    destruct (includes _ key); reflexivity.
  - rewrite IH. cbn [firstContribution].
    destruct (isActive extension); cbn [negb]; [|reflexivity].
    unfold addExtensionServers. rewrite addExtensionServers_lookup.
    destruct (lookup key acc); [reflexivity|].
    destruct (includes objectPrototypeKeys key); [reflexivity|].
    destruct (lookup key (orNil (extensionMcpServers extension))); reflexivity.
Qed.

Lemma fold_excludeTools (extensions : list GeminiCLIExtension) :
  forall s,
    (NoDup s ->
     NoDup (fold_left
              (fun allExcludeTools extension =>
                 if negb (isActive extension) then allExcludeTools
                 else fold_left setAdd (orNil (excludeTools extension))
                        allExcludeTools)
              extensions s)) /\
    (forall tool,
        In tool (fold_left
                   (fun allExcludeTools extension =>
                      if negb (isActive extension) then allExcludeTools
                      else fold_left setAdd (orNil (excludeTools extension))
                             allExcludeTools)
                   extensions s) <->
        In tool s \/
        exists extension,
          In extension extensions /\ isActive extension = true /\
          In tool (orNil (excludeTools extension))) /\
    exists added,
      fold_left
        (fun allExcludeTools extension =>
           if negb (isActive extension) then allExcludeTools
           else fold_left setAdd (orNil (excludeTools extension)) allExcludeTools)
        extensions s = s ++ added.
Proof.
  induction extensions as [|extension rest IH]; intros s; cbn [fold_left].
  - split; [auto|]. split; [|exists []; symmetry; apply app_nil_r].
    intros tool. split; [auto|]. intros [H|(e & [] & _)]. exact H.
  - destruct (isActive extension) eqn:Hactive; cbn [negb].
    + destruct (IH (fold_left setAdd (orNil (excludeTools extension)) s))
        as (Hnd & Hin & added & Hadded).
      destruct (fold_setAdd (orNil (excludeTools extension)) s)
        as (Hnd' & Hin' & added' & Hadded').
      split; [|split].
      * intros Hs. apply Hnd. apply Hnd'. exact Hs.
      * intros tool. rewrite Hin, Hin'. split.
        -- intros [[H|H]|(e & He & Ha & Ht)]; auto.
           ++ right. exists extension. cbn. auto.
           ++ right. exists e. cbn. auto.
        -- intros [H|(e & [<-|He] & Ha & Ht)]; auto.
           right. exists e. auto.
      * exists (added' ++ added). rewrite Hadded, Hadded', app_assoc. reflexivity.
    + destruct (IH s) as (Hnd & Hin & added & Hadded).
      split; [exact Hnd|]. split; [|exists added; exact Hadded].
      intros tool. rewrite Hin. split.
      * intros [H|(e & He & Ha & Ht)]; auto. right. exists e. cbn. auto.
      * intros [H|(e & [<-|He] & Ha & Ht)]; auto; [congruence|].
        right. exists e. auto.
Qed.

(** X16: [mergeExcludeTools] returns, each once, the tools excluded by
    the settings, the extra excludes, and the tools excluded by an
    active extension, and nothing else; the excludes of the settings and
    the extra excludes come first, in their order. *)
Theorem mergeExcludeTools_union (settings : Settings)
    (extensions : list GeminiCLIExtension) (extra : option (list string)) :
  let merged := mergeExcludeTools settings extensions extra in
  NoDup merged /\
  (forall tool,
      In tool merged <->
      In tool (orNil (toolsExclude settings)) \/ In tool (orNil extra) \/
      exists extension,
        In extension extensions /\ isActive extension = true /\
        In tool (orNil (excludeTools extension))) /\
  exists added,
    merged = newSet (orNil (toolsExclude settings) ++ orNil extra) ++ added.
Proof.
  cbv zeta. unfold mergeExcludeTools.
  set (base := newSet (orNil (toolsExclude settings) ++ orNil extra)).
  destruct (newSet_spec (orNil (toolsExclude settings) ++ orNil extra))
    as [Hnd Hin].
  fold base in Hnd, Hin.
  destruct (fold_excludeTools extensions base) as (Hnd' & Hin' & Hadded).
  split; [apply Hnd'; exact Hnd|]. split; [|exact Hadded].
  intros tool. rewrite Hin', Hin, in_app_iff. tauto.
Qed.

(** The filter only loosens when more tools are allowed. *)
Lemma createToolExclusionFilter_monotone (allowed allowed' : list string)
    (tool : string) :
  incl allowed allowed' ->
  createToolExclusionFilter allowed' (newSet allowed') tool = true ->
  createToolExclusionFilter allowed (newSet allowed) tool = true.
Proof.
  intros Hincl. unfold createToolExclusionFilter.
  destruct (String.eqb tool ShellTool_Name).
  - rewrite !negb_true_iff. intros H.
    destruct (existsb _ allowed) eqn:E; [|reflexivity].
    apply existsb_exists in E. destruct E as (a & Ha & Hs).
    rewrite <- H. symmetry. apply existsb_exists. exists a. split; [|exact Hs].
    apply Hincl. exact Ha.
  - rewrite !negb_true_iff, !newSet_includes, !includes_false.
    intros H Hin. apply H. apply Hincl. exact Hin.
Qed.

(** X17: the tools [loadCliConfig] excludes because nobody can be asked
    for approval.  There are none in interactive mode, with the
    experimental ACP integration, or in approval mode YOLO; approval
    mode AUTO_EDIT excludes no more than DEFAULT; allowing more tools
    never excludes more; and an excluded tool is the shell tool with no
    allowed tool that starts with a shell tool name, or the edit or the
    write-file tool when it is not an allowed tool. *)
Theorem extraExcludes_only_unapproved (mode : ApprovalMode.t)
    (interactive : bool) (argv : CliArgs) (allowed allowed' : list string) :
  extraExcludes ApprovalMode.YOLO interactive argv allowed = [] /\
  extraExcludes mode true argv allowed = [] /\
  incl (extraExcludes ApprovalMode.AUTO_EDIT interactive argv allowed)
       (extraExcludes ApprovalMode.DEFAULT interactive argv allowed) /\
  (incl allowed allowed' ->
   incl (extraExcludes mode interactive argv allowed')
        (extraExcludes mode interactive argv allowed)) /\
  (forall tool,
      In tool (extraExcludes mode interactive argv allowed) ->
      truthy (experimentalAcp argv) = false /\
      (tool = ShellTool_Name \/ tool = EditTool_Name \/
       tool = WRITE_FILE_TOOL_NAME) /\
      (tool <> ShellTool_Name -> ~ In tool allowed) /\
      (tool = ShellTool_Name ->
       forall a shellName,
         In a allowed -> In shellName SHELL_TOOL_NAMES ->
         startsWith a shellName = false)).
Proof.
  unfold extraExcludes.
  split; [destruct (_ && _); reflexivity|].
  split; [reflexivity|].
  split; [|split].
  - destruct (_ && _); [|intros x []].
    intros x Hx. apply filter_In in Hx. destruct Hx as [[<-|[]] Hf].
    apply filter_In. split; [left; reflexivity|exact Hf].
  - intros Hincl. destruct (_ && _); [|intros x []].
    destruct mode; [| |intros x []];
      intros x Hx; apply filter_In in Hx; destruct Hx as [Hin Hf];
      apply filter_In; (split; [exact Hin|]);
      exact (createToolExclusionFilter_monotone allowed allowed' x Hincl Hf).
  - intros tool Hin.
    destruct interactive; [destruct Hin|]. cbn [negb andb] in Hin.
    destruct (truthy (experimentalAcp argv)); [destruct Hin|].
    cbn [negb] in Hin.
    assert (Hfilter : In tool [ShellTool_Name; EditTool_Name; WRITE_FILE_TOOL_NAME] /\
                      createToolExclusionFilter allowed (newSet allowed) tool = true).
    { destruct mode; [| |destruct Hin]; apply filter_In in Hin;
        destruct Hin as [Hin Hf]; (split; [|exact Hf]).
      - exact Hin.
      - destruct Hin as [<-|[]]. left. reflexivity. }
    destruct Hfilter as [Hname Hf].
    split; [reflexivity|]. split; [cbn in Hname; intuition congruence|].
    unfold createToolExclusionFilter in Hf. split.
    + intros Hne. apply String.eqb_neq in Hne. rewrite Hne in Hf.
      apply negb_true_iff in Hf. rewrite newSet_includes in Hf.
      apply includes_false. exact Hf.
    + intros -> a shellName Ha Hs. rewrite String.eqb_refl in Hf.
      apply negb_true_iff in Hf.
      destruct (startsWith a shellName) eqn:E; [|reflexivity].
      rewrite <- Hf. symmetry. apply existsb_exists. exists a. split; [exact Ha|].
      apply existsb_exists. exists shellName. split; assumption.
Qed.


(** X19: the MCP servers [loadCliConfig] has selected when it comes to
    construct the configuration, among the servers [mergeMcpServers]
    gives.  With [--allowed-mcp-server-names] they are the servers named
    there, and the lists [mcp.allowed] and [mcp.excluded] of the
    settings are not consulted; without, they are the servers named by
    [mcp.allowed] (if set) that [mcp.excluded] (if set) does not name.
    The servers reported as blocked are those the allow list in force
    does not name; a server removed by [mcp.excluded] is not
    reported. *)
Theorem mcp_servers_of_config (host : Host) (settings : Settings)
    (allExtensions : list GeminiCLIExtension) (argv : CliArgs) (locals : Locals) :
  loadCliConfigLocals host settings allExtensions argv = Ok locals ->
  let merged := mergeMcpServers settings allExtensions in
  let allowedBy (names : option (list string)) (key : string) :=
    match names with
    | Some names => named names key
    | None => true
    end in
  match allowedMcpServerNames argv with
  | Some names =>
      localMcpServers locals =
        filter (fun entry => named names (fst entry)) merged /\
      localBlockedMcpServers locals =
        map blockedEntry
          (filter (fun entry => negb (named names (fst entry))) merged)
  | None =>
      localMcpServers locals =
        filter
          (fun entry =>
             allowedBy (mcpAllowed settings) (fst entry) &&
             negb (match mcpExcluded settings with
                   | Some excluded => named excluded (fst entry)
                   | None => false
                   end))
          merged /\
      localBlockedMcpServers locals =
        map blockedEntry
          (filter (fun entry => negb (allowedBy (mcpAllowed settings) (fst entry)))
             merged)
  end.
Proof.
  unfold loadCliConfigLocals.
  destruct (requestedApprovalMode argv) as [requested|message]; [|discriminate].
  destruct (resolveTelemetrySettings host); [|discriminate|discriminate].
  destruct (filterMcpServers settings argv _) as [servers blocked] eqn:Hfilter.
  destruct (loadSandboxConfig host); [|discriminate|discriminate].
  intros [= <-]. cbv zeta. cbn [localMcpServers localBlockedMcpServers].
  unfold filterMcpServers in Hfilter.
  destruct (allowedMcpServerNames argv) as [names|].
  - rewrite allowedMcpServers_filter in Hfilter. injection Hfilter as <- <-.
    split; reflexivity.
  - assert (Hallowed :
      (match mcpAllowed settings with
       | Some allowed =>
           allowedMcpServers (mergeMcpServers settings allExtensions) allowed []
       | None => (mergeMcpServers settings allExtensions, [])
       end) =
      (filter (fun entry =>
                 match mcpAllowed settings with
                 | Some names => named names (fst entry)
                 | None => true
                 end) (mergeMcpServers settings allExtensions),
       map blockedEntry
         (filter (fun entry =>
                    negb match mcpAllowed settings with
                         | Some names => named names (fst entry)
                         | None => true
                         end) (mergeMcpServers settings allExtensions)))).
    { destruct (mcpAllowed settings) as [allowed|].
      - rewrite allowedMcpServers_filter. reflexivity.
      - rewrite filter_all by reflexivity.
        rewrite filter_none by reflexivity. reflexivity. }
    rewrite Hallowed in Hfilter. clear Hallowed.
    destruct (mcpExcluded settings) as [excluded|].
    + destruct (0 <? List.length _)%nat eqn:Hlen; injection Hfilter as <- <-.
      * split; [|reflexivity]. rewrite filter_twice.
        apply filter_ext. intros entry. rewrite includes_names.
        reflexivity.
      * split; [|reflexivity].
        apply filter_ext. intros entry. rewrite (no_names excluded Hlen).
        rewrite andb_true_r. reflexivity.
    + injection Hfilter as <- <-. split; [|reflexivity].
      apply filter_ext. intros entry. rewrite andb_true_r. reflexivity.
Qed.

(** X20: the tools [loadCliConfig] has excluded when it comes to
    construct the configuration are, each once, the tools excluded by
    the settings, the tools excluded by an active extension, and the
    tools excluded for lack of approval under the approval mode and the
    interactivity it has determined.  Allowing a tool never lifts an
    exclusion of the settings or of an extension. *)
Theorem exclude_tools_of_config (host : Host) (settings : Settings)
    (allExtensions : list GeminiCLIExtension) (argv : CliArgs) (locals : Locals) :
  loadCliConfigLocals host settings allExtensions argv = Ok locals ->
  let allowed :=
    match allowedTools argv with
    | Some tools => tools
    | None => orNil (toolsAllowed settings)
    end in
  localAllowedTools locals = allowed /\
  localInteractive locals =
    (present (nonEmpty (promptInteractive argv)) ||
     (isTTY host && negb (present (nonEmpty (query argv))) &&
      negb (present (nonEmpty (prompt argv))))) /\
  NoDup (localExcludeTools locals) /\
  forall tool,
    In tool (localExcludeTools locals) <->
    In tool (orNil (toolsExclude settings)) \/
    (exists extension,
        In extension allExtensions /\ isActive extension = true /\
        In tool (orNil (excludeTools extension))) \/
    In tool (extraExcludes (localApprovalMode locals) (localInteractive locals)
               argv allowed).
Proof.
  unfold loadCliConfigLocals.
  destruct (requestedApprovalMode argv) as [requested|message]; [|discriminate].
  destruct (resolveTelemetrySettings host); [|discriminate|discriminate].
  destruct (filterMcpServers settings argv _) as [servers blocked].
  destruct (loadSandboxConfig host); [|discriminate|discriminate].
  intros [= <-]. cbv zeta.
  cbn [localExcludeTools localApprovalMode localInteractive localAllowedTools].
  split; [reflexivity|]. split; [reflexivity|].
  match goal with
  | |- context [mergeExcludeTools settings allExtensions
                  (if _ then Some ?e else None)] =>
      set (extra := e);
      assert (Hextra : orNil (if (0 <? List.length extra)%nat
                              then Some extra else None) = extra)
        by (destruct extra; reflexivity)
  end.
  unfold mergeExcludeTools. rewrite Hextra.
  destruct (newSet_spec (orNil (toolsExclude settings) ++ extra)) as [Hnd Hin].
  destruct (fold_excludeTools allExtensions
              (newSet (orNil (toolsExclude settings) ++ extra)))
    as (Hnd' & Hin' & _).
  split; [apply Hnd'; exact Hnd|].
  intros tool. rewrite Hin', Hin, in_app_iff. tauto.
Qed.

(** No [Config] is returned: where the construction is reached, it
    throws the [ReferenceError]. *)
Lemma loadCliConfig_throws (host : Host) (settings : Settings)
    (allExtensions : list GeminiCLIExtension) (argv : CliArgs) :
  exists message,
    loadCliConfig host settings allExtensions argv = Throw message /\
    match loadCliConfigLocals host settings allExtensions argv with
    | Ok _ => message = "fileFiltering is not defined"
    | Throw thrown => message = thrown
    end.
Proof.
  unfold loadCliConfig.
  destruct (loadCliConfigLocals host settings allExtensions argv);
    eexists; split; reflexivity.
Qed.

End Loader.

(** ** The loader at a concrete configuration *)

Definition server (s : string) : MCPServerConfig :=
  mkMCPServerConfig (JSON.Str s) None.

(** Settings with two servers, an allow list and an exclude list; an
    active extension that configures four servers, one of them under a
    key of the settings, one under the name of an inherited property
    and one under an array index; an inactive extension. *)
Definition someSettings : Settings :=
  mkSettings (Some [("github", server "settings"); ("slack", server "settings")])
    None (Some ["write_file"]) (Some ["github"; "jira"; ""]) (Some ["jira"])
    None None None.

Definition someExtensions : list GeminiCLIExtension :=
  [mkGeminiCLIExtension "tracker" true
     (Some [("github", server "tracker"); ("jira", server "tracker");
            ("constructor", server "tracker"); ("7", server "tracker")])
     (Some ["run_shell_command"; "write_file"]);
   mkGeminiCLIExtension "sleeping" false
     (Some [("wiki", server "sleeping")]) (Some ["replace"])].

Definition noArguments : CliArgs :=
  mkCliArgs None None None None None None None None None.

Definition terminal : Host := mkHost true None None Returns Returns.

Definition load (argv : CliArgs) : result Locals :=
  loadCliConfigLocals "run_shell_command" "replace" "write_file"
    ["run_shell_command"; "ShellTool"] "gemini-2.5-pro" "auto"
    terminal someSettings someExtensions argv.

(** The server under the array index comes first. *)
Example merged_servers :
  mergeMcpServers someSettings someExtensions =
  [("7", mkMCPServerConfig (JSON.Str "tracker") (Some "tracker"));
   ("github", server "settings"); ("slack", server "settings");
   ("jira", mkMCPServerConfig (JSON.Str "tracker") (Some "tracker"))].
Proof. reflexivity. Qed.

Example array_indices :
  map arrayIndex ["0"; "7"; "42"; "4294967294"; "4294967295"; "07"; "-1"; "1.5";
                  "a"; ""] =
  [Some 0%N; Some 7%N; Some 42%N; Some 4294967294%N; None; None; None; None;
   None; None].
Proof. reflexivity. Qed.

Example merged_excludes :
  mergeExcludeTools someSettings someExtensions (Some ["replace"; "write_file"]) =
  ["write_file"; "replace"; "run_shell_command"].
Proof. reflexivity. Qed.

(** Without arguments: of the four merged servers, "7" and "slack" are
    not allowed and "jira" is excluded; "7" and "slack" are reported. *)
Example servers_by_settings :
  exists locals,
    load noArguments = Ok locals /\
    map fst (localMcpServers locals) = ["github"] /\
    localBlockedMcpServers locals =
      [mkBlockedMcpServer "7" "tracker"; mkBlockedMcpServer "slack" ""].
Proof. eexists. split; [reflexivity|]. split; reflexivity. Qed.

(** The construction of the configuration throws. *)
Example configuration_is_not_constructed :
  loadCliConfig "run_shell_command" "replace" "write_file"
    ["run_shell_command"; "ShellTool"] "gemini-2.5-pro" "auto" unit
    terminal someSettings someExtensions noArguments =
  Throw "fileFiltering is not defined".
Proof. reflexivity. Qed.

(** An invalid approval mode throws before the telemetry settings are
    resolved. *)
Example invalid_approval_mode :
  loadCliConfigLocals "run_shell_command" "replace" "write_file"
    ["run_shell_command"; "ShellTool"] "gemini-2.5-pro" "auto"
    (mkHost true None None (ThrowsFatalConfigError "bad target") Returns)
    someSettings someExtensions
    (mkCliArgs None None None None None (Some "never") None None None) =
  Throw "Invalid approval mode: never. Valid values are: yolo, auto_edit, default" /\
  loadCliConfigLocals "run_shell_command" "replace" "write_file"
    ["run_shell_command"; "ShellTool"] "gemini-2.5-pro" "auto"
    (mkHost true None None (ThrowsFatalConfigError "bad target") Returns)
    someSettings someExtensions noArguments =
  Throw "Invalid telemetry configuration: bad target.".
Proof. split; reflexivity. Qed.

(** With [--allowed-mcp-server-names jira], the excluded server is
    loaded. *)
Definition jiraOnly : CliArgs :=
  mkCliArgs None None None None None None (Some ["jira"]) None None.

Lemma mcp_servers_of_config_witness :
  exists locals,
    load jiraOnly = Ok locals /\
    localMcpServers locals =
      filter (fun entry => named ["jira"] (fst entry))
        (mergeMcpServers someSettings someExtensions) /\
    map fst (localMcpServers locals) = ["jira"] /\
    map blockedName (localBlockedMcpServers locals) = ["7"; "github"; "slack"].
Proof.
  destruct (load jiraOnly) as [locals|message] eqn:Hload;
    [|vm_compute in Hload; discriminate].
  exists locals. split; [reflexivity|].
  destruct (mcp_servers_of_config "run_shell_command" "replace" "write_file"
              ["run_shell_command"; "ShellTool"] "gemini-2.5-pro" "auto"
              terminal someSettings someExtensions jiraOnly locals Hload)
    as [Hservers Hblocked].
  split; [exact Hservers|].
  rewrite Hservers, Hblocked. split; reflexivity.
Defined.

(** In a terminal without a prompt the session is interactive and
    nothing is excluded for lack of approval; with a prompt, in the
    default approval mode, the shell, edit and write-file tools are. *)
Definition withPrompt (allowed : option (list string)) : CliArgs :=
  mkCliArgs None None (Some "fix it") None None None None allowed None.

Example excludes_with_prompt :
  exists interactive batch shell,
    load noArguments = Ok interactive /\
    localExcludeTools interactive = ["write_file"; "run_shell_command"] /\
    load (withPrompt None) = Ok batch /\
    localExcludeTools batch = ["write_file"; "run_shell_command"; "replace"] /\
    load (withPrompt (Some ["replace"; "run_shell_command(git status)"])) = Ok shell /\
    localExcludeTools shell = ["write_file"; "run_shell_command"].
Proof.
  eexists. eexists. eexists.
  split; [reflexivity|]. split; [reflexivity|].
  split; [reflexivity|]. split; [reflexivity|].
  split; reflexivity.
Qed.

Lemma exclude_tools_of_config_witness :
  exists locals,
    load (withPrompt None) = Ok locals /\
    NoDup (localExcludeTools locals) /\
    localInteractive locals = false /\
    localExcludeTools locals = ["write_file"; "run_shell_command"; "replace"] /\
    In "write_file" (localExcludeTools locals).
Proof.
  destruct (load (withPrompt None)) as [locals|message] eqn:Hload;
    [|vm_compute in Hload; discriminate].
  exists locals.
  destruct (exclude_tools_of_config "run_shell_command" "replace" "write_file"
              ["run_shell_command"; "ShellTool"] "gemini-2.5-pro" "auto"
              terminal someSettings someExtensions (withPrompt None) locals Hload)
    as (_ & Hinteractive & Hnodup & Hin).
  split; [reflexivity|]. split; [exact Hnodup|].
  split; [rewrite Hinteractive; reflexivity|].
  split; [vm_compute in Hload; injection Hload as <-; reflexivity|].
  apply Hin. left. left. reflexivity.
Defined.

End CliConfig.
(** * Slash commands

    The commands [/memory] (ui/commands/memoryCommand.ts), [/directory]
    (ui/commands/directoryCommand.tsx) and [/extensions].  The context
    of a command is the state its action reads and changes: the items
    shown ([ui.addItem], in the order they are added; the timestamp is
    left out) and what the services hold. *)

(** ** Strings *)

(** [s.split(sep)] for a separator of one character: the pieces
    between the separators, at least one. *)
Fixpoint splitOn (sep : ascii) (s : string) : list string :=
  match s with
  | EmptyString => [EmptyString]
  | String c rest =>
      if Ascii.eqb c sep then EmptyString :: splitOn sep rest
      else
        match splitOn sep rest with
        | piece :: pieces => String c piece :: pieces
        | [] => [String c EmptyString]
        end
  end.

(** [s.toLowerCase()]: among the code units up to 255 the capital
    letters are A to Z and U+00C0 to U+00DE without the multiplication
    sign U+00D7; the small letter is 32 further. *)
Definition toLowerCase (s : string) : string :=
  string_of_list_ascii
    (map (fun c =>
            let n := nat_of_ascii c in
            if (Nat.leb 65 n && Nat.leb n 90) ||
               (Nat.leb 192 n && Nat.leb n 222 && negb (Nat.eqb n 215))
            then ascii_of_nat (n + 32)
            else c)
       (list_ascii_of_string s)).

(** [s.substring(n)] *)
Definition substringFrom (n : nat) (s : string) : string :=
  String.substring n (String.length s - n) s.

Definition space : ascii := ascii_of_nat 32.
Definition comma : ascii := ascii_of_nat 44.
Definition doubleQuote : string := String (ascii_of_nat 34) EmptyString.

Section StringFacts.

Lemma splitOn_nonempty (sep : ascii) (s : string) : splitOn sep s <> [].
Proof.
  destruct s as [|c rest]; cbn [splitOn]; [discriminate|].
  destruct (Ascii.eqb c sep); [discriminate|].
  destruct (splitOn sep rest); discriminate.
Qed.

(** Joining the pieces with the separator gives the string back. *)
Lemma join_cons (sep x y : string) (l : list string) :
  join sep (x :: y :: l) = (x ++ sep ++ join sep (y :: l))%string.
Proof. reflexivity. Qed.

Lemma join_splitOn (sep : ascii) (s : string) :
  join (String sep EmptyString) (splitOn sep s) = s.
Proof.
  induction s as [|c rest IH]; [reflexivity|].
  cbn [splitOn].
  pose proof (splitOn_nonempty sep rest) as Hne.
  destruct (splitOn sep rest) as [|piece pieces] eqn:Es; [contradiction|].
  destruct (Ascii.eqb c sep) eqn:E.
  - apply Ascii.eqb_eq in E. subst c.
    rewrite join_cons, IH. reflexivity.
  - destruct pieces as [|piece' pieces'].
    + cbn [join] in IH |- *. rewrite IH. reflexivity.
    + rewrite join_cons in IH |- *. rewrite <- IH. reflexivity.
Qed.

(** Every character of the string is white space. *)
Definition AllWhitespace (s : string) : Prop :=
  forall c, In c (list_ascii_of_string s) -> isWhitespace c = true.

(** The string does not start, or end, with white space. *)
Definition StartsClean (s : string) : Prop :=
  match s with
  | EmptyString => True
  | String c _ => isWhitespace c = false
  end.

Definition EndsClean (s : string) : Prop := StartsClean (reverse s).

Lemma list_ascii_of_string_app (a b : string) :
  list_ascii_of_string (a ++ b) = list_ascii_of_string a ++ list_ascii_of_string b.
Proof.
  induction a as [|c a IH]; [reflexivity|].
  cbn. rewrite IH. reflexivity.
Qed.

Lemma string_of_list_ascii_app (a b : list ascii) :
  string_of_list_ascii (a ++ b) =
  (string_of_list_ascii a ++ string_of_list_ascii b)%string.
Proof.
  induction a as [|c a IH]; [reflexivity|].
  cbn. rewrite IH. reflexivity.
Qed.

Lemma reverse_app (a b : string) :
  reverse (a ++ b) = (reverse b ++ reverse a)%string.
Proof.
  unfold reverse.
  rewrite list_ascii_of_string_app, rev_app_distr, string_of_list_ascii_app.
  reflexivity.
Qed.

Lemma reverse_involutive (s : string) : reverse (reverse s) = s.
Proof.
  unfold reverse.
  rewrite list_ascii_of_string_of_list_ascii, rev_involutive.
  apply string_of_list_ascii_of_string.
Qed.

Lemma AllWhitespace_reverse (s : string) :
  AllWhitespace s -> AllWhitespace (reverse s).
Proof.
  unfold AllWhitespace, reverse. intros H c.
  rewrite list_ascii_of_string_of_list_ascii, <- in_rev. apply H.
Qed.

Lemma trimStart_spec (s : string) :
  exists pre,
    s = (pre ++ trimStart s)%string /\ AllWhitespace pre /\
    StartsClean (trimStart s).
Proof.
  induction s as [|c rest IH].
  - exists EmptyString. repeat split. intros c [].
  - cbn [trimStart]. destruct (isWhitespace c) eqn:E.
    + destruct IH as (pre & Hs & Hpre & Hclean).
      exists (String c pre). split; [cbn; rewrite <- Hs; reflexivity|].
      split; [|exact Hclean].
      intros c' [<-|Hin]; [exact E|apply Hpre; exact Hin].
    + exists EmptyString. repeat split; [intros c' []|exact E].
Qed.

Lemma trimStart_whitespace (s : string) :
  AllWhitespace s -> trimStart s = EmptyString.
Proof.
  induction s as [|c rest IH]; intros H; [reflexivity|].
  cbn [trimStart]. rewrite (H c) by (left; reflexivity).
  apply IH. intros c' Hin. apply H. right. exact Hin.
Qed.

Lemma AllWhitespace_app (a b : string) :
  AllWhitespace (a ++ b) <-> AllWhitespace a /\ AllWhitespace b.
Proof.
  unfold AllWhitespace. split.
  - intros H. split; intros c Hin; apply H; rewrite list_ascii_of_string_app;
      apply in_or_app; auto.
  - intros [Ha Hb] c Hin. rewrite list_ascii_of_string_app in Hin.
    apply in_app_or in Hin. destruct Hin; auto.
Qed.

(** [s.trim()] is [s] without the white space around it. *)
Lemma trim_spec (s : string) :
  exists pre post,
    s = (pre ++ trim s ++ post)%string /\
    AllWhitespace pre /\ AllWhitespace post /\
    StartsClean (trim s) /\ EndsClean (trim s).
Proof.
  unfold trim.
  destruct (trimStart_spec s) as (pre & Hs & Hpre & Hclean).
  destruct (trimStart_spec (reverse (trimStart s))) as (q & Hr & Hq & Hclean').
  set (u := trimStart (reverse (trimStart s))) in *.
  assert (Ht : trimStart s = (reverse u ++ reverse q)%string).
  { rewrite <- reverse_app, <- Hr, reverse_involutive. reflexivity. }
  exists pre, (reverse q).
  split; [rewrite <- Ht; exact Hs|].
  split; [exact Hpre|]. split; [apply AllWhitespace_reverse; exact Hq|].
  split.
  - rewrite Ht in Hclean. destruct (reverse u); [exact I|exact Hclean].
  - unfold EndsClean. rewrite reverse_involutive. exact Hclean'.
Qed.

Lemma trim_empty_iff (s : string) :
  trim s = EmptyString <-> AllWhitespace s.
Proof.
  split.
  - intros H. destruct (trim_spec s) as (pre & post & Hs & Hpre & Hpost & _).
    rewrite H in Hs. rewrite Hs. apply AllWhitespace_app. split; [exact Hpre|].
    exact Hpost.
  - intros H. unfold trim. rewrite (trimStart_whitespace s H). reflexivity.
Qed.

Lemma trimStart_clean (s : string) : StartsClean s -> trimStart s = s.
Proof.
  destruct s as [|c rest]; [reflexivity|].
  cbn. intros ->. reflexivity.
Qed.

(** Trimming a trimmed string changes nothing. *)
Lemma trim_idempotent (s : string) : trim (trim s) = trim s.
Proof.
  destruct (trim_spec s) as (_ & _ & _ & _ & _ & Hstart & Hend).
  unfold trim at 1.
  rewrite (trimStart_clean _ Hstart), (trimStart_clean _ Hend).
  apply reverse_involutive.
Qed.

(** The white space of [trim], by code unit. *)
Lemma isWhitespace_codes (c : ascii) :
  isWhitespace c = true <->
  In (nat_of_ascii c) [9; 10; 11; 12; 13; 32; 160]%nat.
Proof.
  unfold isWhitespace. cbv zeta.
  rewrite !orb_true_iff, andb_true_iff, !Nat.eqb_eq, !Nat.leb_le.
  cbn [In]. lia.
Qed.

End StringFacts.

Example trim_no_break_space :
  trim (String (ascii_of_nat 160) ("a b" ++ String (ascii_of_nat 9) EmptyString))
  = "a b" /\
  trim (String (ascii_of_nat 160) EmptyString) = EmptyString /\
  trim (String (ascii_of_nat 133) EmptyString) =
    String (ascii_of_nat 133) EmptyString.
Proof. repeat split. Qed.

Example toLowerCase_letters :
  toLowerCase "%UserProfile%" = "%userprofile%" /\
  toLowerCase (String (ascii_of_nat 201) EmptyString) =
    String (ascii_of_nat 233) EmptyString /\
  toLowerCase (String (ascii_of_nat 215) EmptyString) =
    String (ascii_of_nat 215) EmptyString.
Proof. repeat split. Qed.
(** ** What a command shows and returns *)

Module Ui.

Inductive MessageType : Type :=
| INFO
| ERROR
| EXTENSIONS_LIST.

(** An item passed to [ui.addItem]. *)
Record HistoryItem : Type := mkHistoryItem {
  itemType : MessageType;
  itemText : option string
}.

(** What an action may return: a message to show, or a tool to call
    with its arguments. *)
Inductive SlashCommandActionReturn : Type :=
| Message (messageType content : string)
| Tool (toolName : string) (toolArgs : list (string * JSON.value)).

Definition info (text : string) : HistoryItem := mkHistoryItem INFO (Some text).
Definition error (text : string) : HistoryItem := mkHistoryItem ERROR (Some text).

End Ui.

(** ** [/memory] *)

Module MemoryCommand.

Import Ui.

(** The action of [/memory add]: the items after it and what it
    returns. *)
Definition add (items : list HistoryItem) (args : string)
  : list HistoryItem * SlashCommandActionReturn :=
  if String.eqb args EmptyString || String.eqb (trim args) EmptyString then
    (items, Message "error" "Usage: /memory add <text to remember>")
  else
    (items ++
     [info ("Attempting to save to memory: " ++ doubleQuote ++ trim args ++
            doubleQuote)%string],
     Tool "save_memory" [("fact", JSON.Str (trim args))]).

(** The code units that [trim] removes: tab, line feed, vertical tab,
    form feed, carriage return, space and no-break space. *)
Definition WhiteSpace (c : ascii) : Prop :=
  In (nat_of_ascii c) [9; 10; 11; 12; 13; 32; 160]%nat.

(** X21: [/memory add] either saves or explains.  When the text is
    empty or white space only it shows nothing and returns the usage
    message; otherwise it announces the attempt and returns a call of
    [save_memory] whose fact is the text without the white space around
    it: not empty, neither starting nor ending with white space.  White
    space is one of the code units 9 to 13, 32 and 160. *)
Theorem memory_add_saves_trimmed_fact (items : list HistoryItem) (args : string) :
  (forall c, isWhitespace c = true <-> WhiteSpace c) /\
  match snd (add items args) with
  | Message messageType content =>
      AllWhitespace args /\ fst (add items args) = items /\
      messageType = "error" /\ content = "Usage: /memory add <text to remember>"
  | Tool toolName toolArgs =>
      exists fact before after,
        toolName = "save_memory" /\ toolArgs = [("fact", JSON.Str fact)] /\
        args = (before ++ fact ++ after)%string /\
        AllWhitespace before /\ AllWhitespace after /\
        fact <> EmptyString /\ StartsClean fact /\ EndsClean fact /\
        fst (add items args) =
          items ++
          [info ("Attempting to save to memory: " ++ doubleQuote ++ fact ++
                 doubleQuote)%string]
  end.
Proof.
  split; [exact isWhitespace_codes|].
  unfold add.
  destruct (String.eqb args EmptyString) eqn:Hargs; cbn [orb].
  - apply String.eqb_eq in Hargs. subst args. cbn [snd fst].
    repeat split. intros c [].
  - destruct (String.eqb (trim args) EmptyString) eqn:Htrim; cbn [snd fst].
    + apply String.eqb_eq in Htrim. apply trim_empty_iff in Htrim.
      repeat split. exact Htrim.
    + apply String.eqb_neq in Htrim.
      destruct (trim_spec args) as (before & after & Hs & Hb & Ha & Hstart & Hend).
      exists (trim args), before, after. repeat split; assumption.
Qed.

Example memory_add_trims :
  add [] "  remember this  " =
  ([info ("Attempting to save to memory: " ++ doubleQuote ++ "remember this" ++
          doubleQuote)%string],
   Tool "save_memory" [("fact", JSON.Str "remember this")]) /\
  add [] "   " = ([], Message "error" "Usage: /memory add <text to remember>") /\
  add [] (String (ascii_of_nat 160) EmptyString) =
    ([], Message "error" "Usage: /memory add <text to remember>").
Proof. repeat split. Qed.

End MemoryCommand.
(** ** [/directory] *)

Module DirectoryCommand.

Import Ui.

Section Directory.

(** Modelled from the spec: the workspace kept by the
    [WorkspaceContext] of the core package, which is not among the
    sources, and the functions of the platform: [os.homedir()] and
    [path.normalize]. *)
Variable Workspace : Type.
Variable homedir : string.
Variable normalize : string -> string.

(** The services of [context.services.config] that [/directory add]
    calls.  [addDirectory] and [loadServerHierarchicalMemory] may throw
    an [Error] with a message; the memory loader answers with the number
    of files. *)
Record Config : Type := mkConfig {
  addDirectory : Workspace -> string -> result Workspace;
  isRestrictiveSandbox : bool;
  shouldLoadMemoryFromIncludeDirectories : bool;
  loadServerHierarchicalMemory : Workspace -> result nat;
  getDirectoryContextString : Workspace -> string
}.

(** The client [config.getGeminiClient()] gives: it holds a chat once
    it is initialised. *)
Inductive GeminiClient : Type :=
| NotInitialized
| Initialized (st : Client).

(** The context of the command: the configuration if there is one, the
    workspace, the items shown, the file count shown, and the client
    ([config.getGeminiClient()]) if there is one. *)
Record Context : Type := mkContext {
  config : option Config;
  workspace : Workspace;
  items : list HistoryItem;
  geminiMdFileCount : nat;
  geminiClient : option GeminiClient
}.

Definition addItem (item : HistoryItem) (context : Context) : Context :=
  mkContext (config context) (workspace context) (items context ++ [item])
    (geminiMdFileCount context) (geminiClient context).

(** [expandHomeDir(p)] *)
Definition expandHomeDir (p : string) : string :=
  if String.eqb p EmptyString then EmptyString
  else
    let expandedPath :=
      if String.prefix "%userprofile%" (toLowerCase p) then
        (homedir ++ substringFrom (String.length "%userprofile%") p)%string
      else if String.eqb p "~" || String.prefix "~/" p then
        (homedir ++ substringFrom 1 p)%string
      else p in
    normalize expandedPath.

(** [addDirectoryContext()] of the client (client.ts, lines 228-237):
    without a chat it returns; otherwise the directory context is
    appended to the history as a user entry. *)
Definition addDirectoryContext (directoryContext : string)
    (gemini : GeminiClient) : GeminiClient :=
  match gemini with
  | NotInitialized => NotInitialized
  | Initialized st =>
      Initialized (addHistory (userContent [textPart directoryContext]) st)
  end.

(** The loop over [pathsToAdd]: the workspace, [added] and [errors]
    after it. *)
Fixpoint addDirectories (c : Config) (pathsToAdd : list string)
    (w : Workspace) (added errors : list string)
  : Workspace * list string * list string :=
  match pathsToAdd with
  | [] => (w, added, errors)
  | pathToAdd :: rest =>
      match addDirectory c w (expandHomeDir (trim pathToAdd)) with
      | Ok w' => addDirectories c rest w' (added ++ [trim pathToAdd]) errors
      | Throw message =>
          addDirectories c rest w added
            (errors ++
             ["Error adding '" ++ trim pathToAdd ++ "': " ++ message]%string)
      end
  end.

Definition bulletList (l : list string) : string :=
  join (newline ++ "- ")%string l.

Definition restrictiveSandboxMessage : string :=
  "The /directory add command is not supported in restrictive sandbox profiles. Please use --include-directories when starting the session instead.".

(** The action of [/directory add]: the context after it and what it
    returns. *)
Definition add (context : Context) (args : string)
  : Context * option SlashCommandActionReturn :=
  let rest := splitOn space args in
  match config context with
  | None => (addItem (error "Configuration is not available.") context, None)
  | Some c =>
      let pathsToAdd :=
        filter (fun p => negb (String.eqb p EmptyString))
          (splitOn comma (join (String space EmptyString) rest)) in
      if (List.length pathsToAdd =? 0)%nat then
        (addItem (error "Please provide at least one path to add.") context, None)
      else if isRestrictiveSandbox c then
        (context, Some (Message "error" restrictiveSandboxMessage))
      else
        let '(w, added, errors) :=
          addDirectories c pathsToAdd (workspace context) [] [] in
        let context :=
          mkContext (config context) w (items context)
            (geminiMdFileCount context) (geminiClient context) in
        let memoryItem :=
          info ("Successfully added GEMINI.md files from the following directories if there are:"
                ++ newline ++ "- " ++ bulletList added)%string in
        let '(context, errors) :=
          if shouldLoadMemoryFromIncludeDirectories c then
            match loadServerHierarchicalMemory c w with
            | Ok fileCount =>
                (addItem memoryItem
                   (mkContext (config context) (workspace context)
                      (items context) fileCount (geminiClient context)),
                 errors)
            | Throw message =>
                (context,
                 errors ++ ["Error refreshing memory: " ++ message]%string)
            end
          else (addItem memoryItem context, errors) in
        let context :=
          if (0 <? List.length added)%nat then
            let context :=
              match geminiClient context with
              | Some gemini =>
                  mkContext (config context) (workspace context) (items context)
                    (geminiMdFileCount context)
                    (Some (addDirectoryContext
                             (getDirectoryContextString c (workspace context))
                             gemini))
              | None => context
              end in
            addItem
              (info ("Successfully added directories:" ++ newline ++ "- " ++
                     bulletList added)%string)
              context
          else context in
        let context :=
          if (0 <? List.length errors)%nat then
            addItem (error (join newline errors)) context
          else context in
        (context, None)
  end.

(** ** Properties of [/directory add] *)

(** The paths of the arguments: the non-empty pieces between commas. *)
Definition pathsOf (args : string) : list string :=
  filter (fun p => negb (String.eqb p EmptyString)) (splitOn comma args).

(** What happened to one path: it was added, or adding it failed with
    a message. *)
Inductive Report : Type :=
| Added (path : string)
| Failed (path message : string).

Definition addedPaths (reports : list Report) : list string :=
  flat_map (fun r => match r with Added p => [p] | Failed _ _ => [] end) reports.

Definition errorLines (reports : list Report) : list string :=
  flat_map (fun r =>
              match r with
              | Added _ => []
              | Failed p message =>
                  ["Error adding '" ++ p ++ "': " ++ message]%string
              end) reports.

Definition reportedPath (r : Report) : string :=
  match r with
  | Added p => p
  | Failed p _ => p
  end.

Lemma addDirectories_reports (c : Config) (pathsToAdd : list string) :
  forall w added errors,
    exists reports,
      map reportedPath reports = map trim pathsToAdd /\
      snd (fst (addDirectories c pathsToAdd w added errors)) =
        added ++ addedPaths reports /\
      snd (addDirectories c pathsToAdd w added errors) =
        errors ++ errorLines reports.
Proof.
  induction pathsToAdd as [|p rest IH]; intros w added errors;
    cbn [addDirectories].
  - exists []. cbn. rewrite !app_nil_r. repeat split.
  - destruct (addDirectory c w (expandHomeDir (trim p))) as [w'|message].
    + destruct (IH w' (added ++ [trim p]) errors) as (reports & Hp & Ha & He).
      exists (Added (trim p) :: reports). cbn [map reportedPath].
      split; [rewrite Hp; reflexivity|].
      rewrite Ha, He. cbn. rewrite <- app_assoc. split; reflexivity.
    + destruct (IH w added
                  (errors ++ ["Error adding '" ++ trim p ++ "': " ++ message]%string))
        as (reports & Hp & Ha & He).
      exists (Failed (trim p) message :: reports). cbn [map reportedPath].
      split; [rewrite Hp; reflexivity|].
      rewrite Ha, He. cbn. rewrite <- app_assoc. split; reflexivity.
Qed.

(** X22: [/directory add] accounts for every path.  Without a
    configuration, and without a non-empty piece between the commas of
    the arguments, it shows one error and does nothing else; in a
    restrictive sandbox it shows nothing and returns an error message.
    Otherwise each non-empty piece, trimmed, is reported once: among the
    directories added, or with an error line.  The directories added
    are announced, and the directory context is appended to the history
    of the client if it holds a chat, exactly when at least one was
    added; the error lines, a failure to refresh the memory included,
    are shown in one error item, the last item, exactly when there is
    one; nothing is returned. *)
Theorem directory_add_reports_every_path (context : Context) (args : string) :
  let context' := fst (add context args) in
  match config context with
  | None =>
      add context args =
        (addItem (error "Configuration is not available.") context, None)
  | Some c =>
      match pathsOf args with
      | [] =>
          add context args =
            (addItem (error "Please provide at least one path to add.") context,
             None)
      | _ :: _ =>
          if isRestrictiveSandbox c then
            add context args =
              (context, Some (Message "error" restrictiveSandboxMessage))
          else
            exists reports memoryItems memoryErrors,
              map reportedPath reports = map trim (pathsOf args) /\
              snd (add context args) = None /\
              items context' =
                items context ++ memoryItems ++
                (match addedPaths reports with
                 | [] => []
                 | added =>
                     [info ("Successfully added directories:" ++ newline ++
                            "- " ++ bulletList added)%string]
                 end) ++
                (match errorLines reports ++ memoryErrors with
                 | [] => []
                 | errors => [error (join newline errors)]
                 end) /\
              (List.length memoryItems + List.length memoryErrors = 1)%nat /\
              (forall item, In item memoryItems -> itemType item = INFO) /\
              geminiClient context' =
                match addedPaths reports, geminiClient context with
                | _ :: _, Some (Initialized st) =>
                    Some (Initialized
                            (addHistory
                               (userContent
                                  [textPart
                                     (getDirectoryContextString c
                                        (workspace context'))])
                               st))
                | _, gemini => gemini
                end
      end
  end.
Proof.
  cbv zeta. unfold add. rewrite join_splitOn. fold (pathsOf args).
  destruct (config context) as [c|] eqn:Hconfig; [|reflexivity].
  destruct (pathsOf args) as [|p paths] eqn:Hpaths; [reflexivity|].
  cbn [List.length Nat.eqb].
  destruct (isRestrictiveSandbox c); [reflexivity|].
  destruct (addDirectories_reports c (p :: paths) (workspace context) [] [])
    as (reports & Hreported & Hadded & Herrors).
  destruct (addDirectories c (p :: paths) (workspace context) [] [])
    as [[w added] errors].
  cbn [fst snd app] in Hadded, Herrors. subst added errors.
  set (memoryItem :=
         info ("Successfully added GEMINI.md files from the following directories if there are:"
               ++ newline ++ "- " ++ bulletList (addedPaths reports))%string).
  destruct (shouldLoadMemoryFromIncludeDirectories c);
    [destruct (loadServerHierarchicalMemory c w) as [fileCount|message]|].
  - exists reports, [memoryItem], []. rewrite app_nil_r.
    split; [exact Hreported|].
    destruct (addedPaths reports) as [|a added];
      destruct (errorLines reports) as [|e errors];
      destruct (geminiClient context) as [[|st]|];
      cbn; repeat split;
      try (intros item [<-|[]]; reflexivity);
      rewrite <- ?app_assoc; reflexivity.
  - exists reports, [], ["Error refreshing memory: " ++ message]%string.
    split; [exact Hreported|].
    destruct (addedPaths reports) as [|a added];
      (destruct (errorLines reports ++ ["Error refreshing memory: " ++ message]%string)
         as [|e errors] eqn:Ee;
       [exfalso; destruct (errorLines reports); discriminate Ee|]);
      destruct (geminiClient context) as [[|st]|];
      cbn; repeat split; try (intros item []);
      rewrite <- ?app_assoc; reflexivity.
  - exists reports, [memoryItem], []. rewrite app_nil_r.
    split; [exact Hreported|].
    destruct (addedPaths reports) as [|a added];
      destruct (errorLines reports) as [|e errors];
      destruct (geminiClient context) as [[|st]|];
      cbn; repeat split;
      try (intros item [<-|[]]; reflexivity);
      rewrite <- ?app_assoc; reflexivity.
Qed.

End Directory.

(** ** [/directory add] at a concrete workspace *)

(** A workspace that is the list of its directories, on a platform
    whose home directory is /home/u and whose paths are in normal form;
    directories under /missing cannot be added. *)
Definition someConfig : Config (list string) :=
  mkConfig (list string)
    (fun w p =>
       if String.prefix "/missing" p then Throw "no such directory"
       else Ok (w ++ [p]))
    false false (fun w => Ok (List.length w)) (fun w => join ", " w).

Definition someContext : Context (list string) :=
  mkContext (list string) (Some someConfig) ["/work"] [] 0
    (Some (Initialized (Scenario.client Scenario.greeting 0))).

Definition run (args : string)
  : Context (list string) * option SlashCommandActionReturn :=
  add (list string) "/home/u" (fun p => p) someContext args.

Example expandHomeDir_cases :
  let expand := expandHomeDir "/home/u" (fun p => p) in
  expand "~" = "/home/u" /\
  expand "~/src" = "/home/u/src" /\
  expand "%UserProfile%/src" = "/home/u/src" /\
  expand "~user/src" = "~user/src" /\
  expand EmptyString = EmptyString.
Proof. repeat split. Qed.

Example directory_add_two_paths :
  let context' := fst (run " ~/src , /missing/lib,,") in
  workspace _ context' = ["/work"; "/home/u/src"] /\
  map itemType (items _ context') = [INFO; INFO; ERROR] /\
  option_map
    (fun gemini =>
       match gemini with
       | Initialized st => List.length (chatHistory (chat st))
       | NotInitialized => 0%nat
       end)
    (geminiClient _ context') = Some 3%nat.
Proof. repeat split. Qed.

(** A client that holds no chat is left as it is; without a path, in a
    restrictive sandbox and without configuration nothing is added. *)
Example directory_add_other_cases :
  let waiting :=
    mkContext (list string) (Some someConfig) ["/work"] [] 0
      (Some NotInitialized) in
  let sandboxed :=
    mkContext (list string)
      (Some (mkConfig (list string) (fun w p => Ok (w ++ [p])) true false
               (fun w => Ok (List.length w)) (fun w => join ", " w)))
      ["/work"] [] 0 None in
  let unconfigured := mkContext (list string) None ["/work"] [] 0 None in
  let add := add (list string) "/home/u" (fun p => p) in
  geminiClient _ (fst (add waiting "~/src")) = Some NotInitialized /\
  workspace _ (fst (add waiting "~/src")) = ["/work"; "/home/u/src"] /\
  map itemType (items _ (fst (run ",,"))) = [ERROR] /\
  workspace _ (fst (run ",,")) = ["/work"] /\
  add sandboxed "~/src" =
    (sandboxed, Some (Message "error" restrictiveSandboxMessage)) /\
  map itemType (items _ (fst (add unconfigured "~/src"))) = [ERROR].
Proof. repeat split. Qed.

End DirectoryCommand.
(** ** [/extensions] *)

Module ExtensionsCommand.

Import Ui.

(** The context of the command: the extensions of the configuration
    ([config.getExtensions()], whose objects the command changes), the
    items shown, the pending item, whether the configuration has a
    client, and [refreshConfigAfterExtensionActivationChange] of the
    client (client.ts), which reloads memory and tools through the
    configuration: given the extensions it returns, or throws an error
    with a message.  The configuration is taken to be there. *)
Record Context : Type := mkContext {
  extensions : list CliConfig.GeminiCLIExtension;
  items : list HistoryItem;
  pendingItem : option HistoryItem;
  hasGeminiClient : bool;
  refreshConfigAfterExtensionActivationChange :
    list CliConfig.GeminiCLIExtension -> result unit
}.

Definition addItem (item : HistoryItem) (context : Context) : Context :=
  mkContext (extensions context) (items context ++ [item]) (pendingItem context)
    (hasGeminiClient context)
    (refreshConfigAfterExtensionActivationChange context).

Definition setPendingItem (item : option HistoryItem) (context : Context)
  : Context :=
  mkContext (extensions context) (items context) item (hasGeminiClient context)
    (refreshConfigAfterExtensionActivationChange context).

(** [extension.isActive = enabledState] *)
Definition setIsActive (enabledState : bool)
    (extension : CliConfig.GeminiCLIExtension) : CliConfig.GeminiCLIExtension :=
  CliConfig.mkGeminiCLIExtension (CliConfig.name extension) enabledState
    (CliConfig.extensionMcpServers extension) (CliConfig.excludeTools extension).

Definition extensionsList : HistoryItem := mkHistoryItem EXTENSIONS_LIST None.

(** [args.split(' ').filter((value) => value.length > 0)] *)
Definition words (args : string) : list string :=
  filter (fun value => (0 <? String.length value)%nat) (splitOn space args).

(** The [try] block of [setExtensionEnablement] up to the refresh: the
    extensions selected are switched and announced, one after the
    other. *)
Definition switchExtensions (selected : CliConfig.GeminiCLIExtension -> bool)
    (enabledState : bool) (context : Context) : Context :=
  mkContext
    (map (fun ext => if selected ext then setIsActive enabledState ext else ext)
       (extensions context))
    (items context ++
     map (fun extension =>
            info ("Extension " ++ CliConfig.name extension ++ " " ++
                  (if enabledState then "enabled" else "disabled"))%string)
       (filter selected (extensions context)))
    (pendingItem context) (hasGeminiClient context)
    (refreshConfigAfterExtensionActivationChange context).

(** [await config.getGeminiClient()?.refreshConfigAfterExtensionActivationChange()]
    and the [catch] block. *)
Definition refreshClient (context : Context) : Context :=
  if hasGeminiClient context then
    match refreshConfigAfterExtensionActivationChange context
            (extensions context) with
    | Ok _ => context
    | Throw message => addItem (error message) context
    end
  else context.

(** [setExtensionEnablement(context, args, enabledState)] *)
Definition setExtensionEnablement (context : Context) (args : string)
    (enabledState : bool) : Context :=
  let enableArgs := words args in
  let all :=
    (List.length enableArgs =? 1)%nat &&
    match nth_error enableArgs 0 with
    | Some first => String.eqb first "--all"
    | None => false
    end in
  let names := if all then None else Some enableArgs in
  if negb all &&
     match names with
     | Some l => (List.length l =? 0)%nat
     | None => false
     end
  then
    addItem
      (error ("Usage: /extensions " ++
              (if enabledState then "enable" else "disable") ++
              " <extension-names>|--all")%string)
      context
  else
    let context := setPendingItem (Some extensionsList) context in
    let selected (ext : CliConfig.GeminiCLIExtension) :=
      all || CliConfig.includes (CliConfig.orNil names) (CliConfig.name ext) in
    let context := switchExtensions selected enabledState context in
    let context := refreshClient context in
    let context := addItem extensionsList context in
    setPendingItem None context.

(** ** Properties of [/extensions enable] and [/extensions disable] *)

(** The extension is addressed by the arguments: they are [--all]
    alone, or one of their words is its name. *)
Definition addressed (args : string) (ext : CliConfig.GeminiCLIExtension) : bool :=
  match words args with
  | [only] =>
      String.eqb only "--all" || String.eqb (CliConfig.name ext) only
  | names => CliConfig.includes names (CliConfig.name ext)
  end.

Definition usage (enabledState : bool) : string :=
  ("Usage: /extensions " ++ (if enabledState then "enable" else "disable") ++
   " <extension-names>|--all")%string.

Lemma refreshClient_spec (context : Context) :
  extensions (refreshClient context) = extensions context /\
  pendingItem (refreshClient context) = pendingItem context /\
  exists shown, items (refreshClient context) = items context ++ shown.
Proof.
  unfold refreshClient.
  destruct (hasGeminiClient context);
    [destruct (refreshConfigAfterExtensionActivationChange context _)|].
  - repeat split. exists []. symmetry. apply app_nil_r.
  - repeat split. eexists. reflexivity.
  - repeat split. exists []. symmetry. apply app_nil_r.
Qed.

(** The command in terms of the extensions addressed. *)
Lemma setExtensionEnablement_unfold (context : Context) (args : string)
    (enabledState : bool) :
  setExtensionEnablement context args enabledState =
  match words args with
  | [] => addItem (error (usage enabledState)) context
  | _ =>
      setPendingItem None
        (addItem extensionsList
           (refreshClient
              (switchExtensions (addressed args) enabledState
                 (setPendingItem (Some extensionsList) context))))
  end.
Proof.
  unfold setExtensionEnablement.
  assert (Hswitch : forall f g c,
            (forall ext, f ext = g ext) ->
            switchExtensions f enabledState c = switchExtensions g enabledState c).
  { intros f g c Hfg. unfold switchExtensions. f_equal.
    - apply map_ext. intros ext. rewrite Hfg. reflexivity.
    - f_equal. f_equal. apply filter_ext. exact Hfg. }
  unfold addressed.
  destruct (words args) as [|first [|second rest]].
  - reflexivity.
  - cbn [List.length Nat.eqb nth_error andb].
    destruct (String.eqb first "--all"); cbn [negb andb orb List.length Nat.eqb].
    + reflexivity.
    + cbv zeta. do 3 f_equal. apply Hswitch. intros ext.
      unfold CliConfig.includes. cbn [CliConfig.orNil existsb orb].
      apply orb_false_r.
  - reflexivity.
Qed.

Lemma setExtensionEnablement_extensions (context : Context) (args : string)
    (enabledState : bool) :
  extensions (setExtensionEnablement context args enabledState) =
  map (fun ext => if addressed args ext then setIsActive enabledState ext else ext)
    (extensions context).
Proof.
  rewrite setExtensionEnablement_unfold.
  destruct (words args) as [|first rest] eqn:Hwords.
  - cbn [extensions addItem]. symmetry.
    rewrite <- (map_id (extensions context)) at 2.
    apply map_ext. intros ext. unfold addressed. rewrite Hwords. reflexivity.
  - cbn [extensions setPendingItem addItem].
    rewrite (proj1 (refreshClient_spec _)). reflexivity.
Qed.

(** X23: [/extensions enable] and [/extensions disable] change the
    activation of exactly the extensions addressed by the arguments
    ([--all] alone addresses all, otherwise the words are names; a name
    no extension has is passed over silently) and nothing else of any
    extension; of two such commands with the same arguments the later
    one decides, so a command repeated changes nothing more.  Unless the
    arguments are empty, the list of extensions is the last item shown
    and the pending item is cleared, also when the refresh of the client
    fails. *)
Theorem extension_enablement (context : Context) (args : string)
    (enabledState earlier : bool) :
  let context' := setExtensionEnablement context args enabledState in
  map CliConfig.name (extensions context') =
    map CliConfig.name (extensions context) /\
  (forall i ext,
      nth_error (extensions context) i = Some ext ->
      exists ext',
        nth_error (extensions context') i = Some ext' /\
        CliConfig.isActive ext' =
          (if addressed args ext then enabledState else CliConfig.isActive ext) /\
        CliConfig.extensionMcpServers ext' = CliConfig.extensionMcpServers ext /\
        CliConfig.excludeTools ext' = CliConfig.excludeTools ext) /\
  extensions
    (setExtensionEnablement (setExtensionEnablement context args earlier) args
       enabledState) = extensions context' /\
  match words args with
  | [] =>
      extensions context' = extensions context /\
      pendingItem context' = pendingItem context /\
      items context' = items context ++ [error (usage enabledState)]
  | _ =>
      pendingItem context' = None /\
      exists shown, items context' = items context ++ shown ++ [extensionsList]
  end.
Proof.
  cbv zeta. split; [|split; [|split]].
  - rewrite setExtensionEnablement_extensions, map_map.
    apply map_ext. intros ext. destruct (addressed args ext); reflexivity.
  - intros i ext Hi.
    rewrite setExtensionEnablement_extensions, nth_error_map, Hi.
    cbn [option_map]. eexists. split; [reflexivity|].
    destruct (addressed args ext); repeat split.
  - rewrite !setExtensionEnablement_extensions, map_map.
    apply map_ext. intros ext.
    assert (Hname : forall s e, addressed args (setIsActive s e) = addressed args e)
      by reflexivity.
    destruct (addressed args ext) eqn:E.
    + rewrite Hname, E. reflexivity.
    + rewrite E. reflexivity.
  - rewrite setExtensionEnablement_unfold.
    destruct (words args) as [|first rest].
    + repeat split.
    + split; [reflexivity|].
      cbn [items setPendingItem addItem].
      destruct (refreshClient_spec
                  (switchExtensions (addressed args) enabledState
                     (setPendingItem (Some extensionsList) context)))
        as (_ & _ & shown & Hshown).
      rewrite Hshown. cbn [items switchExtensions setPendingItem].
      match goal with
      | |- exists _, ((_ ++ ?announced) ++ ?failed) ++ _ = _ =>
          exists (announced ++ failed)
      end.
      rewrite <- !app_assoc. reflexivity.
Qed.

(** Three extensions, and a client whose refresh fails. *)
Definition someExtensions : list CliConfig.GeminiCLIExtension :=
  [CliConfig.mkGeminiCLIExtension "alpha" true None None;
   CliConfig.mkGeminiCLIExtension "beta" false None None;
   CliConfig.mkGeminiCLIExtension "--all" false None None].

Definition someContext : Context :=
  mkContext someExtensions [] None true (fun _ => Throw "refresh failed").

Example enable_by_name_and_all :
  map CliConfig.isActive
    (extensions (setExtensionEnablement someContext " beta  gamma " true)) =
    [true; true; false] /\
  map CliConfig.isActive
    (extensions (setExtensionEnablement someContext "--all" false)) =
    [false; false; false] /\
  map CliConfig.isActive
    (extensions (setExtensionEnablement someContext "--all beta" true)) =
    [true; true; true] /\
  map itemType (items (setExtensionEnablement someContext "beta" true)) =
    [INFO; ERROR; EXTENSIONS_LIST] /\
  map itemType (items (setExtensionEnablement someContext "  " true)) = [ERROR].
Proof. repeat split. Qed.

End ExtensionsCommand.
